(** * electron-settings: a shallow embedding of [lib/settings.js]

    The development follows the layout of the source file:

    - JavaScript values and the two host built-ins the store relies on
      ([JSON.stringify] and [JSON.parse], after ECMA-262);
    - the two key-path helpers [flattenKeyPath] and [isKeyPath];
    - the accessor of the [key-path-helpers] package;
    - the file system, as far as one store sees it;
    - the class [ElectronSettings]: the blocking methods in a state and
      exception monad, the callback methods in continuation-passing style;
    - the properties of the specification, and further properties of the
      code. *)

From Stdlib Require Import String Ascii List ZArith Bool Lia Arith.
From Stdlib Require DecimalString DecimalFacts DecimalPos.
Import ListNotations.

Set Warnings "-register-all".

Local Open Scope list_scope.
Local Open Scope string_scope.

(* ================================================================= *)
(** ** JavaScript values *)

(** Strings are byte strings (the UTF-8 encoding of the JavaScript string),
    so that [Buffer.from(text)] and [buffer.toString('utf8')] are the
    identity.  Numbers are the integer-valued Numbers, taken as integers
    (no rounding, decimal notation at every size).  An object is the
    list of its own enumerable properties in enumeration order; an array is
    the list of its elements.  [VFun k] is the function value the caller
    passes as completion callback number [k]. *)
Inductive value : Type :=
| VUndef
| VNull
| VBool (b : bool)
| VNum (n : Z)
| VStr (s : string)
| VArr (items : list value)
| VObj (props : list (string * value))
| VFun (k : nat).

(** The induction principle that reaches below arrays and objects. *)
Section ValueInd.
Variable P : value -> Prop.
Hypothesis HUndef : P VUndef.
Hypothesis HNull : P VNull.
Hypothesis HBool : forall b, P (VBool b).
Hypothesis HNum : forall n, P (VNum n).
Hypothesis HStr : forall s, P (VStr s).
Hypothesis HArr : forall items, Forall P items -> P (VArr items).
Hypothesis HObj :
  forall props, Forall (fun kv => P (snd kv)) props -> P (VObj props).
Hypothesis HFun : forall k, P (VFun k).

Fixpoint value_rect' (v : value) : P v :=
  match v with
  | VUndef => HUndef
  | VNull => HNull
  | VBool b => HBool b
  | VNum n => HNum n
  | VStr s => HStr s
  | VArr items =>
      HArr items
        ((fix go (l : list value) : Forall P l :=
            match l with
            | [] => Forall_nil _
            | x :: l' => Forall_cons x (value_rect' x) (go l')
            end) items)
  | VObj props =>
      HObj props
        ((fix go (l : list (string * value))
            : Forall (fun kv => P (snd kv)) l :=
            match l with
            | [] => Forall_nil _
            | kv :: l' =>
                Forall_cons kv (value_rect' (snd kv)) (go l')
            end) props)
  | VFun k => HFun k
  end.
End ValueInd.

(** [ToBoolean]. *)
Definition truthy (v : value) : bool :=
  match v with
  | VUndef | VNull => false
  | VBool b => b
  | VNum n => negb (n =? 0)%Z
  | VStr s => negb (s =? "")
  | VArr _ | VObj _ | VFun _ => true
  end.

(** The [i]-th actual argument of a call; a missing argument reads as
    [undefined]. *)
Definition arg (i : nat) (args : list value) : value := nth i args VUndef.

(** Property lookup and assignment on the property list of an object. *)
Fixpoint lookup (k : string) (props : list (string * value)) : option value :=
  match props with
  | [] => None
  | (k', v) :: rest => if k' =? k then Some v else lookup k rest
  end.

Fixpoint upsert (k : string) (v : value) (props : list (string * value))
  : list (string * value) :=
  match props with
  | [] => [(k, v)]
  | (k', v') :: rest =>
      if k' =? k then (k, v) :: rest else (k', v') :: upsert k v rest
  end.

Fixpoint remove (k : string) (props : list (string * value))
  : list (string * value) :=
  match props with
  | [] => []
  | (k', v') :: rest =>
      if k' =? k then rest else (k', v') :: remove k rest
  end.

(** A value that JSON represents: no [undefined], no function, property
    names pairwise distinct. *)
Fixpoint nodupb (l : list string) : bool :=
  match l with
  | [] => true
  | x :: l' => negb (existsb (String.eqb x) l') && nodupb l'
  end.

Fixpoint json_representable (v : value) : bool :=
  match v with
  | VUndef | VFun _ => false
  | VNull | VBool _ | VNum _ | VStr _ => true
  | VArr items => forallb json_representable items
  | VObj props =>
      nodupb (map fst props)
      && forallb (fun kv => json_representable (snd kv)) props
  end.

(** The strings of [l], separated by [sep]. *)
Fixpoint join (sep : string) (l : list string) : string :=
  match l with
  | [] => ""
  | [x] => x
  | x :: l' => x ++ sep ++ join sep l'
  end.

(* ================================================================= *)
(** ** [JSON.stringify] and [JSON.parse] *)

Module JSON.

Definition dquote : ascii := "034"%char.
Definition bslash : ascii := "092"%char.
Definition nl : string := String "010" "".

(** The two-character escape sequence [\c]. *)
Definition esc (c : ascii) : string := String bslash (String c "").

Fixpoint spaces (n : nat) : string :=
  match n with
  | 0 => ""
  | S n' => String " " (spaces n')
  end.

Definition hex_digit (n : nat) : ascii :=
  nth n
    ["0"; "1"; "2"; "3"; "4"; "5"; "6"; "7"; "8"; "9";
     "a"; "b"; "c"; "d"; "e"; "f"]%char "0"%char.

(** [QuoteJSONString], one code unit. *)
Definition quote_char (c : ascii) : string :=
  let n := nat_of_ascii c in
  if (n =? 8)%nat then esc "b"
  else if (n =? 9)%nat then esc "t"
  else if (n =? 10)%nat then esc "n"
  else if (n =? 12)%nat then esc "f"
  else if (n =? 13)%nat then esc "r"
  else if (n =? 34)%nat then esc dquote
  else if (n =? 92)%nat then esc bslash
  else if (n <? 32)%nat then
    String bslash (String "u" (String "0" (String "0"
      (String (hex_digit (n / 16)) (String (hex_digit (n mod 16)) "")))))
  else String c "".

Fixpoint quote_chars (s : string) : string :=
  match s with
  | "" => ""
  | String c r => quote_char c ++ quote_chars r
  end.

Definition quote (s : string) : string :=
  String dquote (quote_chars s ++ String dquote "").

(** [Number::toString] on an integer. *)
Definition number_to_string (n : Z) : string :=
  DecimalString.NilZero.string_of_int (Z.to_int n).

(** The line break that separates two tokens when [gap] is not empty: a
    line feed and [n] spaces of indentation; nothing when [gap] is empty. *)
Definition line_break (gap n : nat) : string :=
  if (gap =? 0)%nat then "" else nl ++ spaces n.

(** The bracketed list of [SerializeJSONArray] and [SerializeJSONObject]:
    [gap] is the width of one indentation step, [indent] the width of the
    enclosing indentation ([stepback]). *)
Definition wrap (open close : string) (gap indent : nat)
    (partial : list string) : string :=
  match partial with
  | [] => open ++ close
  | _ =>
      open ++ line_break gap (indent + gap)
           ++ join ("," ++ line_break gap (indent + gap)) partial
           ++ line_break gap indent ++ close
  end.

Definition member (gap : nat) (k : string) (str : string) : string :=
  quote k ++ ":" ++ (if (gap =? 0)%nat then "" else " ") ++ str.

(** [SerializeJSONProperty]: [None] is the result [undefined]. *)
Fixpoint serialize (gap indent : nat) (v : value) : option string :=
  match v with
  | VUndef | VFun _ => None
  | VNull => Some "null"
  | VBool true => Some "true"
  | VBool false => Some "false"
  | VNum n => Some (number_to_string n)
  | VStr s => Some (quote s)
  | VArr items =>
      Some (wrap "[" "]" gap indent
              (map (fun x =>
                      match serialize gap (indent + gap) x with
                      | Some str => str
                      | None => "null"
                      end) items))
  | VObj props =>
      Some (wrap "{" "}" gap indent
              (flat_map (fun kv =>
                           match serialize gap (indent + gap) (snd kv) with
                           | Some str => [member gap (fst kv) str]
                           | None => []
                           end) props))
  end.

(** The text in which every nesting level is indented by [width] spaces
    ([width = 0]: no indentation and no line break). *)
Definition indented (width : nat) (v : value) : option string :=
  serialize width 0 v.

(** [JSON.stringify(value, null, space)] for a numeric [space]: the
    indentation step is capped at ten. *)
Definition stringify (v : value) (space : nat) : option string :=
  indented (Nat.min space 10) v.

(* --------------------------------------------------------------- *)
(** *** [JSON.parse] *)

Definition is_ws (c : ascii) : bool :=
  let n := nat_of_ascii c in
  ((n =? 32) || (n =? 9) || (n =? 10) || (n =? 13))%nat.

Fixpoint skip_ws (s : string) : string :=
  match s with
  | "" => ""
  | String c r => if is_ws c then skip_ws r else s
  end.

Definition is_digit (c : ascii) : bool :=
  let n := nat_of_ascii c in ((48 <=? n) && (n <=? 57))%nat.

Fixpoint span_digits (s : string) : string * string :=
  match s with
  | "" => ("", "")
  | String c r =>
      if is_digit c
      then let (ds, rest) := span_digits r in (String c ds, rest)
      else ("", s)
  end.

(** A fraction or an exponent continues a number token; such numbers are
    not integer-valued and have no counterpart in [value]. *)
Definition continues_number (s : string) : bool :=
  match s with
  | String c _ => ((c =? ".") || (c =? "e") || (c =? "E"))%char
  | "" => false
  end.

Definition parse_digits (s : string) : option (Z * string) :=
  let (ds, rest) := span_digits s in
  match ds with
  | "" => None
  | String d ds' =>
      if ((d =? "0")%char && negb (ds' =? "")) || continues_number rest
      then None
      else
        match DecimalString.NilEmpty.uint_of_string ds with
        | Some u => Some (Z.of_uint u, rest)
        | None => None
        end
  end.

Definition parse_number (s : string) : option (Z * string) :=
  match s with
  | String c r =>
      if (c =? "-")%char
      then match parse_digits r with
           | Some (n, rest) => Some ((- n)%Z, rest)
           | None => None
           end
      else parse_digits s
  | "" => None
  end.

Definition hex_value (c : ascii) : option nat :=
  let n := nat_of_ascii c in
  if ((48 <=? n) && (n <=? 57))%nat then Some (n - 48)
  else if ((97 <=? n) && (n <=? 102))%nat then Some (n - 87)
  else if ((65 <=? n) && (n <=? 70))%nat then Some (n - 55)
  else None.

(** The code point of [\uh1h2h3h4], when it is a single byte of UTF-8. *)
Definition unicode_escape (h1 h2 h3 h4 : ascii) : option ascii :=
  match hex_value h1, hex_value h2, hex_value h3, hex_value h4 with
  | Some a, Some b, Some c, Some d =>
      let n := ((a * 16 + b) * 16 + c) * 16 + d in
      if (n <? 128)%nat then Some (ascii_of_nat n) else None
  | _, _, _, _ => None
  end.

Definition simple_escape (e : ascii) : option ascii :=
  if (e =? dquote)%char then Some dquote
  else if (e =? bslash)%char then Some bslash
  else if (e =? "/")%char then Some "/"%char
  else if (e =? "b")%char then Some "008"%char
  else if (e =? "f")%char then Some "012"%char
  else if (e =? "n")%char then Some "010"%char
  else if (e =? "r")%char then Some "013"%char
  else if (e =? "t")%char then Some "009"%char
  else None.

Definition cons_char (c : ascii) (r : option (string * string))
  : option (string * string) :=
  match r with
  | Some (str, rest) => Some (String c str, rest)
  | None => None
  end.

(** The characters of a string literal after its opening quote, up to and
    including the closing quote. *)
Fixpoint parse_chars (s : string) : option (string * string) :=
  match s with
  | "" => None
  | String c r =>
      if (c =? dquote)%char then Some ("", r)
      else if (c =? bslash)%char then
        match r with
        | "" => None
        | String e r' =>
            if (e =? "u")%char then
              match r' with
              | String h1 (String h2 (String h3 (String h4 r''))) =>
                  match unicode_escape h1 h2 h3 h4 with
                  | Some ch => cons_char ch (parse_chars r'')
                  | None => None
                  end
              | _ => None
              end
            else
              match simple_escape e with
              | Some ch => cons_char ch (parse_chars r')
              | None => None
              end
        end
      else if (nat_of_ascii c <? 32)%nat then None
      else cons_char c (parse_chars r)
  end.

(** What follows the prefix [k] in [s]. *)
Fixpoint strip_prefix (k s : string) : option string :=
  match k, s with
  | "", _ => Some s
  | String a k', String b s' =>
      if (a =? b)%char then strip_prefix k' s' else None
  | String _ _, "" => None
  end.

(** The rest of a literal name, after its first letter. *)
Definition keyword (k : string) (v : value) (s : string)
  : option (value * string) :=
  match strip_prefix k s with
  | Some rest => Some (v, rest)
  | None => None
  end.

(** Properties are defined in the order of the text; a repeated name
    overwrites the earlier value in place. *)
Definition define_all (members : list (string * value))
  : list (string * value) :=
  fold_left (fun acc kv => upsert (fst kv) (snd kv) acc) members [].

(** Recursive descent; [fuel] bounds the depth of the calls.  Every
    function expects its input to start at a token. *)
Fixpoint parse_value (fuel : nat) (s : string) : option (value * string) :=
  match fuel with
  | 0 => None
  | S fuel' =>
      match s with
      | "" => None
      | String c r =>
          if (c =? "n")%char then keyword "ull" VNull r
          else if (c =? "t")%char then keyword "rue" (VBool true) r
          else if (c =? "f")%char then keyword "alse" (VBool false) r
          else if (c =? dquote)%char then
            match parse_chars r with
            | Some (str, rest) => Some (VStr str, rest)
            | None => None
            end
          else if (c =? "[")%char then
            match skip_ws r with
            | String c' r' =>
                if (c' =? "]")%char then Some (VArr [], r')
                else
                  match parse_elements fuel' (String c' r') with
                  | Some (items, rest) => Some (VArr items, rest)
                  | None => None
                  end
            | "" => None
            end
          else if (c =? "{")%char then
            match skip_ws r with
            | String c' r' =>
                if (c' =? "}")%char then Some (VObj [], r')
                else
                  match parse_members fuel' (String c' r') with
                  | Some (members, rest) =>
                      Some (VObj (define_all members), rest)
                  | None => None
                  end
            | "" => None
            end
          else
            match parse_number s with
            | Some (n, rest) => Some (VNum n, rest)
            | None => None
            end
      end
  end

with parse_elements (fuel : nat) (s : string)
  : option (list value * string) :=
  match fuel with
  | 0 => None
  | S fuel' =>
      match parse_value fuel' s with
      | Some (v, r) =>
          match skip_ws r with
          | String c r' =>
              if (c =? ",")%char then
                match parse_elements fuel' (skip_ws r') with
                | Some (items, rest) => Some (v :: items, rest)
                | None => None
                end
              else if (c =? "]")%char then Some ([v], r')
              else None
          | "" => None
          end
      | None => None
      end
  end

with parse_members (fuel : nat) (s : string)
  : option (list (string * value) * string) :=
  match fuel with
  | 0 => None
  | S fuel' =>
      match s with
      | String q r =>
          if (q =? dquote)%char then
            match parse_chars r with
            | Some (k, r1) =>
                match skip_ws r1 with
                | String c r2 =>
                    if (c =? ":")%char then
                      match parse_value fuel' (skip_ws r2) with
                      | Some (v, r3) =>
                          match skip_ws r3 with
                          | String c' r4 =>
                              if (c' =? ",")%char then
                                match parse_members fuel' (skip_ws r4) with
                                | Some (members, rest) =>
                                    Some ((k, v) :: members, rest)
                                | None => None
                                end
                              else if (c' =? "}")%char
                              then Some ([(k, v)], r4)
                              else None
                          | "" => None
                          end
                      | None => None
                      end
                    else None
                | "" => None
                end
            | None => None
            end
          else None
      | "" => None
      end
  end.

(** [JSON.parse(text)]: one value, surrounded by white space only;
    [None] is the [SyntaxError]. *)
Definition parse (text : string) : option value :=
  match parse_value (S (S (String.length text))) (skip_ws text) with
  | Some (v, rest) =>
      match skip_ws rest with
      | "" => Some v
      | _ => None
      end
  | None => None
  end.

(* --------------------------------------------------------------- *)
(** *** Vocabulary of the proofs about JSON texts *)

(** What may follow a value in a text that [serialize] produced. *)
Definition ends_token (rest : string) : bool :=
  match rest with
  | "" => true
  | String c _ => ((c =? ",") || (c =? "]") || (c =? "}") || (c =? "010"))%char
  end.

Definition leading_nonzero (u : Decimal.uint) : Prop :=
  match u with
  | Decimal.Nil | Decimal.D0 _ => False
  | _ => True
  end.

(** The first character of a serialized value starts a token. *)
Definition starts_value (c : ascii) : bool :=
  negb (is_ws c) && negb (c =? "]")%char && negb (c =? "}")%char.

(** The property proved by induction on the value. *)
Definition reads_back (v : value) : Prop :=
  json_representable v = true ->
  forall gap ind str, serialize gap ind v = Some str ->
  forall fuel rest,
    String.length str <= fuel -> ends_token rest = true ->
    parse_value fuel (str ++ rest) = Some (v, rest).

Definition element (gap ind : nat) (x : value) : string :=
  match serialize gap ind x with
  | Some str => str
  | None => "null"
  end.

(** Object members. *)
Definition colon_space (gap : nat) : string :=
  if (gap =? 0)%nat then "" else " ".

Definition member_of (gap ind : nat) (kv : string * value) : string :=
  member gap (fst kv) (element gap ind (snd kv)).

Definition json_props (props : list (string * value)) : bool :=
  nodupb (map fst props)
  && forallb (fun kv => json_representable (snd kv)) props.

End JSON.

(* ================================================================= *)
(** ** Key paths *)

(** [ToString], as [Array.prototype.join] applies it to the elements of an
    array; [undefined] and [null] elements give the empty string.  The source
    text of a function is implementation-defined; the model fixes one. *)
Fixpoint to_string (v : value) : string :=
  match v with
  | VUndef => "undefined"
  | VNull => "null"
  | VBool true => "true"
  | VBool false => "false"
  | VNum n => JSON.number_to_string n
  | VStr s => s
  | VArr items =>
      join ","
        (map (fun x =>
                match x with
                | VUndef | VNull => ""
                | _ => to_string x
                end) items)
  | VObj _ => "[object Object]"
  | VFun _ => "function () {}"
  end.

Definition join_values (sep : string) (items : list value) : string :=
  join sep
    (map (fun x =>
            match x with
            | VUndef | VNull => ""
            | _ => to_string x
            end) items).

(** [flattenKeyPath]. *)
Fixpoint flattenKeyPath (keyPath : value) : value :=
  match keyPath with
  | VArr items => VStr (join_values "." (map flattenKeyPath items))
  | _ => keyPath
  end.

(** [isKeyPath].  The loop returns from inside its body; when the array is
    empty the function ends without a [return], which yields [undefined]. *)
Fixpoint isKeyPath (keyPath : value) : value :=
  match keyPath with
  | VStr _ => VBool true
  | VArr items =>
      (fix loop (l : list value) : value :=
         match l with
         | [] => VUndef
         | x :: rest =>
             if negb (truthy (isKeyPath x)) then VBool false
             else
               match rest with
               | [] => VBool true
               | _ :: _ => loop rest
               end
         end) items
  | _ => VBool false
  end.

(** The key paths of the specification: a string, or a non-empty array of
    key paths. *)
Inductive valid_key_path : value -> Prop :=
| valid_string : forall s, valid_key_path (VStr s)
| valid_array : forall items,
    items <> [] -> Forall valid_key_path items ->
    valid_key_path (VArr items).

(* ================================================================= *)
(** ** The accessor: package [key-path-helpers] *)

Module keyPathHelpers.

(** Modelled from the spec: the package [key-path-helpers] is a dependency
    whose source is not part of the repository; section 4.2 of the
    specification gives its contract.  A path splits on every [.] that no
    backslash precedes, and [\.] stands for a literal dot inside a
    segment. *)
Fixpoint segments (s cur : string) : list string :=
  match s with
  | "" => [cur]
  | String c r =>
      if (c =? JSON.bslash)%char then
        match r with
        | String c' r' =>
            if (c' =? ".")%char then segments r' (cur ++ ".")
            else segments r (cur ++ String c "")
        | "" => [cur ++ String c ""]
        end
      else if (c =? ".")%char then cur :: segments r ""
      else segments r (cur ++ String c "")
  end.

(** Modelled from the spec: only a string denotes a path. *)
Definition splitKeyPath (keyPath : value) : list string :=
  match keyPath with
  | VStr s => segments s ""
  | _ => []
  end.

(** Modelled from the spec: the traversable mappings are the objects. *)
Definition child (v : value) (k : string) : option value :=
  match v with
  | VObj props => lookup k props
  | _ => None
  end.

(** Modelled from the spec: [get] walks the segments and yields
    [undefined] as soon as one does not resolve. *)
Fixpoint get_in (root : value) (keys : list string) : value :=
  match keys with
  | [] => root
  | k :: ks =>
      match child root k with
      | Some v => get_in v ks
      | None => VUndef
      end
  end.

Definition getValueAtKeyPath (obj keyPath : value) : value :=
  get_in obj (splitKeyPath keyPath).

(** Modelled from the spec: [has] is true iff the whole path resolves to a
    defined value. *)
Definition hasKeyPath (obj keyPath : value) : bool :=
  match get_in obj (splitKeyPath keyPath) with
  | VUndef => false
  | _ => true
  end.

(** Modelled from the spec: [set] walks all but the last segment, putting
    an empty mapping wherever the segment does not resolve to one (a value
    that is no mapping is overwritten), then assigns at the last segment. *)
Fixpoint set_props (props : list (string * value)) (keys : list string)
    (val : value) : list (string * value) :=
  match keys with
  | [] => props
  | [k] => upsert k val props
  | k :: ks =>
      upsert k
        (VObj (set_props (match lookup k props with
                          | Some (VObj sub) => sub
                          | _ => []
                          end) ks val))
        props
  end.

(** The store passes its document [obj] and afterwards saves [obj] itself,
    whatever the call returns: the call can only change [obj] in place.  So
    the result is the content of [obj] after the call; what is no object
    stays what it is. *)
Definition setValueAtKeyPath (obj keyPath val : value) : value :=
  match obj with
  | VObj props => VObj (set_props props (splitKeyPath keyPath) val)
  | _ => obj
  end.

(** Modelled from the spec: [delete] walks to the parent of the last
    segment and removes the key there; a segment that does not resolve
    makes it a no-op. *)
Fixpoint delete_in (root : value) (keys : list string) : value :=
  match keys with
  | [] => root
  | [k] =>
      match root with
      | VObj props => VObj (remove k props)
      | _ => root
      end
  | k :: ks =>
      match root with
      | VObj props =>
          match lookup k props with
          | Some v => VObj (upsert k (delete_in v ks) props)
          | None => root
          end
      | _ => root
      end
  end.

(** As for [set], the result is the content of [obj] after the call. *)
Definition deleteValueAtKeyPath (obj keyPath : value) : value :=
  delete_in obj (splitKeyPath keyPath).

End keyPathHelpers.

(* ================================================================= *)
(** ** Errors *)

(** The codes of the system errors; [ENOENT] is the only one the store
    looks at. *)
Inductive failure : Type := EACCES | EPERM | EIO | ENOSPC | EMFILE.

Inductive errno : Type :=
| ENOENT
| Errno (f : failure).

Inductive error : Type :=
| SystemError (code : errno)
| SyntaxError
| CryptoError
| TypeError (msg : string).

(** [err.code === 'ENOENT'] *)
Definition is_ENOENT (e : error) : bool :=
  match e with
  | SystemError ENOENT => true
  | _ => false
  end.

Definition invalid_key_path : error :=
  TypeError "A valid key path must be provided".

Definition not_a_function : error := TypeError "fn is not a function".

(* ================================================================= *)
(** ** The file system *)

(** One store touches two nodes of the file system: its directory
    ([_getSettingsDirPath]) and its file ([_getSettingsFilePath], inside that
    directory). *)
Inductive node : Type := Dir | File.

Inductive disk : Type :=
| NoDir
| EmptyDir
| HasFile (data : string).

Inductive syscall : Type :=
| SysStat (n : node)
| SysMkdirp
| SysRead
| SysWrite.

(** What the host does besides: [fault c] is the error, other than a missing
    node, that [c] fails with; [undefined_payload] is what a write leaves in
    the file when it is handed [undefined] instead of data. *)
Record host : Type := mkHost {
  fault : syscall -> option failure;
  undefined_payload : string
}.

Inductive io_event : Type :=
| IoStat (n : node)
| IoMkdirp
| IoRead
| IoWrite (atomic : bool) (data : option string).

(** The state of the world: the host, the two nodes, and every call made
    to the file system so far, oldest first. *)
Record fsstate : Type := mkFs {
  env : host;
  nodes : disk;
  trace : list io_event
}.

Definition log (ev : io_event) (s : fsstate) : fsstate :=
  mkFs (env s) (nodes s) (trace s ++ [ev])%list.

Definition with_nodes (d : disk) (s : fsstate) : fsstate :=
  mkFs (env s) d (trace s).

Definition payload (h : host) (data : option string) : string :=
  match data with
  | Some bytes => bytes
  | None => undefined_payload h
  end.

(** The payloads of the writes of a trace, oldest first. *)
Fixpoint writes (t : list io_event) : list (option string) :=
  match t with
  | [] => []
  | IoWrite _ data :: t' => data :: writes t'
  | _ :: t' => writes t'
  end.

(** The system calls; the blocking and the callback form of each function
    of [fs], [mkdirp] and [write-file-atomic] share them. *)
Definition sys_stat (n : node) (s : fsstate) : (error + unit) * fsstate :=
  let s' := log (IoStat n) s in
  match fault (env s) (SysStat n) with
  | Some f => (inl (SystemError (Errno f)), s')
  | None =>
      match n, nodes s with
      | Dir, NoDir => (inl (SystemError ENOENT), s')
      | File, NoDir => (inl (SystemError ENOENT), s')
      | File, EmptyDir => (inl (SystemError ENOENT), s')
      | _, _ => (inr tt, s')
      end
  end.

Definition sys_mkdirp (s : fsstate) : (error + unit) * fsstate :=
  let s' := log IoMkdirp s in
  match fault (env s) SysMkdirp with
  | Some f => (inl (SystemError (Errno f)), s')
  | None =>
      match nodes s with
      | NoDir => (inr tt, with_nodes EmptyDir s')
      | _ => (inr tt, s')
      end
  end.

Definition sys_read (s : fsstate) : (error + string) * fsstate :=
  let s' := log IoRead s in
  match fault (env s) SysRead with
  | Some f => (inl (SystemError (Errno f)), s')
  | None =>
      match nodes s with
      | HasFile data => (inr data, s')
      | _ => (inl (SystemError ENOENT), s')
      end
  end.

Definition sys_write (atomic : bool) (data : option string) (s : fsstate)
  : (error + unit) * fsstate :=
  let s' := log (IoWrite atomic data) s in
  match fault (env s) SysWrite with
  | Some f => (inl (SystemError (Errno f)), s')
  | None =>
      match nodes s with
      | NoDir => (inl (SystemError ENOENT), s')
      | _ => (inr tt, with_nodes (HasFile (payload (env s) data)) s')
      end
  end.

(* ================================================================= *)
(** ** Blocking code: state and exceptions *)

Definition M (A : Type) : Type := fsstate -> (error + A) * fsstate.

Definition ret {A : Type} (a : A) : M A := fun s => (inr a, s).

Definition throw {A : Type} (e : error) : M A := fun s => (inl e, s).

Definition bind {A B : Type} (m : M A) (f : A -> M B) : M B :=
  fun s =>
    match m s with
    | (inr a, s') => f a s'
    | (inl e, s') => (inl e, s')
    end.

Definition try_catch {A : Type} (m : M A) (handler : error -> M A) : M A :=
  fun s =>
    match m s with
    | (inr a, s') => (inr a, s')
    | (inl e, s') => handler e s'
    end.

(** A pure computation that may throw. *)
Definition lift {A : Type} (r : error + A) : M A := fun s => (r, s).

Declare Scope monad_scope.
Delimit Scope monad_scope with monad.
Notation "x <- m ;; k" := (bind m (fun x => k))
  (at level 61, m at next level, right associativity) : monad_scope.
Notation "m ;; k" := (bind m (fun _ => k))
  (at level 61, right associativity) : monad_scope.

(* ================================================================= *)
(** ** Callback code: continuations *)

(** How a call of a callback-style function ends: an exception reaches the
    caller ([Threw]); the caller's callback number [k] is invoked with
    [(err, val)] ([Called]); or an exception escapes from a callback that
    the event loop ran and nobody catches it ([Uncaught]). *)
Inductive outcome : Type :=
| Threw (e : error)
| Called (k : nat) (err : option error) (val : value)
| Uncaught (e : error).

Definition task : Type := fsstate -> outcome * fsstate.

(** A callback that receives [(err, val)]. *)
Definition callback : Type := option error -> value -> task.

(** Calling the value [fn]: the caller's callback runs, or [fn] is no
    function and the call throws. *)
Definition callable (fn : value) : callback :=
  fun err val s =>
    match fn with
    | VFun k => (Called k err val, s)
    | _ => (Threw not_a_function, s)
    end.

Definition throw_now (e : error) : task := fun s => (Threw e, s).

(** [try { body } catch (err) { handler(err) }] around a call: only what the
    call throws before it returns is caught. *)
Definition try_call (body : task) (handler : error -> task) : task :=
  fun s =>
    match body s with
    | (Threw e, s') => handler e s'
    | r => r
    end.

(** The event loop runs [t] in a later turn: nobody is left to catch what
    it throws. *)
Definition later (t : task) : task :=
  fun s =>
    match t s with
    | (Threw e, s') => (Uncaught e, s')
    | r => r
    end.

Definition error_of {A : Type} (r : error + A) : option error :=
  match r with
  | inl e => Some e
  | inr _ => None
  end.

Definition fs_stat (n : node) (cb : option error -> task) : task :=
  fun s => let (r, s') := sys_stat n s in later (cb (error_of r)) s'.

Definition mkdirp (cb : option error -> task) : task :=
  fun s => let (r, s') := sys_mkdirp s in later (cb (error_of r)) s'.

Definition fs_readFile (cb : option error -> string -> task) : task :=
  fun s =>
    let (r, s') := sys_read s in
    later (cb (error_of r) (match r with inr data => data | inl _ => "" end))
      s'.

Definition fs_writeFile (atomic : bool) (data : option string)
    (cb : option error -> task) : task :=
  fun s => let (r, s') := sys_write atomic data s in later (cb (error_of r)) s'.

(* ================================================================= *)
(** ** The class [ElectronSettings] *)

(** [this._config]: the options that the code below reads.  The directory
    and the file name only decide where the two nodes of the store are. *)
Record config : Type := mkConfig {
  dir : option string;
  fileName : string;
  atomicSave : bool;
  prettify : bool;
  numSpaces : nat;
  encryptionAlgorithm : string;
  encryptionKey : option string
}.

(** Modelled from the spec: [lib/defaults.js] is not among the sources;
    section 6 of the specification lists the defaults. *)
Definition defaults : config :=
  {| dir := None;
     fileName := "settings.json";
     atomicSave := true;
     prettify := false;
     numSpaces := 2;
     encryptionAlgorithm := "aes-256-cbc";
     encryptionKey := None |}.

(** [if (this._config.encryptionKey)] *)
Definition has_key (cfg : config) : bool :=
  match encryptionKey cfg with
  | Some key => negb (key =? "")
  | None => false
  end.

Definition key_of (cfg : config) : string :=
  match encryptionKey cfg with
  | Some key => key
  | None => ""
  end.

Section Store.

(** [crypto.createCipher(algorithm, key)] and
    [crypto.createDecipher(algorithm, key)], applied to a whole buffer;
    [None] when the call throws. *)
Variable encrypt : string -> string -> string -> option string.
Variable decrypt : string -> string -> string -> option string.

Variable cfg : config.

Definition _encryptData (data : string) : error + string :=
  match encrypt (encryptionAlgorithm cfg) (key_of cfg) data with
  | Some enc => inr enc
  | None => inl CryptoError
  end.

Definition _decryptData (buffer : string) : error + string :=
  match decrypt (encryptionAlgorithm cfg) (key_of cfg) buffer with
  | Some dec => inr dec
  | None => inl CryptoError
  end.

(** [JSON.stringify] yields [undefined] for a value that JSON does not
    represent; [Buffer.from(undefined)] throws. *)
Definition _prepareSettingsData (obj : value) : error + option string :=
  let numSpaces := if prettify cfg then numSpaces cfg else 0 in
  let data := JSON.stringify obj numSpaces in
  if has_key cfg then
    match data with
    | Some text =>
        match _encryptData text with
        | inr enc => inr (Some enc)
        | inl e => inl e
        end
    | None => inl (TypeError "The first argument must be a string")
    end
  else inr data.

Definition _reconstructSettingsData (data : string) : error + value :=
  let decryptedData :=
    if has_key cfg then _decryptData data else inr data in
  match decryptedData with
  | inr text =>
      match JSON.parse text with
      | Some obj => inr obj
      | None => inl SyntaxError
      end
  | inl e => inl e
  end.

(* --------------------------------------------------------------- *)
(** *** The blocking methods *)

Local Open Scope monad_scope.

Definition _ensureSettingsDirSync : M unit :=
  try_catch (sys_stat Dir)
    (fun err => if is_ENOENT err then sys_mkdirp else throw err).

Definition _writeSettingsFileSync (data : option string) : M unit :=
  _ensureSettingsDirSync ;;
  sys_write (atomicSave cfg) data.

Definition _saveSettingsSync (obj : value) : M unit :=
  data <- lift (_prepareSettingsData obj) ;;
  _writeSettingsFileSync data.

Definition _ensureSettingsFileSync : M unit :=
  try_catch (sys_stat File)
    (fun err =>
       if is_ENOENT err then _saveSettingsSync (VObj []) else throw err).

Definition _readSettingsFileSync : M value :=
  data <- sys_read ;;
  lift (_reconstructSettingsData data).

Definition _loadSettingsSync : M value :=
  _ensureSettingsFileSync ;;
  _readSettingsFileSync.

Definition _getValueAtKeyPathSync (keyPath : value) : M value :=
  obj <- _loadSettingsSync ;;
  if truthy keyPath
  then ret (keyPathHelpers.getValueAtKeyPath obj keyPath)
  else ret obj.

Definition _hasKeyPathSync (keyPath : value) : M value :=
  obj <- _loadSettingsSync ;;
  ret (VBool (keyPathHelpers.hasKeyPath obj keyPath)).

Definition _setValueAtKeyPathSync (keyPath val : value) : M value :=
  if truthy keyPath then
    obj <- _loadSettingsSync ;;
    _saveSettingsSync (keyPathHelpers.setValueAtKeyPath obj keyPath val) ;;
    ret VUndef
  else
    _saveSettingsSync val ;;
    ret VUndef.

Definition _deleteValueAtKeyPathSync (keyPath : value) : M value :=
  obj <- _loadSettingsSync ;;
  _saveSettingsSync (keyPathHelpers.deleteValueAtKeyPath obj keyPath) ;;
  ret VUndef.

(** [args.splice(0, 1, flattenKeyPath(args[0]))] and
    [args.splice(0, 0, null)]. *)
Definition splice_flat (args : list value) : list value :=
  flattenKeyPath (arg 0 args) :: tl args.

Definition splice_null (args : list value) : list value := VNull :: args.

Definition getSync (args : list value) : M value :=
  let args :=
    if truthy (isKeyPath (arg 0 args))
    then splice_flat args else splice_null args in
  _getValueAtKeyPathSync (arg 0 args).

Definition hasSync (args : list value) : M value :=
  if truthy (isKeyPath (arg 0 args))
  then _hasKeyPathSync (arg 0 (splice_flat args))
  else throw invalid_key_path.

Definition setSync (args : list value) : M value :=
  let args :=
    if truthy (isKeyPath (arg 0 args))
    then splice_flat args else splice_null args in
  _setValueAtKeyPathSync (arg 0 args) (arg 1 args).

Definition deleteSync (args : list value) : M value :=
  if truthy (isKeyPath (arg 0 args))
  then _deleteValueAtKeyPathSync (arg 0 (splice_flat args))
  else throw invalid_key_path.

Local Close Scope monad_scope.

(* --------------------------------------------------------------- *)
(** *** The callback methods *)

Definition _ensureSettingsDir (fn : option error -> task) : task :=
  fs_stat Dir
    (fun err =>
       match err with
       | Some e => if is_ENOENT e then mkdirp fn else fn (Some e)
       | None => fn None
       end).

Definition _writeSettingsFile (data : option string)
    (fn : option error -> task) : task :=
  _ensureSettingsDir
    (fun err =>
       match err with
       | Some e => fn (Some e)
       | None => fs_writeFile (atomicSave cfg) data fn
       end).

Definition _saveSettings (obj : value) (fn : option error -> task) : task :=
  match _prepareSettingsData obj with
  | inl err => fn (Some err)
  | inr data => _writeSettingsFile data fn
  end.

Definition _ensureSettingsFile (fn : option error -> task) : task :=
  fs_stat File
    (fun err =>
       match err with
       | Some e =>
           if is_ENOENT e then _saveSettings (VObj []) fn else fn (Some e)
       | None => fn None
       end).

(** The [try] block encloses the call of [fn]: what [fn] throws before it
    returns is caught, and [fn] is called again with it. *)
Definition _readSettingsFile (fn : callback) : task :=
  fs_readFile
    (fun err data =>
       match err with
       | Some e => fn (Some e) VUndef
       | None =>
           try_call
             (match _reconstructSettingsData data with
              | inr obj => fn None obj
              | inl e => throw_now e
              end)
             (fun e => fn (Some e) VUndef)
       end).

Definition _loadSettings (fn : callback) : task :=
  _ensureSettingsFile
    (fun err =>
       match err with
       | Some e => fn (Some e) VUndef
       | None => _readSettingsFile fn
       end).

(** A callback that is handed on to a function that calls it with [err]
    alone. *)
Definition err_only (fn : callback) : option error -> task :=
  fun err => fn err VUndef.

Definition _getValueAtKeyPath (keyPath : value) (fn : callback) : task :=
  _loadSettings
    (fun err obj =>
       match err with
       | Some e => fn (Some e) VUndef
       | None =>
           if truthy keyPath
           then fn None (keyPathHelpers.getValueAtKeyPath obj keyPath)
           else fn None obj
       end).

Definition _hasKeyPath (keyPath : value) (fn : callback) : task :=
  _loadSettings
    (fun err obj =>
       match err with
       | Some e => fn (Some e) VUndef
       | None => fn None (VBool (keyPathHelpers.hasKeyPath obj keyPath))
       end).

Definition _setValueAtKeyPath (keyPath val : value) (fn : callback)
  : task :=
  if truthy keyPath then
    _loadSettings
      (fun err obj =>
         match err with
         | Some e => fn (Some e) VUndef
         | None =>
             _saveSettings
               (keyPathHelpers.setValueAtKeyPath obj keyPath val)
               (err_only fn)
         end)
  else _saveSettings val (err_only fn).

Definition _deleteValueAtKeyPath (keyPath : value) (fn : callback) : task :=
  _loadSettings
    (fun err obj =>
       match err with
       | Some e => fn (Some e) VUndef
       | None =>
           _saveSettings
             (keyPathHelpers.deleteValueAtKeyPath obj keyPath)
             (err_only fn)
       end).

Definition get (args : list value) : task :=
  let args :=
    if truthy (isKeyPath (arg 0 args))
    then splice_flat args else splice_null args in
  _getValueAtKeyPath (arg 0 args) (callable (arg 1 args)).

Definition has (args : list value) : task :=
  if truthy (isKeyPath (arg 0 args))
  then
    let args := splice_flat args in
    _hasKeyPath (arg 0 args) (callable (arg 1 args))
  else throw_now invalid_key_path.

Definition set (args : list value) : task :=
  let args :=
    if truthy (isKeyPath (arg 0 args))
    then splice_flat args else splice_null args in
  _setValueAtKeyPath (arg 0 args) (arg 1 args) (callable (arg 2 args)).

Definition delete (args : list value) : task :=
  if truthy (isKeyPath (arg 0 args))
  then
    let args := splice_flat args in
    _deleteValueAtKeyPath (arg 0 args) (callable (arg 1 args))
  else throw_now invalid_key_path.

End Store.

(** A stand-in for the cipher: it seals a text by writing the algorithm and
    the key in front of it, and opens only what starts with both. *)
Module Envelope.

Definition encrypt (algorithm key text : string) : option string :=
  Some (algorithm ++ key ++ text).

Definition decrypt (algorithm key buffer : string) : option string :=
  match JSON.strip_prefix algorithm buffer with
  | Some rest => JSON.strip_prefix key rest
  | None => None
  end.

End Envelope.

(** A store on the stand-in cipher. *)
Definition fresh_host : host :=
  {| fault := fun _ => None; undefined_payload := "" |}.

Definition fresh (d : disk) : fsstate :=
  {| env := fresh_host; nodes := d; trace := [] |}.

(* ================================================================= *)
(** ** Vocabulary of the properties *)

(** Decryption undoes encryption under the same algorithm and key. *)
Definition cipher_law (encrypt decrypt : string -> string -> string -> option string)
  : Prop :=
  forall algorithm key text enc,
    encrypt algorithm key text = Some enc ->
    decrypt algorithm key enc = Some text.

(** No system call fails for a reason other than a missing node. *)
Definition healthy (s : fsstate) : Prop :=
  forall c, fault (env s) c = None.

(** The settings file is not there. *)
Definition missing (d : disk) : bool :=
  match d with
  | HasFile _ => false
  | _ => true
  end.

Definition value_of (r : error + value) : value :=
  match r with
  | inr v => v
  | inl _ => VUndef
  end.

(** The end of a blocking call, handed to the caller's callback [k]: the
    value, or the error that the blocking call throws. *)
Definition deliver (k : nat) (x : (error + value) * fsstate)
  : outcome * fsstate :=
  (Called k (error_of (fst x)) (value_of (fst x)), snd x).

(** A task that throws nothing to its caller. *)
Definition quiet (t : task) : Prop := forall s, later t s = t s.

(** The state after a successful save of [data] on a healthy host. *)
Definition saved (atomic : bool) (data : option string) (s : fsstate)
  : fsstate :=
  mkFs (env s) (HasFile (payload (env s) data))
    (trace s
       ++ IoStat Dir
       :: match nodes s with
          | NoDir => [IoMkdirp]
          | _ => []
          end
       ++ [IoWrite atomic data])%list.

(** What is handed to the file system for the JSON text [text]: the text
    itself or, when a key is configured, its encryption. *)
Definition seal (encrypt : string -> string -> string -> option string)
    (cfg : config) (text : option string) : error + option string :=
  if has_key cfg then
    match text with
    | Some t =>
        match encrypt (encryptionAlgorithm cfg) (key_of cfg) t with
        | Some enc => inr (Some enc)
        | None => inl CryptoError
        end
    | None => inl (TypeError "The first argument must be a string")
    end
  else inr text.

(** From [s] to [s'] nothing was written and the nodes are as they were. *)
Definition untouched (s s' : fsstate) : Prop :=
  nodes s' = nodes s /\ writes (trace s') = writes (trace s).

(** The settings file is there. *)
Definition file_exists (s : fsstate) : Prop :=
  exists data, nodes s = HasFile data.



(** The character [c] occurs in [s]. *)
Fixpoint mentions (c : ascii) (s : string) : bool :=
  match s with
  | "" => false
  | String c' s' => (c' =? c)%char || mentions c s'
  end.

(** Sample data. *)
Definition foo_bar : value := VObj [("foo", VStr "bar")].

Definition pretty (width : nat) : config :=
  {| dir := None;
     fileName := "settings.json";
     atomicSave := true;
     prettify := true;
     numSpaces := width;
     encryptionAlgorithm := "aes-256-cbc";
     encryptionKey := None |}.

Definition secret : config :=
  {| dir := None;
     fileName := "settings.json";
     atomicSave := true;
     prettify := false;
     numSpaces := 2;
     encryptionAlgorithm := "aes-256-cbc";
     encryptionKey := Some "secret" |}.

(* ================================================================= *)
(** ** Where the store keeps its file *)

(** The module [electron], as far as the store asks.  An app answers
    [getPath('userData')].  The main process finds the app as [app]; a
    renderer process finds the app of the main process as [remote.app].  A
    property that is [None] reads [undefined]. *)
Module Electron.

Record application : Type := mkApp { userData : string }.

Record remote_module : Type := mkRemote { remote_app : option application }.

Record module : Type := mkElectron {
  app : option application;
  remote : option remote_module
}.

End Electron.

(** Reading property [p] of [undefined]. *)
Definition cannot_read (p : string) : error :=
  TypeError ("Cannot read property '" ++ p ++ "' of undefined").

Section Paths.

(** [path.join] on two strings. *)
Variable path_join : string -> string -> string.

(** [require('electron')]. *)
Variable electron : Electron.module.

(** [this._config.electron], which the record [config] leaves out, and
    [this._config]. *)
Variable own : option Electron.module.
Variable cfg : config.

Definition _getElectron : Electron.module :=
  match own with
  | Some e => e
  | None => electron
  end.

(** [electron.app || electron.remote.app] *)
Definition _getElectronApp : error + option Electron.application :=
  let electron := _getElectron in
  match Electron.app electron with
  | Some a => inr (Some a)
  | None =>
      match Electron.remote electron with
      | Some r => inr (Electron.remote_app r)
      | None => inl (cannot_read "app")
      end
  end.

Definition _getSettingsDirPath : error + string :=
  let userData :=
    match _getElectronApp with
    | inr (Some a) => inr (Electron.userData a)
    | inr None => inl (cannot_read "getPath")
    | inl e => inl e
    end in
  match dir cfg with
  | Some d => if d =? "" then userData else inr d
  | None => userData
  end.

Definition _getSettingsFilePath : error + string :=
  match _getSettingsDirPath with
  | inr d => inr (path_join d (fileName cfg))
  | inl e => inl e
  end.

Definition file : error + string := _getSettingsFilePath.

End Paths.

(* ================================================================= *)
(** ** Vocabulary of the further properties *)

(** What [JSON.stringify] makes of a value that it serializes: a member
    whose value is [undefined] or a function is left out, an array element
    that is so reads [null]. *)
Fixpoint sanitize (v : value) : value :=
  match v with
  | VArr items =>
      VArr (map (fun x =>
                   match x with
                   | VUndef | VFun _ => VNull
                   | _ => sanitize x
                   end) items)
  | VObj props =>
      VObj (flat_map (fun kv =>
                        match snd kv with
                        | VUndef | VFun _ => []
                        | _ => [(fst kv, sanitize (snd kv))]
                        end) props)
  | _ => v
  end.

(** Every object inside [v] has pairwise distinct property names, as every
    JavaScript object has. *)
Fixpoint distinct_keys (v : value) : bool :=
  match v with
  | VArr items => forallb distinct_keys items
  | VObj props =>
      nodupb (map fst props)
      && forallb (fun kv => distinct_keys (snd kv)) props
  | _ => true
  end.

(** [x] is no function. *)
Definition no_function (x : value) : Prop := forall k, x <> VFun k.

(** A write of the store: through the configured writer, and of the
    encoding of some document. *)
Definition store_write
    (encrypt : string -> string -> string -> option string) (cfg : config)
    (ev : io_event) : Prop :=
  match ev with
  | IoWrite atomic data =>
      atomic = atomicSave cfg
      /\ exists obj, _prepareSettingsData encrypt cfg obj = inr data
  | _ => True
  end.

(** A write that hands over the JSON text of some document, sealed under
    the configured algorithm and key. *)
Definition sealed_write
    (encrypt : string -> string -> string -> option string) (cfg : config)
    (ev : io_event) : Prop :=
  match ev with
  | IoWrite _ data =>
      exists obj text enc,
        JSON.stringify obj (if prettify cfg then numSpaces cfg else 0)
        = Some text
        /\ encrypt (encryptionAlgorithm cfg) (key_of cfg) text = Some enc
        /\ data = Some enc
  | _ => True
  end.

(** From any state, [m] only appends calls to the trace, each of which
    satisfies [P], and leaves the host as it is. *)
Definition only_calls {R : Type} (P : io_event -> Prop)
    (m : fsstate -> R * fsstate) : Prop :=
  forall s,
    env (snd (m s)) = env s
    /\ exists evs,
        trace (snd (m s)) = (trace s ++ evs)%list /\ Forall P evs.

(** The system call behind an entry of the trace. *)
Definition call_of (ev : io_event) : syscall :=
  match ev with
  | IoStat n => SysStat n
  | IoMkdirp => SysMkdirp
  | IoRead => SysRead
  | IoWrite _ _ => SysWrite
  end.

(** When [m] returns, none of the calls it made was one that the host
    fails. *)
Definition surfaces {A : Type} (m : M A) : Prop :=
  forall s,
    env (snd (m s)) = env s
    /\ exists evs,
        trace (snd (m s)) = (trace s ++ evs)%list
        /\ (forall a,
               fst (m s) = inr a ->
               Forall (fun ev => fault (env s) (call_of ev) = None) evs).

(** The calls of a save, in the order in which it makes them: [stat] on the
    directory, [mkdirp], the write.  A save stops at the call that fails,
    and makes no call when the encoding throws. *)
Definition save_calls : list (list syscall) :=
  [ [];
    [SysStat Dir];
    [SysStat Dir; SysMkdirp];
    [SysStat Dir; SysWrite];
    [SysStat Dir; SysMkdirp; SysWrite] ].

(** The calls of a load: [stat] on the file, then the read or, when the
    file is missing, the save of the empty object and then the read. *)
Definition load_calls : list (list syscall) :=
  [ [SysStat File];
    [SysStat File; SysRead];
    [SysStat File; SysStat Dir];
    [SysStat File; SysStat Dir; SysMkdirp];
    [SysStat File; SysStat Dir; SysWrite];
    [SysStat File; SysStat Dir; SysMkdirp; SysWrite];
    [SysStat File; SysStat Dir; SysWrite; SysRead];
    [SysStat File; SysStat Dir; SysMkdirp; SysWrite; SysRead] ].

(** The calls of a load that returns: it has ended with the read. *)
Definition loaded_calls : list (list syscall) :=
  [ [SysStat File; SysRead];
    [SysStat File; SysStat Dir; SysWrite; SysRead];
    [SysStat File; SysStat Dir; SysMkdirp; SysWrite; SysRead] ].

(** From any state, the calls that [m] appends to the trace are, in order,
    one of the sequences [shapes]. *)
Definition follows {R : Type} (shapes : list (list syscall))
    (m : fsstate -> R * fsstate) : Prop :=
  forall s,
    exists evs,
      trace (snd (m s)) = (trace s ++ evs)%list
      /\ In (map call_of evs) shapes.

(** The sequences [l1 ++ l2] with [l1] in [first] and [l2] in [second]. *)
Definition one_after_another (first second : list (list syscall))
  : list (list syscall) :=
  flat_map (fun l1 => map (fun l2 => l1 ++ l2)%list second) first.

(** The calls of a method that loads the document, changes it and saves it:
    those of a load that fails, or those of a load that returns and then
    those of a save. *)
Definition update_calls : list (list syscall) :=
  (load_calls ++ one_after_another loaded_calls save_calls)%list.

(* ================================================================= *)
(** ** Sample data *)

(** A configuration whose key is the empty string, and a cipher that always
    throws. *)
Definition keyless : config :=
  {| dir := None;
     fileName := "settings.json";
     atomicSave := false;
     prettify := false;
     numSpaces := 2;
     encryptionAlgorithm := "aes-256-cbc";
     encryptionKey := Some "" |}.

Definition broken_cipher (algorithm key text : string) : option string :=
  None.

(** A host on which [stat] on the directory of the store is refused. *)
Definition locked_host : host :=
  {| fault := fun c =>
                match c with
                | SysStat Dir => Some EACCES
                | _ => None
                end;
     undefined_payload := "" |}.

(** A document with parts that JSON does not represent. *)
Definition leaky : value :=
  VObj [("a", VUndef); ("b", VArr [VFun 0; VNum 1])].

(** The module [electron] outside of Electron, where it has neither [app]
    nor [remote], and in a renderer process; a configuration with a
    directory of its own. *)
Definition no_electron : Electron.module :=
  {| Electron.app := None; Electron.remote := None |}.

Definition renderer (userData : string) : Electron.module :=
  {| Electron.app := None;
     Electron.remote :=
       Some {| Electron.remote_app :=
                 Some {| Electron.userData := userData |} |} |}.

Definition in_directory (d : string) : config :=
  {| dir := Some d;
     fileName := "settings.json";
     atomicSave := true;
     prettify := false;
     numSpaces := 2;
     encryptionAlgorithm := "aes-256-cbc";
     encryptionKey := None |}.

(** A callback that throws when it is handed a result, and passes an error
    on to the caller's callback [k]. *)
Definition picky (k : nat) : callback :=
  fun err val =>
    match err with
    | Some e => callable (VFun k) (Some e) VUndef
    | None => throw_now (TypeError "unexpected")
    end.
(* ================================================================= *)
(** * Properties *)

(** ** [JSON.parse] after [JSON.stringify] *)

Module JSONFacts.
Import JSON.

Lemma length_append (a b : string) :
  String.length (a ++ b) = String.length a + String.length b.
Proof. induction a as [|c a IH]; simpl; [reflexivity | now rewrite IH]. Qed.

Lemma append_assoc (a b c : string) : (a ++ b) ++ c = a ++ (b ++ c).
Proof. induction a as [|x a IH]; simpl; [reflexivity | now rewrite IH]. Qed.

(** A string literal reads back. *)
Lemma parse_quote_char (c : ascii) (tail : string) :
  parse_chars (quote_char c ++ tail) = cons_char c (parse_chars tail).
Proof.
  destruct c as [[] [] [] [] [] [] [] []]; reflexivity.
Qed.

Lemma parse_quote_chars (s rest : string) :
  parse_chars (quote_chars s ++ String dquote rest) = Some (s, rest).
Proof.
  induction s as [|c s IH]; simpl.
  - reflexivity.
  - now rewrite append_assoc, parse_quote_char, IH.
Qed.

Lemma ends_token_not_digit c rest :
  ends_token (String c rest) = true -> is_digit c = false.
Proof.
  destruct c as [[] [] [] [] [] [] [] []]; vm_compute; congruence.
Qed.

Lemma ends_token_not_number rest :
  ends_token rest = true -> continues_number rest = false.
Proof.
  destruct rest as [|c rest]; [reflexivity|].
  destruct c as [[] [] [] [] [] [] [] []]; vm_compute; congruence.
Qed.

Lemma span_digits_stop rest :
  ends_token rest = true -> span_digits rest = ("", rest).
Proof.
  destruct rest as [|c rest]; [reflexivity|].
  intros H. simpl. now rewrite (ends_token_not_digit _ _ H).
Qed.

Lemma span_digits_uint (u : Decimal.uint) (rest : string) :
  ends_token rest = true ->
  span_digits (DecimalString.NilEmpty.string_of_uint u ++ rest)
  = (DecimalString.NilEmpty.string_of_uint u, rest).
Proof.
  intros H. induction u; simpl; try (rewrite IHu; reflexivity).
  now apply span_digits_stop.
Qed.

Lemma to_uint_unorm (p : positive) :
  Decimal.unorm (Pos.to_uint p) = Pos.to_uint p.
Proof.
  rewrite <- DecimalPos.Unsigned.to_of, DecimalPos.Unsigned.of_to.
  reflexivity.
Qed.

Lemma to_uint_leading (p : positive) : leading_nonzero (Pos.to_uint p).
Proof.
  pose proof (to_uint_unorm p) as Hn.
  pose proof (DecimalPos.Unsigned.to_uint_nonzero p) as Hz.
  unfold Decimal.unorm in Hn.
  destruct (Decimal.nzhead (Pos.to_uint p)) eqn:E.
  - congruence.
  - exfalso. exact (DecimalFacts.nzhead_nonzero _ _ E).
  - rewrite <- Hn; exact I.
  - rewrite <- Hn; exact I.
  - rewrite <- Hn; exact I.
  - rewrite <- Hn; exact I.
  - rewrite <- Hn; exact I.
  - rewrite <- Hn; exact I.
  - rewrite <- Hn; exact I.
  - rewrite <- Hn; exact I.
  - rewrite <- Hn; exact I.
Qed.

Lemma parse_digits_uint (u : Decimal.uint) (rest : string) :
  leading_nonzero u -> ends_token rest = true ->
  parse_digits (DecimalString.NilEmpty.string_of_uint u ++ rest) = Some (Z.of_uint u, rest).
Proof.
  intros Hu Hr. unfold parse_digits.
  rewrite (span_digits_uint u rest Hr).
  rewrite (ends_token_not_number rest Hr).
  rewrite DecimalString.NilEmpty.usu.
  destruct u; try contradiction; reflexivity.
Qed.

Lemma parse_digits_zero (rest : string) :
  ends_token rest = true ->
  parse_digits (String "0" rest) = Some (0%Z, rest).
Proof.
  intros Hr. unfold parse_digits. simpl.
  rewrite (span_digits_stop rest Hr), (ends_token_not_number rest Hr).
  reflexivity.
Qed.

Lemma of_to_uint (p : positive) : Z.of_uint (Pos.to_uint p) = Zpos p.
Proof.
  unfold Z.of_uint. now rewrite DecimalPos.Unsigned.of_to.
Qed.

Lemma string_of_uint_head (u : Decimal.uint) :
  leading_nonzero u ->
  exists c r, DecimalString.NilEmpty.string_of_uint u = String c r
              /\ is_digit c = true /\ (c =? "-")%char = false.
Proof.
  destruct u; simpl; try contradiction; intros _;
    eexists _, _; repeat split.
Qed.

Lemma parse_number_to_string (n : Z) (rest : string) :
  ends_token rest = true ->
  parse_number (number_to_string n ++ rest) = Some (n, rest).
Proof.
  intros Hr. unfold number_to_string. destruct n as [|p|p]; simpl.
  - now apply parse_digits_zero.
  - pose proof (to_uint_leading p) as Hl.
    destruct (string_of_uint_head _ Hl) as (c & r & E & _ & Hm).
    assert (DecimalString.NilZero.string_of_uint (Pos.to_uint p)
            = DecimalString.NilEmpty.string_of_uint (Pos.to_uint p)) as ->
        by (destruct (Pos.to_uint p); try contradiction; reflexivity).
    pose proof (parse_digits_uint _ rest Hl Hr) as Hd.
    rewrite E in *. change (String c r ++ rest) with (String c (r ++ rest)) in *.
    unfold parse_number. rewrite Hm, Hd. now rewrite of_to_uint.
  - pose proof (to_uint_leading p) as Hl.
    assert (DecimalString.NilZero.string_of_uint (Pos.to_uint p)
            = DecimalString.NilEmpty.string_of_uint (Pos.to_uint p)) as ->
        by (destruct (Pos.to_uint p); try contradiction; reflexivity).
    rewrite (parse_digits_uint _ rest Hl Hr). now rewrite of_to_uint.
Qed.

(** A number token starts with a digit or a minus sign. *)
Lemma number_to_string_head (n : Z) :
  exists c r, number_to_string n = String c r
              /\ (is_digit c = true \/ c = "-"%char).
Proof.
  unfold number_to_string. destruct n as [|p|p]; simpl.
  - eexists _, _; split; [reflexivity | now left].
  - pose proof (to_uint_leading p) as Hl.
    destruct (string_of_uint_head _ Hl) as (c & r & E & Hd & _).
    exists c, r. split; [|now left].
    destruct (Pos.to_uint p); try contradiction; exact E.
  - eexists _, _; split; [reflexivity | now right].
Qed.

(** White space. *)
Lemma skip_ws_spaces (n : nat) (s : string) :
  skip_ws (spaces n ++ s) = skip_ws s.
Proof. induction n as [|n IH]; simpl; [reflexivity | exact IH]. Qed.

Lemma skip_ws_line_break (gap n : nat) (s : string) :
  skip_ws (line_break gap n ++ s) = skip_ws s.
Proof.
  unfold line_break. destruct (gap =? 0)%nat; [reflexivity|].
  unfold nl. simpl. apply skip_ws_spaces.
Qed.

Lemma ends_token_line_break (gap n : nat) (s : string) :
  ends_token s = true -> ends_token (line_break gap n ++ s) = true.
Proof.
  unfold line_break. destruct (gap =? 0)%nat; [trivial | reflexivity].
Qed.

Lemma skip_ws_value (c : ascii) (s : string) :
  starts_value c = true -> skip_ws (String c s) = String c s.
Proof.
  unfold starts_value. simpl. destruct (is_ws c); simpl; congruence.
Qed.

Lemma digit_starts_value (c : ascii) :
  is_digit c = true \/ c = "-"%char -> starts_value c = true.
Proof.
  destruct c as [[] [] [] [] [] [] [] []]; vm_compute;
    intros [H|H]; congruence.
Qed.

Lemma serialize_some (gap ind : nat) (v : value) :
  json_representable v = true -> exists str, serialize gap ind v = Some str.
Proof.
  destruct v as [| |[]| | | | |]; simpl; try discriminate; eauto.
Qed.

Lemma serialize_head (gap ind : nat) (v : value) (str : string) :
  serialize gap ind v = Some str ->
  exists c r, str = String c r /\ starts_value c = true.
Proof.
  destruct v as [| |[]| | |items|props|]; simpl; intros [= <-];
    try (eexists _, _; split; reflexivity).
  - destruct (number_to_string_head n) as (c & r & -> & H).
    exists c, r. split; [reflexivity | now apply digit_starts_value].
  - unfold wrap. destruct (map _ items); eexists _, _; split; reflexivity.
  - unfold wrap. destruct (flat_map _ props);
      eexists _, _; split; reflexivity.
Qed.

(** The defining equations of the parser, by leading token. *)
Lemma parse_value_array (f : nat) (r : string) :
  parse_value (S f) (String "[" r)
  = match skip_ws r with
    | String c' r' =>
        if (c' =? "]")%char then Some (VArr [], r')
        else match parse_elements f (String c' r') with
             | Some (items, rest) => Some (VArr items, rest)
             | None => None
             end
    | "" => None
    end.
Proof. reflexivity. Qed.

Lemma parse_value_object (f : nat) (r : string) :
  parse_value (S f) (String "{" r)
  = match skip_ws r with
    | String c' r' =>
        if (c' =? "}")%char then Some (VObj [], r')
        else match parse_members f (String c' r') with
             | Some (members, rest) => Some (VObj (define_all members), rest)
             | None => None
             end
    | "" => None
    end.
Proof. reflexivity. Qed.

Lemma parse_value_string (f : nat) (r : string) :
  parse_value (S f) (String dquote r)
  = match parse_chars r with
    | Some (str, rest) => Some (VStr str, rest)
    | None => None
    end.
Proof. reflexivity. Qed.

Lemma parse_value_number (f : nat) (c : ascii) (r : string) :
  is_digit c = true \/ c = "-"%char ->
  parse_value (S f) (String c r)
  = match parse_number (String c r) with
    | Some (n, rest) => Some (VNum n, rest)
    | None => None
    end.
Proof.
  destruct c as [[] [] [] [] [] [] [] []];
    intros [H|H]; try discriminate H; reflexivity.
Qed.

Lemma parse_elements_eq (f : nat) (s : string) :
  parse_elements (S f) s
  = match parse_value f s with
    | Some (v, r) =>
        match skip_ws r with
        | String c r' =>
            if (c =? ",")%char then
              match parse_elements f (skip_ws r') with
              | Some (items, rest) => Some (v :: items, rest)
              | None => None
              end
            else if (c =? "]")%char then Some ([v], r')
            else None
        | "" => None
        end
    | None => None
    end.
Proof. reflexivity. Qed.

Lemma parse_members_eq (f : nat) (r : string) :
  parse_members (S f) (String dquote r)
  = match parse_chars r with
    | Some (k, r1) =>
        match skip_ws r1 with
        | String c r2 =>
            if (c =? ":")%char then
              match parse_value f (skip_ws r2) with
              | Some (v, r3) =>
                  match skip_ws r3 with
                  | String c' r4 =>
                      if (c' =? ",")%char then
                        match parse_members f (skip_ws r4) with
                        | Some (members, rest) =>
                            Some ((k, v) :: members, rest)
                        | None => None
                        end
                      else if (c' =? "}")%char then Some ([(k, v)], r4)
                      else None
                  | "" => None
                  end
              | None => None
              end
            else None
        | "" => None
        end
    | None => None
    end.
Proof. reflexivity. Qed.

Lemma join_cons2 (sep x y : string) (l : list string) :
  join sep (x :: y :: l) = x ++ sep ++ join sep (y :: l).
Proof. reflexivity. Qed.

Lemma element_head gap ind x (l : list value) sep tail :
  json_representable x = true ->
  exists c r,
    join sep (map (element gap ind) (x :: l)) ++ tail = String c r
    /\ starts_value c = true.
Proof.
  intros Hx. destruct (serialize_some gap ind x Hx) as [sx Hsx].
  destruct (serialize_head _ _ _ _ Hsx) as (c & r & -> & Hc).
  unfold element at 1. simpl map. rewrite Hsx.
  destruct l as [|y l]; simpl; eexists _, _; split; eauto.
Qed.

Lemma parse_elements_more f s v r :
  parse_value f s = Some (v, String "," r) ->
  parse_elements (S f) s
  = match parse_elements f (skip_ws r) with
    | Some (items, rest) => Some (v :: items, rest)
    | None => None
    end.
Proof. intros H. rewrite parse_elements_eq, H. reflexivity. Qed.

Lemma parse_elements_last f s v w r :
  parse_value f s = Some (v, w) -> skip_ws w = String "]" r ->
  parse_elements (S f) s = Some ([v], r).
Proof. intros H Hw. rewrite parse_elements_eq, H, Hw. reflexivity. Qed.

Lemma skip_ws_close (gap n : nat) (c : ascii) (rest : string) :
  is_ws c = false ->
  skip_ws (line_break gap n ++ String c rest) = String c rest.
Proof.
  intros H. rewrite skip_ws_line_break. simpl. now rewrite H.
Qed.

Lemma parse_elements_join (gap ind ind0 : nat) (items : list value) :
  Forall reads_back items ->
  forallb json_representable items = true ->
  items <> [] ->
  forall fuel rest,
    1 + String.length (join ("," ++ line_break gap ind)
                         (map (element gap ind) items)) <= fuel ->
    parse_elements fuel
      (join ("," ++ line_break gap ind) (map (element gap ind) items)
         ++ line_break gap ind0 ++ String "]" rest)
    = Some (items, rest).
Proof.
  induction 1 as [|x l Hx Hl IH]; [congruence|].
  intros Hj _ fuel rest Hfuel.
  simpl in Hj. apply andb_true_iff in Hj as [Hjx Hjl].
  destruct (serialize_some gap ind x Hjx) as [sx Hsx].
  destruct fuel as [|f]; [simpl in Hfuel; lia|].
  assert (Ex : element gap ind x = sx) by (unfold element; now rewrite Hsx).
  destruct l as [|y l].
  - simpl map in *. rewrite Ex in *. simpl join in *.
    eapply parse_elements_last.
    + apply (Hx Hjx gap ind sx Hsx f); [lia |].
      now apply ends_token_line_break.
    + now apply skip_ws_close.
  - assert (Hjy : json_representable y = true)
      by (simpl in Hjl; apply andb_true_iff in Hjl; tauto).
    destruct (element_head gap ind y l ("," ++ line_break gap ind)
                (line_break gap ind0 ++ String "]" rest) Hjy)
      as (c & r & E & Hc).
    specialize (IH Hjl ltac:(discriminate) f rest).
    change (map (element gap ind) (x :: y :: l))
      with (element gap ind x :: element gap ind y
              :: map (element gap ind) l) in *.
    change (map (element gap ind) (y :: l))
      with (element gap ind y :: map (element gap ind) l) in *.
    rewrite join_cons2 in *. rewrite Ex in *.
    rewrite !length_append in Hfuel.
    change (String.length ",") with 1 in Hfuel.
    rewrite !append_assoc.
    erewrite parse_elements_more.
    2:{ apply (Hx Hjx gap ind sx Hsx f); [lia | reflexivity]. }
    rewrite skip_ws_line_break, E, (skip_ws_value _ _ Hc), <- E.
    rewrite IH; [reflexivity | lia].
Qed.

Lemma flat_map_members (gap ind : nat) (props : list (string * value)) :
  forallb (fun kv => json_representable (snd kv)) props = true ->
  flat_map (fun kv =>
              match serialize gap ind (snd kv) with
              | Some str => [member gap (fst kv) str]
              | None => []
              end) props
  = map (member_of gap ind) props.
Proof.
  induction props as [|kv props IH]; simpl; [reflexivity|].
  intros H. apply andb_true_iff in H as [Hkv Hp].
  rewrite (IH Hp). unfold member_of, element.
  destruct (serialize_some gap ind (snd kv) Hkv) as [str ->].
  reflexivity.
Qed.

Lemma member_shape (gap : nat) (k str tail : string) :
  member gap k str ++ tail
  = String dquote
      (quote_chars k
         ++ String dquote (String ":" (colon_space gap ++ str ++ tail))).
Proof.
  unfold member, quote, colon_space. simpl.
  rewrite !append_assoc. simpl. now rewrite !append_assoc.
Qed.

Lemma length_member (gap : nat) (k str : string) :
  String.length str + 3 <= String.length (member gap k str).
Proof.
  unfold member, quote. simpl. rewrite !length_append. simpl.
  rewrite length_append. lia.
Qed.

Lemma skip_ws_colon_space (gap : nat) (s : string) :
  skip_ws (colon_space gap ++ s) = skip_ws s.
Proof. unfold colon_space. now destruct (gap =? 0)%nat. Qed.

Lemma parse_members_more f r k r2 v r4 :
  parse_chars r = Some (k, String ":" r2) ->
  parse_value f (skip_ws r2) = Some (v, String "," r4) ->
  parse_members (S f) (String dquote r)
  = match parse_members f (skip_ws r4) with
    | Some (members, rest) => Some ((k, v) :: members, rest)
    | None => None
    end.
Proof. intros H1 H2. rewrite parse_members_eq, H1. simpl. now rewrite H2. Qed.

Lemma parse_members_last f r k r2 v w r4 :
  parse_chars r = Some (k, String ":" r2) ->
  parse_value f (skip_ws r2) = Some (v, w) ->
  skip_ws w = String "}" r4 ->
  parse_members (S f) (String dquote r) = Some ([(k, v)], r4).
Proof.
  intros H1 H2 H3. rewrite parse_members_eq, H1. simpl.
  now rewrite H2, H3.
Qed.

Lemma skip_ws_serialized gap ind v str tail :
  serialize gap ind v = Some str -> skip_ws (str ++ tail) = str ++ tail.
Proof.
  intros H. destruct (serialize_head _ _ _ _ H) as (c & r & -> & Hc).
  now apply skip_ws_value.
Qed.

Lemma parse_members_join (gap ind ind0 : nat)
    (props : list (string * value)) :
  Forall (fun kv => reads_back (snd kv)) props ->
  forallb (fun kv => json_representable (snd kv)) props = true ->
  props <> [] ->
  forall fuel rest,
    1 + String.length (join ("," ++ line_break gap ind)
                         (map (member_of gap ind) props)) <= fuel ->
    parse_members fuel
      (join ("," ++ line_break gap ind) (map (member_of gap ind) props)
         ++ line_break gap ind0 ++ String "}" rest)
    = Some (props, rest).
Proof.
  induction 1 as [|[k x] l Hx Hl IH]; [congruence|].
  intros Hj _ fuel rest Hfuel. simpl in Hx.
  simpl in Hj. apply andb_true_iff in Hj as [Hjx Hjl].
  destruct (serialize_some gap ind x Hjx) as [sx Hsx].
  destruct fuel as [|f]; [simpl in Hfuel; lia|].
  assert (Ex : member_of gap ind (k, x) = member gap k sx)
    by (unfold member_of, element; simpl; now rewrite Hsx).
  pose proof (length_member gap k sx) as Hlen.
  destruct l as [|[k' y] l].
  - simpl map in *. rewrite Ex in *. simpl join in *.
    rewrite member_shape.
    eapply parse_members_last.
    + apply parse_quote_chars.
    + rewrite skip_ws_colon_space, (skip_ws_serialized _ _ _ _ _ Hsx).
      apply (Hx Hjx gap ind sx Hsx f); [lia |].
      now apply ends_token_line_break.
    + now apply skip_ws_close.
  - specialize (IH Hjl ltac:(discriminate) f rest).
    change (map (member_of gap ind) ((k, x) :: (k', y) :: l))
      with (member_of gap ind (k, x) :: member_of gap ind (k', y)
              :: map (member_of gap ind) l) in *.
    change (map (member_of gap ind) ((k', y) :: l))
      with (member_of gap ind (k', y) :: map (member_of gap ind) l) in *.
    rewrite join_cons2 in *. rewrite Ex in *.
    rewrite !length_append in Hfuel.
    change (String.length ",") with 1 in Hfuel.
    rewrite !append_assoc. rewrite member_shape.
    erewrite parse_members_more.
    2:{ apply parse_quote_chars. }
    2:{ rewrite skip_ws_colon_space, (skip_ws_serialized _ _ _ _ _ Hsx).
        apply (Hx Hjx gap ind sx Hsx f); [lia | reflexivity]. }
    rewrite skip_ws_line_break.
    assert (Hs : forall t, skip_ws (join ("," ++ line_break gap ind)
                   (member_of gap ind (k', y) :: map (member_of gap ind) l)
                   ++ t)
                 = join ("," ++ line_break gap ind)
                   (member_of gap ind (k', y) :: map (member_of gap ind) l)
                   ++ t).
    { intros t. unfold member_of at 1 3, member, quote.
      destruct (map (member_of gap ind) l); reflexivity. }
    rewrite Hs, IH; [reflexivity | lia].
Qed.

(** Defining the properties of a parsed object keeps distinct names. *)
Lemma existsb_app_false (k : string) (a b : list string) :
  existsb (String.eqb k) (a ++ b)%list = false ->
  existsb (String.eqb k) a = false /\ existsb (String.eqb k) b = false.
Proof. rewrite existsb_app. apply orb_false_iff. Qed.

Lemma nodupb_middle (a : list string) (k : string) (b : list string) :
  nodupb (a ++ k :: b)%list = true -> existsb (String.eqb k) a = false.
Proof.
  induction a as [|x a IH]; simpl; [reflexivity|].
  intros H. apply andb_true_iff in H as [Hx Ha].
  apply negb_true_iff in Hx. apply existsb_app_false in Hx as [_ Hx].
  simpl in Hx. apply orb_false_iff in Hx as [Hx _].
  rewrite String.eqb_sym, Hx. simpl. now apply IH.
Qed.

Lemma upsert_fresh (k : string) (v : value) (acc : list (string * value)) :
  existsb (String.eqb k) (map fst acc) = false ->
  upsert k v acc = (acc ++ [(k, v)])%list.
Proof.
  induction acc as [|[k' v'] acc IH]; simpl; [reflexivity|].
  intros H. apply orb_false_iff in H as [Hk Ha].
  rewrite String.eqb_sym, Hk. now rewrite IH.
Qed.

Lemma define_all_acc (l acc : list (string * value)) :
  nodupb (map fst acc ++ map fst l)%list = true ->
  fold_left (fun a kv => upsert (fst kv) (snd kv) a) l acc = (acc ++ l)%list.
Proof.
  revert acc. induction l as [|[k v] l IH]; intros acc H; simpl.
  - now rewrite app_nil_r.
  - simpl in H. rewrite (upsert_fresh k v acc (nodupb_middle _ _ _ H)).
    rewrite IH.
    + now rewrite <- app_assoc.
    + rewrite map_app. simpl. now rewrite <- app_assoc.
Qed.

Lemma define_all_nodup (props : list (string * value)) :
  nodupb (map fst props) = true -> define_all props = props.
Proof. intros H. unfold define_all. now rewrite define_all_acc. Qed.

(** [JSON.parse] reads back what [JSON.stringify] wrote. *)
Lemma parse_serialize (v : value) : reads_back v.
Proof.
  induction v as [| |b|n|s|items IH|props IH|k] using value_rect';
    unfold reads_back; intros Hj gap ind str Hs fuel rest Hfuel Hrest;
    simpl in Hj; try discriminate Hj; try destruct b; simpl in Hs;
    injection Hs as <-;
    (destruct fuel as [|f]; [exfalso|]); try reflexivity;
    try (simpl in Hfuel; lia).
  - destruct (number_to_string_head n) as (c & r & E & Hc).
    rewrite E in *. simpl in Hfuel; lia.
  - destruct (number_to_string_head n) as (c & r & E & Hc).
    pose proof (parse_number_to_string n rest Hrest) as Hp.
    rewrite E in *. change (String c r ++ rest) with (String c (r ++ rest)) in *.
    rewrite (parse_value_number _ _ _ Hc), Hp. reflexivity.
  - unfold quote. change (String dquote ?a ++ rest) with (String dquote (a ++ rest)).
    rewrite parse_value_string, append_assoc. simpl.
    now rewrite parse_quote_chars.
  - unfold wrap in Hfuel. destruct (map _ items); simpl in Hfuel; lia.
  - fold (element gap (ind + gap)) in *.
    destruct items as [|x l]; [reflexivity|].
    unfold wrap in *.
    change (map (element gap (ind + gap)) (x :: l))
      with (element gap (ind + gap) x :: map (element gap (ind + gap)) l) in *.
    cbv iota in *.
    change (element gap (ind + gap) x :: map (element gap (ind + gap)) l)
      with (map (element gap (ind + gap)) (x :: l)) in *.
    rewrite !length_append in Hfuel. change (String.length "[") with 1 in Hfuel.
    change (String.length "]") with 1 in Hfuel.
    rewrite !append_assoc.
    change ("[" ++ ?a) with (String "[" a).
    rewrite parse_value_array, skip_ws_line_break.
    assert (Hjx : json_representable x = true)
      by (simpl in Hj; apply andb_true_iff in Hj; tauto).
    destruct (element_head gap (ind + gap) x l ("," ++ line_break gap (ind + gap))
                (line_break gap ind ++ "]" ++ rest) Hjx) as (c & r & E & Hc).
    rewrite E, (skip_ws_value _ _ Hc).
    assert ((c =? "]")%char = false) as ->.
    { unfold starts_value in Hc.
      destruct (c =? "]")%char; [|reflexivity].
      rewrite andb_false_r in Hc. discriminate. }
    rewrite <- E.
    change ("]" ++ rest) with (String "]" rest).
    rewrite parse_elements_join; [reflexivity | exact IH | exact Hj | discriminate | lia].
  - unfold wrap in Hfuel. destruct (flat_map _ props); simpl in Hfuel; lia.
  - apply andb_true_iff in Hj as [Hnd Hj].
    rewrite (flat_map_members _ _ _ Hj) in *.
    destruct props as [|[k x] l]; [reflexivity|].
    unfold wrap in *.
    change (map (member_of gap (ind + gap)) ((k, x) :: l))
      with (member_of gap (ind + gap) (k, x)
              :: map (member_of gap (ind + gap)) l) in *.
    cbv iota in *.
    change (member_of gap (ind + gap) (k, x)
              :: map (member_of gap (ind + gap)) l)
      with (map (member_of gap (ind + gap)) ((k, x) :: l)) in *.
    rewrite !length_append in Hfuel. change (String.length "{") with 1 in Hfuel.
    change (String.length "}") with 1 in Hfuel.
    rewrite !append_assoc.
    change ("{" ++ ?a) with (String "{" a).
    rewrite parse_value_object, skip_ws_line_break.
    assert (E : exists r,
               join ("," ++ line_break gap (ind + gap))
                 (map (member_of gap (ind + gap)) ((k, x) :: l))
                 ++ line_break gap ind ++ "}" ++ rest = String dquote r).
    { simpl map. unfold member_of at 1, member, quote.
      destruct (map (member_of gap (ind + gap)) l); eexists; reflexivity. }
    destruct E as [r E]. rewrite E. simpl skip_ws. cbv iota.
    change (dquote =? "}")%char with false. cbv iota.
    rewrite <- E.
    change ("}" ++ rest) with (String "}" rest).
    rewrite parse_members_join;
      [| exact IH | exact Hj | discriminate | lia].
    now rewrite define_all_nodup.
Qed.

Lemma append_nil_r (s : string) : s ++ "" = s.
Proof. induction s as [|c s IH]; simpl; [reflexivity | now rewrite IH]. Qed.

Lemma parse_indented (width : nat) (v : value) (text : string) :
  json_representable v = true ->
  indented width v = Some text -> parse text = Some v.
Proof.
  intros Hj Hs. unfold parse.
  pose proof (skip_ws_serialized _ _ _ _ "" Hs) as Hw.
  rewrite append_nil_r in Hw. rewrite Hw.
  pose proof (parse_serialize v Hj width 0 text Hs
                (S (S (String.length text))) "") as Hp.
  rewrite append_nil_r in Hp. rewrite Hp; [reflexivity | lia | reflexivity].
Qed.

Lemma parse_stringify (space : nat) (v : value) (text : string) :
  json_representable v = true ->
  stringify v space = Some text -> parse text = Some v.
Proof. apply parse_indented. Qed.

Lemma stringify_some (space : nat) (v : value) :
  json_representable v = true -> exists text, stringify v space = Some text.
Proof. apply serialize_some. Qed.

(** Without a gap the text has no line feed. *)
Lemma mentions_append (c : ascii) (a b : string) :
  mentions c (a ++ b) = mentions c a || mentions c b.
Proof.
  induction a as [|x a IH]; simpl; [reflexivity|].
  now rewrite IH, orb_assoc.
Qed.

Lemma quote_char_one_line (c : ascii) : mentions "010" (quote_char c) = false.
Proof. destruct c as [[] [] [] [] [] [] [] []]; reflexivity. Qed.

Lemma quote_one_line (s : string) : mentions "010" (quote s) = false.
Proof.
  unfold quote. simpl. rewrite mentions_append. simpl.
  rewrite orb_false_r.
  induction s as [|c s IH]; simpl; [reflexivity|].
  now rewrite mentions_append, quote_char_one_line, IH.
Qed.

Lemma digits_one_line (u : Decimal.uint) :
  mentions "010" (DecimalString.NilEmpty.string_of_uint u) = false.
Proof. induction u; simpl; auto. Qed.

Lemma number_one_line (n : Z) : mentions "010" (number_to_string n) = false.
Proof.
  assert (H : forall u,
             mentions "010" (DecimalString.NilZero.string_of_uint u)
             = false).
  { intros u. destruct u; try reflexivity;
      apply (digits_one_line (_ u)). }
  unfold number_to_string. destruct n as [|p|p]; simpl;
    [reflexivity | apply H | apply H].
Qed.

Lemma join_one_line (parts : list string) :
  Forall (fun p => mentions "010" p = false) parts ->
  mentions "010" (join "," parts) = false.
Proof.
  induction 1 as [|p parts Hp Hparts IH]; [reflexivity|].
  destruct parts as [|q parts]; [exact Hp|].
  change (join "," (p :: q :: parts)) with (p ++ "," ++ join "," (q :: parts)).
  rewrite !mentions_append, Hp, IH. reflexivity.
Qed.

Lemma wrap_one_line (open close : string) (ind : nat)
    (parts : list string) :
  mentions "010" open = false -> mentions "010" close = false ->
  Forall (fun p => mentions "010" p = false) parts ->
  mentions "010" (wrap open close 0 ind parts) = false.
Proof.
  intros Ho Hc Hp. unfold wrap. destruct parts as [|p parts].
  - now rewrite mentions_append, Ho, Hc.
  - unfold line_break. simpl Nat.eqb. cbv iota.
    change ("," ++ "") with ",".
    rewrite !mentions_append, Ho, Hc, (join_one_line _ Hp). reflexivity.
Qed.

Lemma serialize_one_line (v : value) :
  forall ind text,
    serialize 0 ind v = Some text -> mentions "010" text = false.
Proof.
  induction v as [| |b|n|s|items IH|props IH|k] using value_rect';
    intros ind text; simpl; try discriminate.
  - now intros [= <-].
  - destruct b; now intros [= <-].
  - intros [= <-]. apply number_one_line.
  - intros [= <-]. apply quote_one_line.
  - intros [= <-]. apply wrap_one_line; try reflexivity.
    induction IH as [|x items Hx _ IHitems]; simpl; constructor.
    + destruct (serialize 0 (ind + 0) x) eqn:E; [|reflexivity].
      exact (Hx _ _ E).
    + exact IHitems.
  - intros [= <-]. apply wrap_one_line; try reflexivity.
    induction IH as [|[key x] props Hx _ IHprops]; simpl; [constructor|].
    simpl in Hx.
    destruct (serialize 0 (ind + 0) x) eqn:E; [|exact IHprops].
    simpl. constructor; [|exact IHprops].
    unfold member. simpl Nat.eqb. cbv iota.
    rewrite !mentions_append, quote_one_line, (Hx _ _ E). reflexivity.
Qed.

(** With a gap, the first member of an object starts a new line, indented
    by the gap. *)
Lemma join_head (sep p : string) (parts : list string) :
  exists tail, join sep (p :: parts) = p ++ tail.
Proof.
  destruct parts as [|q parts].
  - exists "". simpl. now rewrite append_nil_r.
  - eexists. reflexivity.
Qed.

Lemma indented_object_head (width : nat) (k : string) (x : value)
    (props : list (string * value)) (sx : string) :
  width <> 0 ->
  serialize width width x = Some sx ->
  exists rest,
    indented width (VObj ((k, x) :: props))
    = Some ("{" ++ nl ++ spaces width ++ quote k ++ ": " ++ sx ++ rest).
Proof.
  intros Hw Hx. unfold indented.
  cbn [serialize flat_map snd fst Nat.add]. rewrite Hx. cbn [app].
  unfold wrap, line_break, member.
  destruct (Nat.eqb_spec width 0) as [|_]; [contradiction|].
  match goal with
  | |- context [join ?sep (?p :: ?parts)] =>
      destruct (join_head sep p parts) as [tail ->]
  end.
  eexists. rewrite !append_assoc. reflexivity.
Qed.
End JSONFacts.
(** ** Key paths *)

Lemma isKeyPath_range (x : value) :
  isKeyPath x = VBool true \/ isKeyPath x = VBool false \/ isKeyPath x = VUndef.
Proof.
  destruct x as [| | | | |items| |]; simpl; auto.
  induction items as [|x items IH]; auto.
  destruct (negb (truthy (isKeyPath x))); auto.
  destruct items; auto.
Qed.

Lemma valid_array_iff (items : list value) :
  valid_key_path (VArr items)
  <-> items <> [] /\ Forall valid_key_path items.
Proof.
  split.
  - inversion 1; auto.
  - intros [H1 H2]. now constructor.
Qed.

Lemma isKeyPath_valid (x : value) :
  truthy (isKeyPath x) = true <-> valid_key_path x.
Proof.
  induction x as [| |b|n|s|items IH|props IH|k] using value_rect';
    try (simpl; split; [discriminate | inversion 1]).
  - simpl. split; [intros _; constructor | reflexivity].
  - rewrite valid_array_iff. simpl.
    induction IH as [|x items Hx Hitems IHitems].
    + simpl. split; [discriminate | intros [H _]; congruence].
    + destruct (truthy (isKeyPath x)) eqn:E; simpl.
      * destruct items as [|y items].
        -- simpl. split; [|reflexivity]. intros _. split; [discriminate|].
           constructor; [now apply Hx | constructor].
        -- rewrite IHitems. split.
           ++ intros [_ H]. split; [discriminate|].
              constructor; [now apply Hx | exact H].
           ++ intros [_ H]. inversion H; subst. split; [discriminate | auto].
      * split; [discriminate|]. intros [_ H]. inversion H; subst.
        apply Hx in H2. congruence.
Qed.

Lemma isKeyPath_invalid (x : value) :
  ~ valid_key_path x -> truthy (isKeyPath x) = false.
Proof.
  intros H. destruct (truthy (isKeyPath x)) eqn:E; [|reflexivity].
  apply isKeyPath_valid in E. contradiction.
Qed.

Lemma flattenKeyPath_string (x : value) :
  valid_key_path x -> exists p, flattenKeyPath x = VStr p.
Proof. destruct 1; simpl; eauto. Qed.

Lemma flattenKeyPath_join (items : list value) :
  Forall valid_key_path items ->
  exists parts,
    Forall2 (fun x p => flattenKeyPath x = VStr p) items parts
    /\ join_values "." (map flattenKeyPath items) = join "." parts.
Proof.
  unfold join_values.
  induction 1 as [|x items Hx Hitems (parts & IH1 & IH2)].
  - exists []. split; [constructor | reflexivity].
  - destruct (flattenKeyPath_string x Hx) as [p Hp].
    exists (p :: parts). split; [now constructor|].
    simpl map. rewrite Hp. destruct items as [|y items].
    + inversion IH1; subst. reflexivity.
    + inversion IH1; subst.
      change (join "." (p :: ?a :: ?l)) with (p ++ "." ++ join "." (a :: l)).
      rewrite <- IH2. reflexivity.
Qed.

(** ** The accessor *)

Module AccessorFacts.
Import keyPathHelpers.






Lemma existsb_upsert (k k' : string) (v : value)
    (props : list (string * value)) :
  (k' =? k) = false ->
  existsb (String.eqb k') (map fst (upsert k v props))
  = existsb (String.eqb k') (map fst props).
Proof.
  intros Hk. induction props as [|[k2 v2] props IH]; simpl.
  - now rewrite Hk.
  - destruct (k2 =? k) eqn:E; simpl.
    + apply String.eqb_eq in E. subst. now rewrite Hk.
    + now rewrite IH.
Qed.

Lemma nodupb_upsert (k : string) (v : value) (props : list (string * value)) :
  nodupb (map fst props) = true -> nodupb (map fst (upsert k v props)) = true.
Proof.
  induction props as [|[k' v'] props IH]; simpl; [reflexivity|].
  intros H. apply andb_true_iff in H as [H1 H2].
  destruct (k' =? k) eqn:E; simpl.
  - apply String.eqb_eq in E. subst. now rewrite H1, H2.
  - rewrite (existsb_upsert _ _ _ _ E), H1. simpl. now apply IH.
Qed.

Lemma forallb_upsert (k : string) (v : value) (props : list (string * value)) :
  json_representable v = true ->
  forallb (fun kv => json_representable (snd kv)) props = true ->
  forallb (fun kv => json_representable (snd kv)) (upsert k v props) = true.
Proof.
  intros Hv. induction props as [|[k' v'] props IH]; simpl.
  - now rewrite Hv.
  - intros H. apply andb_true_iff in H as [H1 H2].
    destruct (k' =? k); simpl.
    + now rewrite Hv, H2.
    + now rewrite H1, IH.
Qed.





End AccessorFacts.

(** ** What [JSON.parse] yields is representable *)

Module ParserFacts.
Import JSON.

Lemma parse_value_cons (f : nat) (c : ascii) (r : string) :
  parse_value (S f) (String c r)
  = if (c =? "n")%char then keyword "ull" VNull r
    else if (c =? "t")%char then keyword "rue" (VBool true) r
    else if (c =? "f")%char then keyword "alse" (VBool false) r
    else if (c =? dquote)%char then
      match parse_chars r with
      | Some (str, rest) => Some (VStr str, rest)
      | None => None
      end
    else if (c =? "[")%char then
      match skip_ws r with
      | String c' r' =>
          if (c' =? "]")%char then Some (VArr [], r')
          else
            match parse_elements f (String c' r') with
            | Some (items, rest) => Some (VArr items, rest)
            | None => None
            end
      | "" => None
      end
    else if (c =? "{")%char then
      match skip_ws r with
      | String c' r' =>
          if (c' =? "}")%char then Some (VObj [], r')
          else
            match parse_members f (String c' r') with
            | Some (members, rest) => Some (VObj (define_all members), rest)
            | None => None
            end
      | "" => None
      end
    else
      match parse_number (String c r) with
      | Some (n, rest) => Some (VNum n, rest)
      | None => None
      end.
Proof. reflexivity. Qed.

Lemma keyword_value (k : string) (v v' : value) (s rest : string) :
  keyword k v s = Some (v', rest) -> v' = v.
Proof.
  unfold keyword. destruct (strip_prefix k s); [|discriminate].
  now intros [= <- _].
Qed.

Lemma json_define_all (members : list (string * value)) :
  forallb (fun kv => json_representable (snd kv)) members = true ->
  json_props (define_all members) = true.
Proof.
  unfold define_all.
  assert (H : forall acc,
             json_props acc = true ->
             forallb (fun kv => json_representable (snd kv)) members = true ->
             json_props
               (fold_left (fun a kv => upsert (fst kv) (snd kv) a)
                  members acc) = true).
  { induction members as [|[k v] members IH]; intros acc Hacc Hm; simpl.
    - exact Hacc.
    - simpl in Hm. apply andb_true_iff in Hm as [Hv Hm].
      apply IH; [|exact Hm]. unfold json_props in *.
      apply andb_true_iff in Hacc as [H1 H2].
      now rewrite AccessorFacts.nodupb_upsert,
        AccessorFacts.forallb_upsert. }
  apply H. reflexivity.
Qed.

Lemma parse_representable_upto (fuel : nat) :
  (forall s v rest,
      parse_value fuel s = Some (v, rest) -> json_representable v = true)
  /\ (forall s items rest,
         parse_elements fuel s = Some (items, rest) ->
         forallb json_representable items = true)
  /\ (forall s members rest,
         parse_members fuel s = Some (members, rest) ->
         forallb (fun kv => json_representable (snd kv)) members = true).
Proof.
  induction fuel as [|f (IHv & IHe & IHm)].
  - repeat split; intros; discriminate.
  - repeat split.
    + intros [|c r] v rest; [discriminate|]. rewrite parse_value_cons.
      destruct (c =? "n")%char;
        [intros H; apply keyword_value in H; now subst|].
      destruct (c =? "t")%char;
        [intros H; apply keyword_value in H; now subst|].
      destruct (c =? "f")%char;
        [intros H; apply keyword_value in H; now subst|].
      destruct (c =? dquote)%char.
      { destruct (parse_chars r) as [[str rest']|]; [|discriminate].
        now intros [= <- _]. }
      destruct (c =? "[")%char.
      { destruct (skip_ws r) as [|c' r']; [discriminate|].
        destruct (c' =? "]")%char; [now intros [= <- _]|].
        destruct (parse_elements f (String c' r')) as [[items rest']|] eqn:E;
          [|discriminate].
        intros [= <- _]. simpl. exact (IHe _ _ _ E). }
      destruct (c =? "{")%char.
      { destruct (skip_ws r) as [|c' r']; [discriminate|].
        destruct (c' =? "}")%char; [now intros [= <- _]|].
        destruct (parse_members f (String c' r')) as [[members rest']|] eqn:E;
          [|discriminate].
        intros [= <- _]. simpl.
        exact (json_define_all _ (IHm _ _ _ E)). }
      destruct (parse_number (String c r)) as [[n rest']|]; [|discriminate].
      now intros [= <- _].
    + intros s items rest. simpl.
      destruct (parse_value f s) as [[v r]|] eqn:Ev; [|discriminate].
      destruct (skip_ws r) as [|c r']; [discriminate|].
      destruct (c =? ",")%char.
      * destruct (parse_elements f (skip_ws r')) as [[items' rest']|] eqn:E;
          [|discriminate].
        intros [= <- _]. simpl.
        now rewrite (IHv _ _ _ Ev), (IHe _ _ _ E).
      * destruct (c =? "]")%char; [|discriminate].
        intros [= <- _]. simpl. now rewrite (IHv _ _ _ Ev).
    + intros s members rest. simpl.
      destruct s as [|q r]; [discriminate|].
      destruct (q =? dquote)%char; [|discriminate].
      destruct (parse_chars r) as [[k r1]|]; [|discriminate].
      destruct (skip_ws r1) as [|c r2]; [discriminate|].
      destruct (c =? ":")%char; [|discriminate].
      destruct (parse_value f (skip_ws r2)) as [[v r3]|] eqn:Ev;
        [|discriminate].
      destruct (skip_ws r3) as [|c' r4]; [discriminate|].
      destruct (c' =? ",")%char.
      * destruct (parse_members f (skip_ws r4)) as [[ms rest']|] eqn:E;
          [|discriminate].
        intros [= <- _]. simpl.
        now rewrite (IHv _ _ _ Ev), (IHm _ _ _ E).
      * destruct (c' =? "}")%char; [|discriminate].
        intros [= <- _]. simpl. now rewrite (IHv _ _ _ Ev).
Qed.

Lemma parse_representable (text : string) (v : value) :
  parse text = Some v -> json_representable v = true.
Proof.
  unfold parse.
  destruct (parse_value _ _) as [[v' rest]|] eqn:E; [|discriminate].
  destruct (skip_ws rest); [|discriminate].
  intros [= <-].
  exact (proj1 (parse_representable_upto _) _ _ _ E).
Qed.
End ParserFacts.

(** ** The codec *)

Section StoreFacts.

Variable encrypt decrypt : string -> string -> string -> option string.
Variable cfg : config.

Local Abbreviation prepare := (_prepareSettingsData encrypt cfg).
Local Abbreviation reconstruct := (_reconstructSettingsData decrypt cfg).

Lemma prepare_payload (obj : value) (data : option string) :
  json_representable obj = true ->
  prepare obj = inr data -> exists bytes, data = Some bytes.
Proof.
  intros Hj. unfold _prepareSettingsData.
  destruct (JSONFacts.stringify_some
              (if prettify cfg then numSpaces cfg else 0) obj Hj)
    as [text ->].
  destruct (has_key cfg).
  - destruct (_encryptData encrypt cfg text); intros [= <-]; eauto.
  - intros [= <-]; eauto.
Qed.


Lemma reconstruct_prepare (obj : value) (bytes : string) :
  cipher_law encrypt decrypt ->
  json_representable obj = true ->
  prepare obj = inr (Some bytes) -> reconstruct bytes = inr obj.
Proof.
  intros Hlaw Hj. unfold _prepareSettingsData, _reconstructSettingsData.
  destruct (JSON.stringify obj _) as [text|] eqn:Et.
  2:{ destruct (has_key cfg); discriminate. }
  apply (JSONFacts.parse_stringify _ _ _ Hj) in Et.
  destruct (has_key cfg).
  - unfold _encryptData, _decryptData.
    destruct (encrypt _ _ text) as [enc|] eqn:Ee; [|discriminate].
    intros [= <-]. rewrite (Hlaw _ _ _ _ Ee). now rewrite Et.
  - intros [= <-]. now rewrite Et.
Qed.

Lemma reconstruct_representable (bytes : string) (obj : value) :
  reconstruct bytes = inr obj -> json_representable obj = true.
Proof.
  unfold _reconstructSettingsData.
  destruct (if has_key cfg then _ else _) as [e|text]; [discriminate|].
  destruct (JSON.parse text) as [v|] eqn:E; [|discriminate].
  intros [= <-]. exact (ParserFacts.parse_representable _ _ E).
Qed.

(** ** The callback methods end as the blocking methods do *)

Lemma later_later (t : task) (s : fsstate) : later (later t) s = later t s.
Proof. unfold later. destruct (t s) as [[] ?]; reflexivity. Qed.

Lemma later_after {A : Type} (m : fsstate -> A * fsstate)
    (k : A -> task) (s : fsstate) :
  later (fun s0 => let (r, s') := m s0 in later (k r) s') s
  = let (r, s') := m s in later (k r) s'.
Proof.
  unfold later. destruct (m s) as [r s'].
  destruct (k r s') as [[] ?]; reflexivity.
Qed.

Lemma quiet_later (t : task) : quiet (later t).
Proof. intros s. apply later_later. Qed.

Lemma quiet_callable (k : nat) (err : option error) (val : value) :
  quiet (callable (VFun k) err val).
Proof. intros s. reflexivity. Qed.

Lemma quiet_readFile (cb : option error -> string -> task) :
  quiet (fs_readFile cb).
Proof.
  intros s. unfold fs_readFile.
  exact (later_after sys_read
           (fun r => cb (error_of r)
                       (match r with inr data => data | inl _ => "" end))
           s).
Qed.

Lemma quiet_stat (n : node) (cb : option error -> task) :
  quiet (fs_stat n cb).
Proof.
  intros s. unfold fs_stat.
  exact (later_after (sys_stat n) (fun r => cb (error_of r)) s).
Qed.

Lemma ensureDir_ends (fn : option error -> task) (s : fsstate) :
  _ensureSettingsDir fn s
  = let (r, s') := _ensureSettingsDirSync s in later (fn (error_of r)) s'.
Proof.
  unfold _ensureSettingsDir, _ensureSettingsDirSync, fs_stat, try_catch.
  destruct (sys_stat Dir s) as [[e|[]] s1]; simpl; [|reflexivity].
  destruct (is_ENOENT e); [|reflexivity].
  unfold mkdirp. apply later_after.
Qed.

Lemma writeFile_ends (data : option string) (fn : option error -> task)
    (s : fsstate) :
  _writeSettingsFile cfg data fn s
  = let (r, s') := _writeSettingsFileSync cfg data s in
    later (fn (error_of r)) s'.
Proof.
  unfold _writeSettingsFile, _writeSettingsFileSync, bind.
  rewrite ensureDir_ends.
  destruct (_ensureSettingsDirSync s) as [[e|[]] s1]; simpl; [reflexivity|].
  unfold fs_writeFile. apply later_after.
Qed.

Lemma save_ends (obj : value) (fn : option error -> task) (s : fsstate) :
  (forall err, quiet (fn err)) ->
  _saveSettings encrypt cfg obj fn s
  = let (r, s') := _saveSettingsSync encrypt cfg obj s in
    fn (error_of r) s'.
Proof.
  intros Hq. unfold _saveSettings, _saveSettingsSync, bind, lift.
  destruct (prepare obj) as [e|data]; [reflexivity|].
  rewrite writeFile_ends.
  destruct (_writeSettingsFileSync cfg data s) as [r s1]. apply Hq.
Qed.

Lemma later_quiet_ends {A : Type} (t : task) (m : fsstate -> A * fsstate)
    (k : A -> task) (s : fsstate) :
  (forall r, quiet (k r)) ->
  t s = (let (r, s') := m s in k r s') ->
  later t s = let (r, s') := m s in k r s'.
Proof.
  intros Hq E. unfold later. rewrite E. destruct (m s) as [r s'].
  pose proof (Hq r s') as H. unfold later in H. exact H.
Qed.

Lemma quiet_ends {A : Type} (t : task) (m : fsstate -> A * fsstate)
    (k : A -> task) :
  (forall r, quiet (k r)) ->
  (forall s, t s = (let (r, s') := m s in k r s')) ->
  quiet t.
Proof.
  intros Hq E s. rewrite (later_quiet_ends t m k s Hq (E s)). now rewrite E.
Qed.

Lemma ensureFile_ends (fn : option error -> task) (s : fsstate) :
  (forall err, quiet (fn err)) ->
  _ensureSettingsFile encrypt cfg fn s
  = let (r, s') := _ensureSettingsFileSync encrypt cfg s in
    fn (error_of r) s'.
Proof.
  intros Hq.
  unfold _ensureSettingsFile, _ensureSettingsFileSync, fs_stat, try_catch.
  destruct (sys_stat File s) as [[e|[]] s1]; cbv beta iota;
    [|apply Hq].
  unfold error_of at 1. cbv beta iota.
  destruct (is_ENOENT e); [|apply Hq].
  apply (later_quiet_ends _ (_saveSettingsSync encrypt cfg (VObj []))
           (fun r => fn (error_of r))).
  - intros r. apply Hq.
  - now apply save_ends.
Qed.

Lemma readFile_ends (fn : callback) (s : fsstate) :
  (forall err val, quiet (fn err val)) ->
  _readSettingsFile decrypt cfg fn s
  = let (r, s') := _readSettingsFileSync decrypt cfg s in
    fn (error_of r) (value_of r) s'.
Proof.
  intros Hq.
  unfold _readSettingsFile, _readSettingsFileSync, fs_readFile, bind, lift.
  destruct (sys_read s) as [[e|data] s1]; simpl; [apply Hq|].
  unfold try_call, throw_now.
  destruct (reconstruct data) as [e|obj]; simpl; [apply Hq|].
  pose proof (Hq None obj s1) as H. unfold later in *.
  destruct (fn None obj s1) as [[] ?]; try reflexivity. discriminate H.
Qed.

Lemma load_ends (fn : callback) (s : fsstate) :
  (forall err val, quiet (fn err val)) ->
  _loadSettings encrypt decrypt cfg fn s
  = let (r, s') := _loadSettingsSync encrypt decrypt cfg s in
    fn (error_of r) (value_of r) s'.
Proof.
  intros Hq. unfold _loadSettings, _loadSettingsSync, bind.
  rewrite ensureFile_ends.
  - destruct (_ensureSettingsFileSync encrypt cfg s) as [[e|[]] s1]; simpl;
      [reflexivity|].
    now apply readFile_ends.
  - intros [e|]; [apply Hq | apply quiet_readFile].
Qed.


Lemma getValue_ends (keyPath : value) (fn : callback) (s : fsstate) :
  (forall err val, quiet (fn err val)) ->
  _getValueAtKeyPath encrypt decrypt cfg keyPath fn s
  = let (r, s') := _getValueAtKeyPathSync encrypt decrypt cfg keyPath s in
    fn (error_of r) (value_of r) s'.
Proof.
  intros Hq. unfold _getValueAtKeyPath, _getValueAtKeyPathSync, bind.
  rewrite load_ends.
  - destruct (_loadSettingsSync encrypt decrypt cfg s) as [[e|obj] s1];
      simpl; [reflexivity|].
    destruct (truthy keyPath); reflexivity.
  - intros [e|] val; [apply Hq|]. destruct (truthy keyPath); apply Hq.
Qed.

Lemma hasKeyPath_ends (keyPath : value) (fn : callback) (s : fsstate) :
  (forall err val, quiet (fn err val)) ->
  _hasKeyPath encrypt decrypt cfg keyPath fn s
  = let (r, s') := _hasKeyPathSync encrypt decrypt cfg keyPath s in
    fn (error_of r) (value_of r) s'.
Proof.
  intros Hq. unfold _hasKeyPath, _hasKeyPathSync, bind.
  rewrite load_ends.
  - destruct (_loadSettingsSync encrypt decrypt cfg s) as [[e|obj] s1];
      reflexivity.
  - intros [e|] val; apply Hq.
Qed.

Lemma save_then_undefined (obj : value) (fn : callback) (s : fsstate) :
  (forall err val, quiet (fn err val)) ->
  _saveSettings encrypt cfg obj (err_only fn) s
  = let (r, s') :=
      bind (_saveSettingsSync encrypt cfg obj) (fun _ => ret VUndef) s in
    fn (error_of r) (value_of r) s'.
Proof.
  intros Hq. rewrite save_ends by (intros err; apply Hq).
  unfold bind, err_only.
  destruct (_saveSettingsSync encrypt cfg obj s) as [[e|[]] s1];
    reflexivity.
Qed.

Lemma setValue_ends (keyPath val : value) (fn : callback) (s : fsstate) :
  (forall err val, quiet (fn err val)) ->
  _setValueAtKeyPath encrypt decrypt cfg keyPath val fn s
  = let (r, s') :=
      _setValueAtKeyPathSync encrypt decrypt cfg keyPath val s in
    fn (error_of r) (value_of r) s'.
Proof.
  intros Hq. unfold _setValueAtKeyPath, _setValueAtKeyPathSync.
  destruct (truthy keyPath); [|now apply save_then_undefined].
  rewrite load_ends.
  - unfold bind at 1.
    destruct (_loadSettingsSync encrypt decrypt cfg s) as [[e|obj] s1];
      simpl; [reflexivity|].
    now apply save_then_undefined.
  - intros [e|] obj; [apply Hq|].
    eapply (quiet_ends _ _ (fun r => fn (error_of r) (value_of r))).
    + intros r. apply Hq.
    + intros s1. now apply save_then_undefined.
Qed.

Lemma deleteValue_ends (keyPath : value) (fn : callback) (s : fsstate) :
  (forall err val, quiet (fn err val)) ->
  _deleteValueAtKeyPath encrypt decrypt cfg keyPath fn s
  = let (r, s') := _deleteValueAtKeyPathSync encrypt decrypt cfg keyPath s in
    fn (error_of r) (value_of r) s'.
Proof.
  intros Hq. unfold _deleteValueAtKeyPath, _deleteValueAtKeyPathSync.
  rewrite load_ends.
  - unfold bind at 1.
    destruct (_loadSettingsSync encrypt decrypt cfg s) as [[e|obj] s1];
      simpl; [reflexivity|].
    now apply save_then_undefined.
  - intros [e|] obj; [apply Hq|].
    eapply (quiet_ends _ _ (fun r => fn (error_of r) (value_of r))).
    + intros r. apply Hq.
    + intros s1. now apply save_then_undefined.
Qed.

Lemma deliver_callable (k : nat) (x : (error + value) * fsstate) :
  (let (r, s') := x in callable (VFun k) (error_of r) (value_of r) s')
  = deliver k x.
Proof. destruct x; reflexivity. Qed.

Lemma quiet_caller (k : nat) :
  forall err val, quiet (callable (VFun k) err val).
Proof. intros err val s. reflexivity. Qed.


(** ** Runs on a healthy host *)

Lemma writes_app (t1 t2 : list io_event) :
  writes (t1 ++ t2) = (writes t1 ++ writes t2)%list.
Proof.
  induction t1 as [|ev t1 IH]; [reflexivity|].
  destruct ev; simpl; now rewrite ?IH.
Qed.

Lemma healthy_log (ev : io_event) (s : fsstate) :
  healthy s -> healthy (log ev s).
Proof. trivial. Qed.

Lemma healthy_saved (atomic : bool) (data : option string) (s : fsstate) :
  healthy s -> healthy (saved atomic data s).
Proof. trivial. Qed.

Lemma save_healthy (obj : value) (s : fsstate) :
  healthy s ->
  _saveSettingsSync encrypt cfg obj s
  = match prepare obj with
    | inl e => (inl e, s)
    | inr data => (inr tt, saved (atomicSave cfg) data s)
    end.
Proof.
  intros H. unfold _saveSettingsSync, bind, lift.
  destruct (prepare obj) as [e|data]; [reflexivity|].
  unfold _writeSettingsFileSync, _ensureSettingsDirSync, bind, try_catch,
    sys_stat, sys_mkdirp, sys_write, saved, throw.
  destruct s as [h d t]. unfold healthy in H. simpl in H. simpl.
  rewrite !H. destruct d; simpl; rewrite ?H; simpl;
    unfold with_nodes, log; simpl; rewrite <- ?app_assoc; reflexivity.
Qed.

Lemma load_healthy (s : fsstate) :
  healthy s ->
  _loadSettingsSync encrypt decrypt cfg s
  = match nodes s with
    | HasFile data => (reconstruct data, log IoRead (log (IoStat File) s))
    | _ =>
        match prepare (VObj []) with
        | inl e => (inl e, log (IoStat File) s)
        | inr data =>
            (reconstruct (payload (env s) data),
             log IoRead (saved (atomicSave cfg) data (log (IoStat File) s)))
        end
    end.
Proof.
  intros H.
  unfold _loadSettingsSync, _ensureSettingsFileSync, _readSettingsFileSync,
    bind, try_catch, lift.
  assert (Hs : sys_stat File s
               = (if missing (nodes s)
                  then inl (SystemError ENOENT) else inr tt,
                  log (IoStat File) s)).
  { unfold sys_stat. rewrite H. now destruct (nodes s). }
  rewrite Hs.
  destruct (nodes s) as [| |data] eqn:En; simpl.
  - rewrite (save_healthy _ _ (healthy_log _ _ H)).
    destruct (prepare (VObj [])) as [e|d0]; [reflexivity|].
    unfold sys_read. simpl. rewrite H. reflexivity.
  - rewrite (save_healthy _ _ (healthy_log _ _ H)).
    destruct (prepare (VObj [])) as [e|d0]; [reflexivity|].
    unfold sys_read. simpl. rewrite H. reflexivity.
  - unfold sys_read. simpl. rewrite H, En. reflexivity.
Qed.


(** ** Dispatch on the first argument *)

Lemma bind_ret {A : Type} (m : M A) (s : fsstate) :
  bind m (fun a => ret a) s = m s.
Proof. unfold bind, ret. destruct (m s) as [[e|a] s']; reflexivity. Qed.

Lemma getValueSync_whole (keyPath : value) (s : fsstate) :
  truthy keyPath = false ->
  _getValueAtKeyPathSync encrypt decrypt cfg keyPath s
  = _loadSettingsSync encrypt decrypt cfg s.
Proof.
  intros H. unfold _getValueAtKeyPathSync. rewrite H. apply bind_ret.
Qed.

Lemma getSync_whole (args : list value) (s : fsstate) :
  arg 0 args = VStr "" \/ truthy (isKeyPath (arg 0 args)) = false ->
  getSync encrypt decrypt cfg args s
  = _loadSettingsSync encrypt decrypt cfg s.
Proof.
  intros [H|H]; unfold getSync, splice_flat, splice_null; rewrite H; simpl;
    now apply getValueSync_whole.
Qed.

Lemma setSync_whole (args : list value) (s : fsstate) :
  truthy (isKeyPath (arg 0 args)) = false ->
  setSync encrypt decrypt cfg args s
  = bind (_saveSettingsSync encrypt cfg (arg 0 args))
      (fun _ => ret VUndef) s.
Proof.
  intros H. unfold setSync, splice_null. rewrite H. reflexivity.
Qed.

Lemma set_whole (args : list value) (s : fsstate) :
  truthy (isKeyPath (arg 0 args)) = false ->
  set encrypt decrypt cfg args s
  = _saveSettings encrypt cfg (arg 0 args)
      (err_only (callable (arg 1 args))) s.
Proof.
  intros H. unfold set, splice_null. rewrite H. reflexivity.
Qed.


(** ** The public methods, callback form against blocking form *)

Lemma get_ends (p : value) (k : nat) (rest : list value) (s : fsstate) :
  valid_key_path p ->
  get encrypt decrypt cfg (p :: VFun k :: rest) s
  = deliver k (getSync encrypt decrypt cfg [p] s).
Proof.
  intros H. apply isKeyPath_valid in H. unfold get, getSync.
  change (arg 0 (p :: VFun k :: rest)) with p.
  change (arg 0 [p]) with p. rewrite H.
  unfold splice_flat. simpl.
  rewrite getValue_ends by apply quiet_caller. apply deliver_callable.
Qed.

Lemma get_ends_omitted (k : nat) (rest : list value) (s : fsstate) :
  get encrypt decrypt cfg (VFun k :: rest) s
  = deliver k (getSync encrypt decrypt cfg [] s).
Proof.
  unfold get, getSync. simpl.
  rewrite getValue_ends by apply quiet_caller. apply deliver_callable.
Qed.

Lemma has_ends (p : value) (k : nat) (rest : list value) (s : fsstate) :
  valid_key_path p ->
  has encrypt decrypt cfg (p :: VFun k :: rest) s
  = deliver k (hasSync encrypt decrypt cfg [p] s).
Proof.
  intros H. apply isKeyPath_valid in H. unfold has, hasSync.
  change (arg 0 (p :: VFun k :: rest)) with p.
  change (arg 0 [p]) with p. rewrite H.
  unfold splice_flat. simpl.
  rewrite hasKeyPath_ends by apply quiet_caller. apply deliver_callable.
Qed.

Lemma delete_ends (p : value) (k : nat) (rest : list value) (s : fsstate) :
  valid_key_path p ->
  delete encrypt decrypt cfg (p :: VFun k :: rest) s
  = deliver k (deleteSync encrypt decrypt cfg [p] s).
Proof.
  intros H. apply isKeyPath_valid in H. unfold delete, deleteSync.
  change (arg 0 (p :: VFun k :: rest)) with p.
  change (arg 0 [p]) with p. rewrite H.
  unfold splice_flat. simpl.
  rewrite deleteValue_ends by apply quiet_caller. apply deliver_callable.
Qed.

Lemma set_ends (p v : value) (k : nat) (rest : list value) (s : fsstate) :
  valid_key_path p ->
  set encrypt decrypt cfg (p :: v :: VFun k :: rest) s
  = deliver k (setSync encrypt decrypt cfg [p; v] s).
Proof.
  intros H. apply isKeyPath_valid in H. unfold set, setSync.
  change (arg 0 (p :: v :: VFun k :: rest)) with p.
  change (arg 0 [p; v]) with p. rewrite H.
  unfold splice_flat. simpl.
  rewrite setValue_ends by apply quiet_caller. apply deliver_callable.
Qed.

Lemma set_ends_whole (x : value) (k : nat) (rest : list value)
    (s : fsstate) :
  ~ valid_key_path x ->
  set encrypt decrypt cfg (x :: VFun k :: rest) s
  = deliver k (setSync encrypt decrypt cfg [x] s).
Proof.
  intros H. apply isKeyPath_invalid in H. unfold set, setSync.
  change (arg 0 (x :: VFun k :: rest)) with x.
  change (arg 0 [x]) with x. rewrite H.
  unfold splice_null. simpl.
  rewrite setValue_ends by apply quiet_caller. apply deliver_callable.
Qed.


Lemma save_replaces (x r : value) (s s' : fsstate) :
  cipher_law encrypt decrypt ->
  healthy s ->
  json_representable x = true ->
  bind (_saveSettingsSync encrypt cfg x) (fun _ => ret VUndef) s
  = (inr r, s') ->
  exists bytes,
    s' = saved (atomicSave cfg) (Some bytes) s
    /\ prepare x = inr (Some bytes)
    /\ reconstruct bytes = inr x.
Proof.
  intros Hlaw Hs Hj. unfold bind. rewrite (save_healthy _ _ Hs).
  destruct (prepare x) as [e|data] eqn:E; [discriminate|].
  destruct (prepare_payload _ _ Hj E) as [bytes ->].
  intros [= _ <-]. exists bytes. repeat split.
  now apply reconstruct_prepare.
Qed.

Lemma load_reads (s : fsstate) (data : string) :
  healthy s -> nodes s = HasFile data ->
  _loadSettingsSync encrypt decrypt cfg s
  = (reconstruct data, log IoRead (log (IoStat File) s)).
Proof. intros Hs Hn. rewrite (load_healthy _ Hs), Hn. reflexivity. Qed.


(** ** A file that does not decode *)

Lemma writes_log (ev : io_event) (s : fsstate) :
  (forall atomic data, ev <> IoWrite atomic data) ->
  writes (trace (log ev s)) = writes (trace s).
Proof.
  intros H. simpl. rewrite writes_app.
  destruct ev; simpl; try now rewrite app_nil_r.
  now contradiction (H atomic data).
Qed.

Lemma load_decode_failure (s : fsstate) (data : string) (e : error) :
  nodes s = HasFile data ->
  reconstruct data = inl e ->
  exists e' s',
    _loadSettingsSync encrypt decrypt cfg s = (inl e', s')
    /\ untouched s s' /\ (healthy s -> e' = e).
Proof.
  intros Hn He.
  unfold _loadSettingsSync, _ensureSettingsFileSync, _readSettingsFileSync,
    bind, try_catch, lift, sys_stat, sys_read, throw, untouched.
  rewrite Hn.
  destruct (fault (env s) (SysStat File)) as [f|] eqn:Ef; simpl.
  - eexists _, _. split; [reflexivity|]. split.
    + split; [exact Hn | simpl; now rewrite writes_app, app_nil_r].
    + intros H. rewrite H in Ef. discriminate.
  - destruct (fault (env s) SysRead) as [f|] eqn:Er; simpl.
    + eexists _, _. split; [reflexivity|]. split.
      * split; [exact Hn|]. simpl.
        now rewrite !writes_app, !app_nil_r.
      * intros H. rewrite H in Er. discriminate.
    + rewrite Hn, He. eexists _, _. split; [reflexivity|]. split.
      * split; [exact Hn|]. simpl.
        now rewrite !writes_app, !app_nil_r.
      * reflexivity.
Qed.

Lemma setSync_decode_failure (s : fsstate) (data : string) (e : error)
    (p v : value) :
  nodes s = HasFile data ->
  reconstruct data = inl e ->
  valid_key_path p -> truthy (flattenKeyPath p) = true ->
  exists e' s',
    setSync encrypt decrypt cfg [p; v] s = (inl e', s')
    /\ untouched s s' /\ (healthy s -> e' = e).
Proof.
  intros Hn He Hp Ht.
  destruct (load_decode_failure s data e Hn He) as (e' & s' & El & H).
  exists e', s'. split; [|exact H].
  apply isKeyPath_valid in Hp. unfold setSync.
  change (arg 0 [p; v]) with p. rewrite Hp.
  change (arg 0 (splice_flat [p; v])) with (flattenKeyPath p).
  unfold _setValueAtKeyPathSync. rewrite Ht. unfold bind at 1.
  now rewrite El.
Qed.

Lemma setSync_empty_path (p v : value) (s : fsstate) :
  valid_key_path p -> truthy (flattenKeyPath p) = false ->
  setSync encrypt decrypt cfg [p; v] s
  = bind (_saveSettingsSync encrypt cfg v) (fun _ => ret VUndef) s.
Proof.
  intros Hp Ht. apply isKeyPath_valid in Hp. unfold setSync.
  change (arg 0 [p; v]) with p. rewrite Hp.
  change (arg 0 (splice_flat [p; v])) with (flattenKeyPath p).
  unfold _setValueAtKeyPathSync. rewrite Ht. reflexivity.
Qed.

Lemma deleteSync_decode_failure (s : fsstate) (data : string) (e : error)
    (p : value) :
  nodes s = HasFile data ->
  reconstruct data = inl e ->
  valid_key_path p ->
  exists e' s',
    deleteSync encrypt decrypt cfg [p] s = (inl e', s')
    /\ untouched s s' /\ (healthy s -> e' = e).
Proof.
  intros Hn He Hp.
  destruct (load_decode_failure s data e Hn He) as (e' & s' & El & H).
  exists e', s'. split; [|exact H].
  apply isKeyPath_valid in Hp. unfold deleteSync.
  change (arg 0 [p]) with p. rewrite Hp.
  change (arg 0 (splice_flat [p])) with (flattenKeyPath p).
  unfold _deleteValueAtKeyPathSync. unfold bind at 1.
  now rewrite El.
Qed.


(** ** Success leaves a file *)

Lemma write_success_file (atomic : bool) (data : option string)
    (s s' : fsstate) :
  sys_write atomic data s = (inr tt, s') -> file_exists s'.
Proof.
  unfold sys_write, file_exists.
  destruct (fault (env s) SysWrite); [discriminate|].
  destruct (nodes s); [discriminate| |]; intros [= <-]; simpl; eauto.
Qed.

Lemma save_success_file (obj : value) (s s' : fsstate) :
  _saveSettingsSync encrypt cfg obj s = (inr tt, s') -> file_exists s'.
Proof.
  unfold _saveSettingsSync, _writeSettingsFileSync, bind, lift.
  destruct (prepare obj) as [e|data]; [discriminate|].
  destruct (_ensureSettingsDirSync s) as [[e|[]] s1]; [discriminate|].
  apply write_success_file.
Qed.

Lemma save_undefined_success_file (obj r : value) (s s' : fsstate) :
  bind (_saveSettingsSync encrypt cfg obj) (fun _ => ret VUndef) s
  = (inr r, s') ->
  file_exists s'.
Proof.
  unfold bind.
  destruct (_saveSettingsSync encrypt cfg obj s) as [[e|[]] s1] eqn:E;
    [discriminate|].
  intros [= _ <-]. exact (save_success_file _ _ _ E).
Qed.

Lemma load_success_file (obj : value) (s s' : fsstate) :
  _loadSettingsSync encrypt decrypt cfg s = (inr obj, s') -> file_exists s'.
Proof.
  unfold _loadSettingsSync, _readSettingsFileSync, bind, lift.
  destruct (_ensureSettingsFileSync encrypt cfg s) as [[e|[]] s1];
    [discriminate|].
  unfold sys_read.
  destruct (fault (env s1) SysRead); [discriminate|].
  destruct (nodes s1) as [| |data] eqn:En; try discriminate.
  intros [= _ <-]. exists data. exact En.
Qed.

Lemma getSync_success_file (args : list value) (r : value)
    (s s' : fsstate) :
  getSync encrypt decrypt cfg args s = (inr r, s') -> file_exists s'.
Proof.
  unfold getSync, _getValueAtKeyPathSync, bind.
  destruct (_loadSettingsSync encrypt decrypt cfg s) as [[e|obj] s1] eqn:E;
    [discriminate|].
  unfold ret. destruct (truthy (arg 0 _)); intros [= _ <-];
    exact (load_success_file _ _ _ E).
Qed.

Lemma hasSync_success_file (args : list value) (r : value)
    (s s' : fsstate) :
  hasSync encrypt decrypt cfg args s = (inr r, s') -> file_exists s'.
Proof.
  unfold hasSync, _hasKeyPathSync, bind.
  destruct (truthy (isKeyPath (arg 0 args))); [|discriminate].
  destruct (_loadSettingsSync encrypt decrypt cfg s) as [[e|obj] s1] eqn:E;
    [discriminate|].
  intros [= _ <-]. exact (load_success_file _ _ _ E).
Qed.

Lemma setValueSync_success_file (keyPath val r : value) (s s' : fsstate) :
  _setValueAtKeyPathSync encrypt decrypt cfg keyPath val s = (inr r, s') ->
  file_exists s'.
Proof.
  unfold _setValueAtKeyPathSync.
  destruct (truthy keyPath); [|apply save_undefined_success_file].
  unfold bind at 1.
  destruct (_loadSettingsSync encrypt decrypt cfg s) as [[e|obj] s1];
    [discriminate|].
  apply save_undefined_success_file.
Qed.

Lemma setSync_success_file (args : list value) (r : value)
    (s s' : fsstate) :
  setSync encrypt decrypt cfg args s = (inr r, s') -> file_exists s'.
Proof. unfold setSync. apply setValueSync_success_file. Qed.

Lemma deleteSync_success_file (args : list value) (r : value)
    (s s' : fsstate) :
  deleteSync encrypt decrypt cfg args s = (inr r, s') -> file_exists s'.
Proof.
  unfold deleteSync, _deleteValueAtKeyPathSync.
  destruct (truthy (isKeyPath (arg 0 args))); [|discriminate].
  unfold bind at 1.
  destruct (_loadSettingsSync encrypt decrypt cfg s) as [[e|obj] s1];
    [discriminate|].
  apply save_undefined_success_file.
Qed.

(** ** The file is created on the way *)

Lemma ensureFile_missing (s : fsstate) :
  fault (env s) (SysStat File) = None -> missing (nodes s) = true ->
  _ensureSettingsFileSync encrypt cfg s
  = _saveSettingsSync encrypt cfg (VObj []) (log (IoStat File) s).
Proof.
  intros Hf Hm. unfold _ensureSettingsFileSync, try_catch, sys_stat.
  rewrite Hf. destruct (nodes s); try discriminate; reflexivity.
Qed.

Lemma ensureFile_present (s : fsstate) :
  fault (env s) (SysStat File) = None -> missing (nodes s) = false ->
  _ensureSettingsFileSync encrypt cfg s = (inr tt, log (IoStat File) s).
Proof.
  intros Hf Hm. unfold _ensureSettingsFileSync, try_catch, sys_stat.
  rewrite Hf. destruct (nodes s); try discriminate; reflexivity.
Qed.

Lemma ensureFile_failure (s : fsstate) (f : failure) :
  fault (env s) (SysStat File) = Some f ->
  _ensureSettingsFileSync encrypt cfg s
  = (inl (SystemError (Errno f)), log (IoStat File) s).
Proof.
  intros Hf. unfold _ensureSettingsFileSync, try_catch, sys_stat.
  rewrite Hf. reflexivity.
Qed.

Lemma writes_saved (atomic : bool) (data : option string) (s : fsstate) :
  writes (trace (saved atomic data s)) = (writes (trace s) ++ [data])%list.
Proof.
  unfold saved. simpl. rewrite writes_app. f_equal.
  destruct (nodes s); reflexivity.
Qed.

Lemma save_appends (obj : value) (s s' : fsstate) :
  healthy s ->
  _saveSettingsSync encrypt cfg obj s = (inr tt, s') ->
  exists data,
    prepare obj = inr data /\ s' = saved (atomicSave cfg) data s.
Proof.
  intros Hs. rewrite (save_healthy _ _ Hs).
  destruct (prepare obj) as [e|data]; [discriminate|].
  intros [= <-]. now exists data.
Qed.

Lemma save_undefined_appends (obj r : value) (s s' : fsstate) :
  healthy s ->
  bind (_saveSettingsSync encrypt cfg obj) (fun _ => ret VUndef) s
  = (inr r, s') ->
  exists data,
    prepare obj = inr data /\ s' = saved (atomicSave cfg) data s.
Proof.
  intros Hs. unfold bind.
  destruct (_saveSettingsSync encrypt cfg obj s) as [[e|[]] s1] eqn:E;
    [discriminate|].
  intros [= _ <-]. exact (save_appends _ _ _ Hs E).
Qed.

Lemma load_creates (obj : value) (s s' : fsstate) :
  healthy s -> missing (nodes s) = true ->
  _loadSettingsSync encrypt decrypt cfg s = (inr obj, s') ->
  exists data,
    prepare (VObj []) = inr data
    /\ healthy s'
    /\ writes (trace s') = (writes (trace s) ++ [data])%list.
Proof.
  intros Hs Hm. rewrite (load_healthy _ Hs).
  assert (H : forall data,
             (reconstruct (payload (env s) data),
              log IoRead
                (saved (atomicSave cfg) data (log (IoStat File) s)))
             = (inr obj, s') ->
             exists data0,
               inr data = inr data0 (A := error)
               /\ healthy s'
               /\ writes (trace s') = (writes (trace s) ++ [data0])%list).
  { intros data [= _ <-]. exists data. split; [reflexivity|].
    split; [exact Hs|].
    rewrite writes_log by discriminate. rewrite writes_saved.
    now rewrite writes_log by discriminate. }
  destruct (nodes s); try discriminate;
    destruct (prepare (VObj [])) as [e|data]; try discriminate;
    apply H.
Qed.



Lemma getSync_creates (args : list value) (r : value) (s s' : fsstate) :
  healthy s -> missing (nodes s) = true ->
  getSync encrypt decrypt cfg args s = (inr r, s') ->
  exists data,
    prepare (VObj []) = inr data
    /\ writes (trace s') = (writes (trace s) ++ [data])%list.
Proof.
  intros Hs Hm. unfold getSync, _getValueAtKeyPathSync, bind.
  destruct (_loadSettingsSync encrypt decrypt cfg s) as [[e|obj] s1] eqn:E;
    [discriminate|].
  destruct (load_creates _ _ _ Hs Hm E) as (data & Hp & _ & Hw).
  unfold ret. destruct (truthy (arg 0 _)); intros [= _ <-]; eauto.
Qed.

Lemma hasSync_creates (args : list value) (r : value) (s s' : fsstate) :
  healthy s -> missing (nodes s) = true ->
  hasSync encrypt decrypt cfg args s = (inr r, s') ->
  exists data,
    prepare (VObj []) = inr data
    /\ writes (trace s') = (writes (trace s) ++ [data])%list.
Proof.
  intros Hs Hm. unfold hasSync, _hasKeyPathSync, bind.
  destruct (truthy (isKeyPath (arg 0 args))); [|discriminate].
  destruct (_loadSettingsSync encrypt decrypt cfg s) as [[e|obj] s1] eqn:E;
    [discriminate|].
  destruct (load_creates _ _ _ Hs Hm E) as (data & Hp & _ & Hw).
  intros [= _ <-]; eauto.
Qed.

Lemma load_save_creates (obj' : value -> value) (r : value)
    (s s' : fsstate) :
  healthy s -> missing (nodes s) = true ->
  bind (_loadSettingsSync encrypt decrypt cfg)
    (fun obj =>
       bind (_saveSettingsSync encrypt cfg (obj' obj))
         (fun _ => ret VUndef)) s
  = (inr r, s') ->
  exists data data',
    prepare (VObj []) = inr data
    /\ writes (trace s') = (writes (trace s) ++ [data; data'])%list.
Proof.
  intros Hs Hm. unfold bind at 1.
  destruct (_loadSettingsSync encrypt decrypt cfg s) as [[e|obj] s1] eqn:E;
    [discriminate|].
  destruct (load_creates _ _ _ Hs Hm E) as (data & Hp & Hs1 & Hw).
  intros E'.
  destruct (save_undefined_appends _ _ _ _ Hs1 E') as (data' & _ & ->).
  exists data, data'. split; [exact Hp|].
  rewrite writes_saved, Hw, <- app_assoc. reflexivity.
Qed.

Lemma deleteSync_creates (args : list value) (r : value) (s s' : fsstate) :
  healthy s -> missing (nodes s) = true ->
  deleteSync encrypt decrypt cfg args s = (inr r, s') ->
  exists data data',
    prepare (VObj []) = inr data
    /\ writes (trace s') = (writes (trace s) ++ [data; data'])%list.
Proof.
  intros Hs Hm. unfold deleteSync, _deleteValueAtKeyPathSync.
  destruct (truthy (isKeyPath (arg 0 args))); [|discriminate].
  now apply load_save_creates.
Qed.

Lemma setSync_creates (args : list value) (r : value) (s s' : fsstate) :
  healthy s -> missing (nodes s) = true ->
  valid_key_path (arg 0 args) ->
  truthy (flattenKeyPath (arg 0 args)) = true ->
  setSync encrypt decrypt cfg args s = (inr r, s') ->
  exists data data',
    prepare (VObj []) = inr data
    /\ writes (trace s') = (writes (trace s) ++ [data; data'])%list.
Proof.
  intros Hs Hm Hv Ht. apply isKeyPath_valid in Hv.
  unfold setSync, _setValueAtKeyPathSync. rewrite Hv.
  change (arg 0 (splice_flat args)) with (flattenKeyPath (arg 0 args)).
  rewrite Ht. now apply load_save_creates.
Qed.

Lemma setSync_whole_writes_once (args : list value) (r : value)
    (s s' : fsstate) :
  healthy s ->
  ~ valid_key_path (arg 0 args) ->
  setSync encrypt decrypt cfg args s = (inr r, s') ->
  exists data,
    prepare (arg 0 args) = inr data
    /\ writes (trace s') = (writes (trace s) ++ [data])%list.
Proof.
  intros Hs Hv. apply isKeyPath_invalid in Hv.
  rewrite (setSync_whole _ _ Hv). intros E.
  destruct (save_undefined_appends _ _ _ _ Hs E) as (data & Hp & ->).
  exists data. split; [exact Hp | apply writes_saved].
Qed.

Lemma deliver_success (k : nat) (x : (error + value) * fsstate)
    (r : value) (s' : fsstate) :
  deliver k x = (Called k None r, s') -> x = (inr r, s').
Proof.
  destruct x as [[e|v] s1]; unfold deliver; simpl; [discriminate|].
  now intros [= <- <-].
Qed.


(** ** A write, then a read *)








End StoreFacts.

(* ================================================================= *)
(** * The properties of the specification *)

(** The stand-in cipher obeys the law of ciphers. *)
Lemma strip_prefix_append (k s : string) :
  JSON.strip_prefix k (k ++ s) = Some s.
Proof.
  induction k as [|c k IH]; simpl; [now destruct s|].
  now rewrite Ascii.eqb_refl.
Qed.

Lemma envelope_law : cipher_law Envelope.encrypt Envelope.decrypt.
Proof.
  intros algorithm key text enc [= <-]. unfold Envelope.decrypt.
  now rewrite !strip_prefix_append.
Qed.

(** ** Key paths *)

(** C5: [isKeyPath] accepts a value (its result is truthy) exactly when the
    value is a string or a non-empty array whose elements are all key
    paths, recursively; on every other value (a number, an object, the empty
    array) its result is falsy.  The result is [true], [false] or, for the
    empty array, [undefined]. *)
Theorem isKeyPath_accepts_key_paths :
  forall x : value,
    (truthy (isKeyPath x) = true <-> valid_key_path x)
    /\ (isKeyPath x = VBool true \/ isKeyPath x = VBool false
        \/ isKeyPath x = VUndef)
    /\ isKeyPath (VNum 42) = VBool false
    /\ isKeyPath (VObj []) = VBool false
    /\ isKeyPath (VArr []) = VUndef.
Proof.
  intros x. split; [apply isKeyPath_valid|].
  split; [apply isKeyPath_range|]. repeat split.
Qed.

(** C6: [flattenKeyPath] returns a string unchanged, and turns an array that
    is a key path into the flattened forms of its elements, in order, joined
    by dots; so ['a','b'] becomes 'a.b' and [['a','b'],'c'] becomes 'a.b.c',
    and [set] and [setSync] on the array do what they do on the dotted
    string. *)
Theorem flattenKeyPath_joins_with_dots :
  forall items : list value,
    valid_key_path (VArr items) ->
    (exists parts,
        Forall2 (fun x p => flattenKeyPath x = VStr p) items parts
        /\ flattenKeyPath (VArr items) = VStr (join "." parts))
    /\ (forall p, flattenKeyPath (VStr p) = VStr p)
    /\ flattenKeyPath (VArr [VStr "a"; VStr "b"]) = VStr "a.b"
    /\ flattenKeyPath (VArr [VArr [VStr "a"; VStr "b"]; VStr "c"])
       = VStr "a.b.c"
    /\ (forall encrypt decrypt cfg v rest s,
           setSync encrypt decrypt cfg (VArr items :: v :: rest) s
           = setSync encrypt decrypt cfg
               (flattenKeyPath (VArr items) :: v :: rest) s
           /\ set encrypt decrypt cfg (VArr items :: v :: rest) s
              = set encrypt decrypt cfg
                  (flattenKeyPath (VArr items) :: v :: rest) s).
Proof.
  intros items Hv. split; [|repeat split].
  - apply valid_array_iff in Hv as [_ Hv].
    destruct (flattenKeyPath_join items Hv) as (parts & H1 & H2).
    exists parts. split; [exact H1|]. simpl. now rewrite H2.
  - unfold setSync. apply isKeyPath_valid in Hv.
    change (arg 0 (VArr items :: v :: rest)) with (VArr items).
    change (arg 0 (flattenKeyPath (VArr items) :: v :: rest))
      with (flattenKeyPath (VArr items)).
    rewrite Hv. reflexivity.
  - unfold set. apply isKeyPath_valid in Hv.
    change (arg 0 (VArr items :: v :: rest)) with (VArr items).
    change (arg 0 (flattenKeyPath (VArr items) :: v :: rest))
      with (flattenKeyPath (VArr items)).
    rewrite Hv. reflexivity.
Qed.

Lemma nested_array_flattens :
  valid_key_path (VArr [VArr [VStr "x"; VStr "y"]; VStr "z"])
  /\ exists parts,
      Forall2 (fun x p => flattenKeyPath x = VStr p)
        [VArr [VStr "x"; VStr "y"]; VStr "z"] parts
      /\ flattenKeyPath (VArr [VArr [VStr "x"; VStr "y"]; VStr "z"])
         = VStr (join "." parts).
Proof.
  assert (H : valid_key_path (VArr [VArr [VStr "x"; VStr "y"]; VStr "z"])).
  { apply isKeyPath_valid. reflexivity. }
  split; [exact H|].
  exact (proj1 (flattenKeyPath_joins_with_dots _ H)).
Defined.

(** ** The codec *)



(** ** Arguments that are no key path *)

(** C2, as the code has it: [has], [hasSync], [delete] and [deleteSync]
    called with a first argument that is no key path throw the invalid key
    path error to their caller at once, before any call to the file system
    and with the state untouched.  [set] and [setSync] do not throw: they
    take that argument for the new document and save it. *)
Theorem invalid_key_path_is_refused :
  forall encrypt decrypt (cfg : config) (args : list value) (s : fsstate),
    ~ valid_key_path (arg 0 args) ->
    hasSync encrypt decrypt cfg args s = (inl invalid_key_path, s)
    /\ has encrypt decrypt cfg args s = (Threw invalid_key_path, s)
    /\ deleteSync encrypt decrypt cfg args s = (inl invalid_key_path, s)
    /\ delete encrypt decrypt cfg args s = (Threw invalid_key_path, s)
    /\ setSync encrypt decrypt cfg args s
       = bind (_saveSettingsSync encrypt cfg (arg 0 args))
           (fun _ => ret VUndef) s
    /\ set encrypt decrypt cfg args s
       = _saveSettings encrypt cfg (arg 0 args)
           (err_only (callable (arg 1 args))) s.
Proof.
  intros encrypt decrypt cfg args s H. apply isKeyPath_invalid in H.
  unfold hasSync, has, deleteSync, delete. rewrite H.
  repeat split.
  - now apply setSync_whole.
  - now apply set_whole.
Qed.

Lemma number_is_no_key_path (n : Z) : ~ valid_key_path (VNum n).
Proof. inversion 1. Qed.

Lemma hasSync_refuses_a_number :
  ~ valid_key_path (arg 0 [VNum 42])
  /\ hasSync Envelope.encrypt Envelope.decrypt defaults [VNum 42]
       (fresh EmptyDir)
     = (inl invalid_key_path, fresh EmptyDir).
Proof.
  split; [apply number_is_no_key_path|].
  exact (proj1 (invalid_key_path_is_refused Envelope.encrypt Envelope.decrypt
                  defaults [VNum 42] (fresh EmptyDir)
                  (number_is_no_key_path 42))).
Defined.

(** C2 as stated fails for [setSync]: called with the number 42, which is no
    key path, it raises nothing and writes 42 to the file. *)
Lemma setSync_saves_what_is_no_key_path :
  ~ valid_key_path (VNum 42)
  /\ setSync Envelope.encrypt Envelope.decrypt defaults [VNum 42]
       (fresh EmptyDir)
     = (inr VUndef,
        {| env := fresh_host;
           nodes := HasFile "42";
           trace := [IoStat Dir; IoWrite true (Some "42")] |}).
Proof. split; [apply number_is_no_key_path | reflexivity]. Qed.

(** ** The two calling conventions *)

(** C3, as the code has it: when the key path argument is a key path, or is
    left out where that is allowed ([get] without a key path, [set] given
    the new document alone), the callback method passes to the caller's
    callback exactly the value that the blocking method returns, or exactly
    the error that it throws, and leaves the same state; [has] and [delete]
    given something that is no key path throw the same error in both
    forms. *)
Theorem calling_conventions_agree :
  forall encrypt decrypt (cfg : config) (s : fsstate) (k : nat),
    get encrypt decrypt cfg [VFun k] s
    = deliver k (getSync encrypt decrypt cfg [] s)
    /\ (forall p, valid_key_path p ->
        get encrypt decrypt cfg [p; VFun k] s
        = deliver k (getSync encrypt decrypt cfg [p] s))
    /\ (forall p, valid_key_path p ->
        has encrypt decrypt cfg [p; VFun k] s
        = deliver k (hasSync encrypt decrypt cfg [p] s))
    /\ (forall x, ~ valid_key_path x ->
        hasSync encrypt decrypt cfg [x] s = (inl invalid_key_path, s)
        /\ has encrypt decrypt cfg [x; VFun k] s
           = (Threw invalid_key_path, s))
    /\ (forall p v, valid_key_path p ->
        set encrypt decrypt cfg [p; v; VFun k] s
        = deliver k (setSync encrypt decrypt cfg [p; v] s))
    /\ (forall x, ~ valid_key_path x ->
        set encrypt decrypt cfg [x; VFun k] s
        = deliver k (setSync encrypt decrypt cfg [x] s))
    /\ (forall p, valid_key_path p ->
        delete encrypt decrypt cfg [p; VFun k] s
        = deliver k (deleteSync encrypt decrypt cfg [p] s))
    /\ (forall x, ~ valid_key_path x ->
        deleteSync encrypt decrypt cfg [x] s = (inl invalid_key_path, s)
        /\ delete encrypt decrypt cfg [x; VFun k] s
           = (Threw invalid_key_path, s)).
Proof.
  intros encrypt decrypt cfg s k. repeat apply conj.
  - apply get_ends_omitted.
  - intros p H. now apply get_ends.
  - intros p H. now apply has_ends.
  - intros x H. apply isKeyPath_invalid in H. unfold hasSync, has.
    change (arg 0 [x]) with x. change (arg 0 [x; VFun k]) with x.
    now rewrite H.
  - intros p v H. now apply set_ends.
  - intros x H. now apply set_ends_whole.
  - intros p H. now apply delete_ends.
  - intros x H. apply isKeyPath_invalid in H. unfold deleteSync, delete.
    change (arg 0 [x]) with x. change (arg 0 [x; VFun k]) with x.
    now rewrite H.
Qed.

Lemma set_agrees_with_setSync_on_caesar :
  valid_key_path (VStr "name.last")
  /\ set Envelope.encrypt Envelope.decrypt defaults
       [VStr "name.last"; VStr "Caesar"; VFun 1] (fresh NoDir)
     = deliver 1
         (setSync Envelope.encrypt Envelope.decrypt defaults
            [VStr "name.last"; VStr "Caesar"] (fresh NoDir)).
Proof.
  split; [constructor|].
  destruct (calling_conventions_agree Envelope.encrypt Envelope.decrypt
              defaults (fresh NoDir) 1) as (_ & _ & _ & _ & H & _).
  apply H. constructor.
Defined.

(** C3 as stated fails for [get]: given the number 42 where the key path
    goes, [getSync] returns the whole document, while [get] takes 42 for
    its callback, never reaches the caller's callback and ends in an
    uncaught [TypeError]. *)
Lemma get_differs_from_getSync_on_a_number :
  getSync Envelope.encrypt Envelope.decrypt defaults [VNum 42]
    (fresh (HasFile "{}"))
  = (inr (VObj []),
     {| env := fresh_host;
        nodes := HasFile "{}";
        trace := [IoStat File; IoRead] |})
  /\ get Envelope.encrypt Envelope.decrypt defaults [VNum 42; VFun 0]
       (fresh (HasFile "{}"))
     = (Uncaught not_a_function,
        {| env := fresh_host;
           nodes := HasFile "{}";
           trace := [IoStat File; IoRead] |}).
Proof. split; reflexivity. Qed.

(** ** Calls without a key path *)

Lemma undefined_is_no_key_path : ~ valid_key_path VUndef.
Proof. inversion 1. Qed.

Lemma function_is_no_key_path (k : nat) : ~ valid_key_path (VFun k).
Proof. inversion 1. Qed.

(** C10, as the code has it: [getSync] whose first argument is the empty
    string or no key path returns the whole document, and so does [get]
    given the empty string, or given its callback as first argument; [set]
    and [setSync] whose first argument is the empty string replace the whole
    document by their second argument, and given a first argument that is
    no key path they replace it by that argument.  On a healthy host the
    whole document is what the file decodes to, and after the replacement
    the file decodes to the new document. *)
Theorem no_key_path_means_whole_document :
  forall encrypt decrypt,
    cipher_law encrypt decrypt ->
    forall (cfg : config) (s : fsstate),
      (forall args,
          arg 0 args = VStr "" \/ ~ valid_key_path (arg 0 args) ->
          getSync encrypt decrypt cfg args s
          = _loadSettingsSync encrypt decrypt cfg s)
      /\ (forall k rest,
             get encrypt decrypt cfg (VStr "" :: VFun k :: rest) s
             = deliver k (_loadSettingsSync encrypt decrypt cfg s))
      /\ (forall k rest,
             get encrypt decrypt cfg (VFun k :: rest) s
             = deliver k (_loadSettingsSync encrypt decrypt cfg s))
      /\ (forall data,
             healthy s -> nodes s = HasFile data ->
             fst (_loadSettingsSync encrypt decrypt cfg s)
             = _reconstructSettingsData decrypt cfg data)
      /\ (forall v rest,
             setSync encrypt decrypt cfg (VStr "" :: v :: rest) s
             = bind (_saveSettingsSync encrypt cfg v) (fun _ => ret VUndef) s)
      /\ (forall args,
             ~ valid_key_path (arg 0 args) ->
             setSync encrypt decrypt cfg args s
             = bind (_saveSettingsSync encrypt cfg (arg 0 args))
                 (fun _ => ret VUndef) s)
      /\ (forall v k rest,
             set encrypt decrypt cfg (VStr "" :: v :: VFun k :: rest) s
             = deliver k
                 (bind (_saveSettingsSync encrypt cfg v)
                    (fun _ => ret VUndef) s))
      /\ (forall x k rest,
             ~ valid_key_path x ->
             set encrypt decrypt cfg (x :: VFun k :: rest) s
             = deliver k
                 (bind (_saveSettingsSync encrypt cfg x)
                    (fun _ => ret VUndef) s))
      /\ (forall x s',
             healthy s -> json_representable x = true ->
             bind (_saveSettingsSync encrypt cfg x) (fun _ => ret VUndef) s
             = (inr VUndef, s') ->
             exists bytes,
               nodes s' = HasFile bytes
               /\ _reconstructSettingsData decrypt cfg bytes = inr x).
Proof.
  intros encrypt decrypt Hlaw cfg s. repeat apply conj.
  - intros args [H|H]; apply getSync_whole; [now left | right].
    now apply isKeyPath_invalid.
  - intros k rest. rewrite get_ends by constructor.
    f_equal. apply getSync_whole. now left.
  - intros k rest. rewrite get_ends_omitted.
    f_equal. apply getSync_whole. now right.
  - intros data Hs Hn. now rewrite (load_reads _ _ _ _ _ Hs Hn).
  - reflexivity.
  - intros args H. apply setSync_whole. now apply isKeyPath_invalid.
  - intros v k rest. rewrite set_ends by constructor. reflexivity.
  - intros x k rest H. rewrite (set_ends_whole _ _ _ _ _ _ _ H).
    f_equal. apply setSync_whole. now apply isKeyPath_invalid.
  - intros x s' Hs Hj E.
    destruct (save_replaces _ _ _ _ _ _ _ Hlaw Hs Hj E) as (bytes & -> & _ & Hr).
    now exists bytes.
Qed.

Lemma getSync_of_empty_array_loads_all :
  cipher_law Envelope.encrypt Envelope.decrypt
  /\ ~ valid_key_path (arg 0 [VArr []])
  /\ getSync Envelope.encrypt Envelope.decrypt defaults [VArr []]
       (fresh (HasFile "[1,2]"))
     = _loadSettingsSync Envelope.encrypt Envelope.decrypt defaults
         (fresh (HasFile "[1,2]")).
Proof.
  assert (H : ~ valid_key_path (arg 0 [VArr []])).
  { intros H. apply isKeyPath_valid in H. discriminate H. }
  split; [exact envelope_law|]. split; [exact H|].
  destruct (no_key_path_means_whole_document _ _ envelope_law defaults
              (fresh (HasFile "[1,2]"))) as (Hget & _).
  apply Hget. now right.
Defined.

(** C10 as stated fails for [get]: with [null] as first argument and a
    callback after it, [get] takes [null] for its callback; the whole
    document, which [getSync] returns, never reaches the caller's callback
    and the call ends in an uncaught [TypeError]. *)
Lemma get_loses_the_callback_behind_null :
  ~ valid_key_path VNull
  /\ fst (getSync Envelope.encrypt Envelope.decrypt defaults [VNull]
            (fresh (HasFile "[1,2]")))
     = inr (VArr [VNum 1; VNum 2])
  /\ fst (get Envelope.encrypt Envelope.decrypt defaults [VNull; VFun 0]
            (fresh (HasFile "[1,2]")))
     = Uncaught not_a_function.
Proof. split; [inversion 1 | split; reflexivity]. Qed.

(** ** Pretty printing *)

(** C9, as the code has it: encoding serializes the document to JSON text
    whose indentation step is [numSpaces] spaces, but at most ten, when
    [prettify] is set, and which has no indentation and no line break when
    it is not; the text is then encrypted if a key is configured.  With
    [prettify] set and [numSpaces] 4, [setSync('foo', 'bar')] on a store
    that has no file yet leaves the object with its member on a line of its
    own, four spaces in. *)
Theorem encoding_indents_by_capped_width :
  forall encrypt (cfg : config) (obj : value),
    _prepareSettingsData encrypt cfg obj
    = seal encrypt cfg
        (JSON.indented
           (if prettify cfg then Nat.min (numSpaces cfg) 10 else 0) obj)
    /\ (forall text,
           JSON.indented 0 obj = Some text -> mentions "010" text = false)
    /\ (forall width k x props sx,
           width <> 0 ->
           JSON.serialize width width x = Some sx ->
           exists rest,
             JSON.indented width (VObj ((k, x) :: props))
             = Some ("{" ++ JSON.nl ++ JSON.spaces width
                         ++ JSON.quote k ++ ": " ++ sx ++ rest))
    /\ (forall decrypt,
           nodes (snd (setSync encrypt decrypt (pretty 4)
                         [VStr "foo"; VStr "bar"] (fresh NoDir)))
           = HasFile ("{" ++ JSON.nl ++ "    " ++ JSON.quote "foo" ++ ": "
                          ++ JSON.quote "bar" ++ JSON.nl ++ "}")).
Proof.
  intros encrypt cfg obj. repeat apply conj.
  - unfold _prepareSettingsData, seal, JSON.stringify, _encryptData.
    destruct (prettify cfg); destruct (has_key cfg); try reflexivity;
      destruct (JSON.indented _ obj) as [text|]; try reflexivity;
      destruct (encrypt _ _ text); reflexivity.
  - intros text. apply JSONFacts.serialize_one_line.
  - intros width k x props sx. apply JSONFacts.indented_object_head.
  - intros decrypt. reflexivity.
Qed.

Lemma four_spaces_before_a_member :
  4 <> 0
  /\ JSON.serialize 4 4 (VNum 1) = Some "1"
  /\ exists rest,
      JSON.indented 4 (VObj [("n", VNum 1)])
      = Some ("{" ++ JSON.nl ++ JSON.spaces 4
                  ++ JSON.quote "n" ++ ": " ++ "1" ++ rest).
Proof.
  split; [discriminate|]. split; [reflexivity|].
  destruct (encoding_indents_by_capped_width Envelope.encrypt (pretty 4)
              VNull) as (_ & _ & H & _).
  apply H; [discriminate | reflexivity].
Defined.

(** C9 as stated fails when [numSpaces] exceeds ten: with [numSpaces] 12
    the text is indented by ten spaces, not by twelve. *)
Lemma indentation_stops_at_ten :
  _prepareSettingsData Envelope.encrypt (pretty 12) foo_bar
  = inr (JSON.indented 10 foo_bar)
  /\ _prepareSettingsData Envelope.encrypt (pretty 12) foo_bar
     <> inr (JSON.indented 12 foo_bar).
Proof. split; [reflexivity | discriminate]. Qed.

(** ** Failures *)

(** C8: when the bytes of the file do not decode (they are no JSON, or the
    cipher rejects them), [set] with a key path that is not empty and
    [delete], in both forms, end with an error and write nothing: the file
    keeps its bytes.  On a healthy host the error is the one of the
    decoder.  ([set] with the empty key path loads nothing: it saves its
    value, as [set] without key path does.) *)
Theorem decode_failure_writes_nothing :
  forall encrypt decrypt (cfg : config) (s : fsstate) (data : string)
         (e : error) (p : value),
    nodes s = HasFile data ->
    _reconstructSettingsData decrypt cfg data = inl e ->
    valid_key_path p ->
    (truthy (flattenKeyPath p) = true ->
     forall v k,
     exists e' s',
       setSync encrypt decrypt cfg [p; v] s = (inl e', s')
       /\ set encrypt decrypt cfg [p; v; VFun k] s
          = (Called k (Some e') VUndef, s')
       /\ nodes s' = HasFile data
       /\ untouched s s'
       /\ (healthy s -> e' = e))
    /\ (truthy (flattenKeyPath p) = false ->
        forall v,
          setSync encrypt decrypt cfg [p; v] s
          = bind (_saveSettingsSync encrypt cfg v) (fun _ => ret VUndef) s)
    /\ (forall k,
        exists e' s',
          deleteSync encrypt decrypt cfg [p] s = (inl e', s')
          /\ delete encrypt decrypt cfg [p; VFun k] s
             = (Called k (Some e') VUndef, s')
          /\ nodes s' = HasFile data
          /\ untouched s s'
          /\ (healthy s -> e' = e)).
Proof.
  intros encrypt decrypt cfg s data e p Hn He Hp. repeat apply conj.
  - intros Ht v k.
    destruct (setSync_decode_failure encrypt decrypt cfg s data e p v
                Hn He Hp Ht) as (e' & s' & E & Hu & Hh).
    exists e', s'. split; [exact E|]. split.
    + rewrite (set_ends encrypt decrypt cfg p v k [] s Hp), E. reflexivity.
    + split; [destruct Hu as [Hu _]; congruence | now split].
  - intros Ht v. now apply setSync_empty_path.
  - intros k.
    destruct (deleteSync_decode_failure encrypt decrypt cfg s data e p
                Hn He Hp) as (e' & s' & E & Hu & Hh).
    exists e', s'. split; [exact E|]. split.
    + rewrite (delete_ends encrypt decrypt cfg p k [] s Hp), E. reflexivity.
    + split; [destruct Hu as [Hu _]; congruence | now split].
Qed.

Lemma deleteSync_keeps_a_broken_file :
  nodes (fresh (HasFile "{oops")) = HasFile "{oops"
  /\ _reconstructSettingsData Envelope.decrypt defaults "{oops"
     = inl SyntaxError
  /\ valid_key_path (VStr "foo")
  /\ forall k,
      exists e' s',
        deleteSync Envelope.encrypt Envelope.decrypt defaults [VStr "foo"]
          (fresh (HasFile "{oops")) = (inl e', s')
        /\ delete Envelope.encrypt Envelope.decrypt defaults
             [VStr "foo"; VFun k] (fresh (HasFile "{oops"))
           = (Called k (Some e') VUndef, s')
        /\ nodes s' = HasFile "{oops"
        /\ untouched (fresh (HasFile "{oops")) s'
        /\ (healthy (fresh (HasFile "{oops")) -> e' = SyntaxError).
Proof.
  split; [reflexivity|]. split; [reflexivity|]. split; [constructor|].
  exact (proj2 (proj2 (decode_failure_writes_nothing Envelope.encrypt
                         Envelope.decrypt defaults (fresh (HasFile "{oops"))
                         "{oops" SyntaxError (VStr "foo") eq_refl eq_refl
                         (valid_string "foo")))).
Defined.

(** ** The settings file *)

(** C7, as the code has it.  When the file is not there, and [stat] fails
    for no other reason, [_ensureSettingsFileSync] saves the empty object;
    when [stat] fails for another reason, that error is thrown; the callback
    form ends as the blocking form does.  So on a healthy host the methods
    that load the document ([get], [has], [delete], and [set] with a key
    path that is not empty) first write the empty object to a store that
    has no file; [set] without a key path writes the given document alone.
    After every method that ended without error the file exists. *)
Theorem settings_file_is_created_on_the_way :
  forall encrypt decrypt (cfg : config) (s : fsstate),
    (fault (env s) (SysStat File) = None ->
     (missing (nodes s) = true ->
      _ensureSettingsFileSync encrypt cfg s
      = _saveSettingsSync encrypt cfg (VObj []) (log (IoStat File) s))
     /\ (missing (nodes s) = false ->
         _ensureSettingsFileSync encrypt cfg s
         = (inr tt, log (IoStat File) s)))
    /\ (forall f,
           fault (env s) (SysStat File) = Some f ->
           _ensureSettingsFileSync encrypt cfg s
           = (inl (SystemError (Errno f)), log (IoStat File) s))
    /\ (forall k,
           _ensureSettingsFile encrypt cfg (err_only (callable (VFun k))) s
           = let (r, s') := _ensureSettingsFileSync encrypt cfg s in
             (Called k (error_of r) VUndef, s'))
    /\ (healthy s -> missing (nodes s) = true ->
        forall args r s',
          (getSync encrypt decrypt cfg args s = (inr r, s')
           \/ hasSync encrypt decrypt cfg args s = (inr r, s') ->
           exists data,
             _prepareSettingsData encrypt cfg (VObj []) = inr data
             /\ writes (trace s') = (writes (trace s) ++ [data])%list)
          /\ (deleteSync encrypt decrypt cfg args s = (inr r, s')
              \/ (valid_key_path (arg 0 args)
                  /\ truthy (flattenKeyPath (arg 0 args)) = true
                  /\ setSync encrypt decrypt cfg args s = (inr r, s')) ->
              exists data data',
                _prepareSettingsData encrypt cfg (VObj []) = inr data
                /\ writes (trace s')
                   = (writes (trace s) ++ [data; data'])%list))
    /\ (healthy s ->
        forall args r s',
          ~ valid_key_path (arg 0 args) ->
          setSync encrypt decrypt cfg args s = (inr r, s') ->
          exists data,
            _prepareSettingsData encrypt cfg (arg 0 args) = inr data
            /\ writes (trace s') = (writes (trace s) ++ [data])%list)
    /\ (forall args r s',
           getSync encrypt decrypt cfg args s = (inr r, s')
           \/ hasSync encrypt decrypt cfg args s = (inr r, s')
           \/ setSync encrypt decrypt cfg args s = (inr r, s')
           \/ deleteSync encrypt decrypt cfg args s = (inr r, s') ->
           file_exists s')
    /\ (forall p v k r s',
           valid_key_path p ->
           get encrypt decrypt cfg [VFun k] s = (Called k None r, s')
           \/ get encrypt decrypt cfg [p; VFun k] s = (Called k None r, s')
           \/ has encrypt decrypt cfg [p; VFun k] s = (Called k None r, s')
           \/ set encrypt decrypt cfg [p; v; VFun k] s
              = (Called k None r, s')
           \/ delete encrypt decrypt cfg [p; VFun k] s
              = (Called k None r, s') ->
           file_exists s').
Proof.
  intros encrypt decrypt cfg s. repeat apply conj.
  - intros Hf. split; intros Hm.
    + now apply ensureFile_missing.
    + now apply ensureFile_present.
  - intros f. apply ensureFile_failure.
  - intros k. rewrite ensureFile_ends; [reflexivity|].
    intros err. apply quiet_caller.
  - intros Hs Hm args r s'. split.
    + intros [E|E].
      * exact (getSync_creates _ _ _ _ _ _ _ Hs Hm E).
      * exact (hasSync_creates _ _ _ _ _ _ _ Hs Hm E).
    + intros [E|(Hv & Ht & E)].
      * exact (deleteSync_creates _ _ _ _ _ _ _ Hs Hm E).
      * exact (setSync_creates _ _ _ _ _ _ _ Hs Hm Hv Ht E).
  - intros Hs args r s' Hv E.
    exact (setSync_whole_writes_once _ _ _ _ _ _ _ Hs Hv E).
  - intros args r s' [E|[E|[E|E]]].
    + exact (getSync_success_file _ _ _ _ _ _ _ E).
    + exact (hasSync_success_file _ _ _ _ _ _ _ E).
    + exact (setSync_success_file _ _ _ _ _ _ _ E).
    + exact (deleteSync_success_file _ _ _ _ _ _ _ E).
  - intros p v k r s' Hv [E|[E|[E|[E|E]]]].
    + rewrite get_ends_omitted in E. apply deliver_success in E.
      exact (getSync_success_file _ _ _ _ _ _ _ E).
    + rewrite (get_ends _ _ _ _ _ _ _ Hv) in E. apply deliver_success in E.
      exact (getSync_success_file _ _ _ _ _ _ _ E).
    + rewrite (has_ends _ _ _ _ _ _ _ Hv) in E. apply deliver_success in E.
      exact (hasSync_success_file _ _ _ _ _ _ _ E).
    + rewrite (set_ends _ _ _ _ _ _ _ _ Hv) in E. apply deliver_success in E.
      exact (setSync_success_file _ _ _ _ _ _ _ E).
    + rewrite (delete_ends _ _ _ _ _ _ _ Hv) in E. apply deliver_success in E.
      exact (deleteSync_success_file _ _ _ _ _ _ _ E).
Qed.

Lemma fresh_is_healthy (d : disk) : healthy (fresh d).
Proof. intros c. reflexivity. Qed.

Lemma getSync_writes_the_empty_object_first :
  healthy (fresh NoDir)
  /\ missing (nodes (fresh NoDir)) = true
  /\ exists data,
      _prepareSettingsData Envelope.encrypt defaults (VObj []) = inr data
      /\ writes (trace (snd (getSync Envelope.encrypt Envelope.decrypt
                                defaults [] (fresh NoDir))))
         = (writes (trace (fresh NoDir)) ++ [data])%list.
Proof.
  split; [apply fresh_is_healthy|]. split; [reflexivity|].
  destruct (settings_file_is_created_on_the_way Envelope.encrypt
              Envelope.decrypt defaults (fresh NoDir))
    as (_ & _ & _ & H & _).
  refine (proj1 (H (fresh_is_healthy NoDir) eq_refl [] (VObj []) _) _).
  left. reflexivity.
Defined.

(** C7 as stated fails for [set] without a key path: on a store that has
    neither directory nor file, [setSync(true)] writes the document [true]
    and at no time the empty object. *)
Lemma whole_document_set_writes_no_empty_object :
  missing (nodes (fresh NoDir)) = true
  /\ setSync Envelope.encrypt Envelope.decrypt defaults [VBool true]
       (fresh NoDir)
     = (inr VUndef,
        {| env := fresh_host;
           nodes := HasFile "true";
           trace := [IoStat Dir; IoMkdirp; IoWrite true (Some "true")] |}).
Proof. split; reflexivity. Qed.

(** ** A write, then a read *)





(** The scenario of the specification: on an empty store,
    [setSync('name.last', 'Caesar')], then [getSync('name.last')] and
    [hasSync('name.first')]. *)
Example caesar :
  let s := snd (setSync Envelope.encrypt Envelope.decrypt defaults
                  [VStr "name.last"; VStr "Caesar"] (fresh NoDir)) in
  nodes s
  = HasFile ("{" ++ JSON.quote "name" ++ ":{" ++ JSON.quote "last" ++ ":"
                 ++ JSON.quote "Caesar" ++ "}}")
  /\ fst (getSync Envelope.encrypt Envelope.decrypt defaults
            [VStr "name.last"] s) = inr (VStr "Caesar")
  /\ fst (hasSync Envelope.encrypt Envelope.decrypt defaults
            [VStr "name.first"] s) = inr (VBool false).
Proof. repeat split. Qed.

(* ================================================================= *)
(** * Further properties of the code *)

(** ** Key paths *)

Lemma join_app (sep : string) (xs ys : list string) :
  xs <> [] -> ys <> [] ->
  join sep (xs ++ ys)%list = join sep xs ++ sep ++ join sep ys.
Proof.
  intros Hx Hy. induction xs as [|x [|x' xs] IH]; [congruence| |].
  - destruct ys; [congruence | reflexivity].
  - change (join sep ((x :: x' :: xs) ++ ys)%list)
      with (x ++ sep ++ join sep ((x' :: xs) ++ ys)%list).
    rewrite IH by discriminate.
    rewrite JSONFacts.join_cons2, !JSONFacts.append_assoc. reflexivity.
Qed.

Lemma join_nest (sep : string) (pre l post : list string) :
  l <> [] ->
  join sep (pre ++ join sep l :: post)%list = join sep (pre ++ l ++ post)%list.
Proof.
  intros Hl.
  assert (H0 : join sep (join sep l :: post) = join sep (l ++ post)%list).
  { destruct post as [|y post].
    - rewrite app_nil_r. reflexivity.
    - rewrite JSONFacts.join_cons2.
      rewrite join_app; [reflexivity | assumption | discriminate]. }
  destruct pre as [|x pre]; [exact H0|].
  rewrite (join_app sep (x :: pre) (join sep l :: post)) by discriminate.
  rewrite (join_app sep (x :: pre) (l ++ post)).
  - now rewrite H0.
  - discriminate.
  - destruct l; [congruence | discriminate].
Qed.

Lemma flattenKeyPath_array (items : list value) :
  flattenKeyPath (VArr items)
  = VStr (join_values "." (map flattenKeyPath items)).
Proof. reflexivity. Qed.

Lemma map_nonempty {A B : Type} (f : A -> B) (l : list A) :
  l <> [] -> map f l <> [].
Proof. destruct l; [congruence | discriminate]. Qed.

(** X1: nesting does not matter to [flattenKeyPath].  An inner array that is
    not empty can be replaced by its elements: the flattened key path stays
    the same, and so does the answer of [isKeyPath]. *)
Theorem flattenKeyPath_ignores_nesting :
  forall pre xs post : list value,
    xs <> [] ->
    flattenKeyPath (VArr (pre ++ VArr xs :: post))
    = flattenKeyPath (VArr (pre ++ xs ++ post))
    /\ truthy (isKeyPath (VArr (pre ++ VArr xs :: post)))
       = truthy (isKeyPath (VArr (pre ++ xs ++ post))).
Proof.
  intros pre xs post Hx. split.
  - rewrite !flattenKeyPath_array. f_equal.
    rewrite !map_app. cbn [map]. rewrite flattenKeyPath_array.
    unfold join_values. rewrite !map_app. cbn [map to_string].
    apply join_nest. now repeat apply map_nonempty.
  - apply Bool.eq_iff_eq_true. rewrite !isKeyPath_valid, !valid_array_iff.
    rewrite !Forall_app, Forall_cons_iff, valid_array_iff.
    split.
    + intros (_ & Hpre & (_ & Hxs) & Hpost). split; [|tauto].
      destruct pre; [destruct xs; [congruence | discriminate] | discriminate].
    + intros (_ & Hpre & Hxs & Hpost). split; [|tauto].
      destruct pre; discriminate.
Qed.

Lemma inner_array_is_unwrapped :
  [VStr "b"; VStr "c"] <> []
  /\ flattenKeyPath (VArr ([VStr "a"] ++ VArr [VStr "b"; VStr "c"] :: []))
     = flattenKeyPath (VArr ([VStr "a"] ++ [VStr "b"; VStr "c"] ++ [])).
Proof.
  split; [discriminate|].
  exact (proj1 (flattenKeyPath_ignores_nesting [VStr "a"]
                  [VStr "b"; VStr "c"] [] ltac:(discriminate))).
Defined.

(** X2: a key path built from two parts.  The array that lists the elements
    of two arrays, none of them empty, flattens to the two flattened paths
    with a dot in between, and it is a key path exactly when both are. *)
Theorem flattenKeyPath_of_two_parts :
  forall xs ys : list value,
    xs <> [] -> ys <> [] ->
    exists a b,
      flattenKeyPath (VArr xs) = VStr a
      /\ flattenKeyPath (VArr ys) = VStr b
      /\ flattenKeyPath (VArr (xs ++ ys)) = VStr (a ++ "." ++ b)
      /\ truthy (isKeyPath (VArr (xs ++ ys)))
         = truthy (isKeyPath (VArr xs)) && truthy (isKeyPath (VArr ys)).
Proof.
  intros xs ys Hx Hy.
  exists (join_values "." (map flattenKeyPath xs)),
    (join_values "." (map flattenKeyPath ys)).
  split; [reflexivity|]. split; [reflexivity|]. split.
  - rewrite flattenKeyPath_array. f_equal. unfold join_values.
    rewrite !map_app. apply join_app; now repeat apply map_nonempty.
  - apply Bool.eq_iff_eq_true.
    rewrite Bool.andb_true_iff, !isKeyPath_valid, !valid_array_iff.
    rewrite Forall_app. split; [tauto|].
    intros ((_ & H1) & _ & H2). split; [|tauto].
    destruct xs; [congruence | discriminate].
Qed.

Lemma two_parts_make_one_path :
  [VStr "foo"] <> [] /\ [VStr "bar"; VStr "baz"] <> []
  /\ exists a b,
      flattenKeyPath (VArr [VStr "foo"]) = VStr a
      /\ flattenKeyPath (VArr [VStr "bar"; VStr "baz"]) = VStr b
      /\ flattenKeyPath (VArr ([VStr "foo"] ++ [VStr "bar"; VStr "baz"]))
         = VStr (a ++ "." ++ b)
      /\ truthy (isKeyPath (VArr ([VStr "foo"] ++ [VStr "bar"; VStr "baz"])))
         = truthy (isKeyPath (VArr [VStr "foo"]))
           && truthy (isKeyPath (VArr [VStr "bar"; VStr "baz"])).
Proof.
  split; [discriminate|]. split; [discriminate|].
  exact (flattenKeyPath_of_two_parts [VStr "foo"] [VStr "bar"; VStr "baz"]
           ltac:(discriminate) ltac:(discriminate)).
Defined.

(** X3: the eight public methods read their key path through
    [flattenKeyPath] alone.  Two key paths that flatten to the same string
    are interchangeable as first argument; so ['a', 'b'], [['a'], ['b']],
    'a.b' and ['a.b'] all address the same place. *)
Theorem methods_take_the_flattened_key_path :
  forall encrypt decrypt (cfg : config) (p q : value) (rest : list value)
         (s : fsstate),
    valid_key_path p -> valid_key_path q ->
    flattenKeyPath p = flattenKeyPath q ->
    getSync encrypt decrypt cfg (p :: rest) s
    = getSync encrypt decrypt cfg (q :: rest) s
    /\ hasSync encrypt decrypt cfg (p :: rest) s
       = hasSync encrypt decrypt cfg (q :: rest) s
    /\ setSync encrypt decrypt cfg (p :: rest) s
       = setSync encrypt decrypt cfg (q :: rest) s
    /\ deleteSync encrypt decrypt cfg (p :: rest) s
       = deleteSync encrypt decrypt cfg (q :: rest) s
    /\ get encrypt decrypt cfg (p :: rest) s
       = get encrypt decrypt cfg (q :: rest) s
    /\ has encrypt decrypt cfg (p :: rest) s
       = has encrypt decrypt cfg (q :: rest) s
    /\ set encrypt decrypt cfg (p :: rest) s
       = set encrypt decrypt cfg (q :: rest) s
    /\ delete encrypt decrypt cfg (p :: rest) s
       = delete encrypt decrypt cfg (q :: rest) s.
Proof.
  intros encrypt decrypt cfg p q rest s Hp Hq E.
  apply isKeyPath_valid in Hp, Hq.
  unfold getSync, hasSync, setSync, deleteSync, get, has, set, delete,
    splice_flat.
  change (arg 0 (p :: rest)) with p. change (arg 0 (q :: rest)) with q.
  rewrite Hp, Hq, E. repeat split.
Qed.

Lemma array_and_dotted_string_address_the_same :
  valid_key_path (VArr [VStr "a"; VStr "b"])
  /\ valid_key_path (VArr [VStr "a.b"])
  /\ flattenKeyPath (VArr [VStr "a"; VStr "b"])
     = flattenKeyPath (VArr [VStr "a.b"])
  /\ deleteSync Envelope.encrypt Envelope.decrypt defaults
       [VArr [VStr "a"; VStr "b"]] (fresh NoDir)
     = deleteSync Envelope.encrypt Envelope.decrypt defaults
         [VArr [VStr "a.b"]] (fresh NoDir).
Proof.
  assert (Hp : valid_key_path (VArr [VStr "a"; VStr "b"])).
  { apply isKeyPath_valid. reflexivity. }
  assert (Hq : valid_key_path (VArr [VStr "a.b"])).
  { apply isKeyPath_valid. reflexivity. }
  split; [exact Hp|]. split; [exact Hq|]. split; [reflexivity|].
  destruct (methods_take_the_flattened_key_path Envelope.encrypt
              Envelope.decrypt defaults _ _ [] (fresh NoDir) Hp Hq eq_refl)
    as (_ & _ & _ & H & _).
  exact H.
Defined.

(** ** The codec *)

Section Codec.

Variable encrypt decrypt : string -> string -> string -> option string.
Variable cfg : config.

Lemma load_result_is_json (obj : value) (s s' : fsstate) :
  _loadSettingsSync encrypt decrypt cfg s = (inr obj, s') ->
  json_representable obj = true.
Proof.
  unfold _loadSettingsSync, _readSettingsFileSync, bind, lift.
  destruct (_ensureSettingsFileSync encrypt cfg s) as [[e|[]] s1];
    [discriminate|].
  destruct (sys_read s1) as [[e|data] s2]; [discriminate|].
  intros [= E _]. exact (reconstruct_representable decrypt cfg _ _ E).
Qed.

End Codec.

(** X4: what the store hands out as the whole document is JSON data.  What
    [_reconstructSettingsData] returns, and so what [getSync] and [get]
    return on any host when called without a key path or with the empty key
    path, holds no [undefined] and no function, and no object in it has the
    same property name twice. *)
Theorem the_document_read_is_json :
  forall encrypt decrypt (cfg : config),
    (forall data doc,
        _reconstructSettingsData decrypt cfg data = inr doc ->
        json_representable doc = true)
    /\ (forall args s doc s',
           arg 0 args = VStr "" \/ ~ valid_key_path (arg 0 args) ->
           getSync encrypt decrypt cfg args s = (inr doc, s') ->
           json_representable doc = true)
    /\ (forall k rest s doc s',
           get encrypt decrypt cfg (VFun k :: rest) s
           = (Called k None doc, s')
           \/ get encrypt decrypt cfg (VStr "" :: VFun k :: rest) s
              = (Called k None doc, s') ->
           json_representable doc = true).
Proof.
  intros encrypt decrypt cfg. repeat apply conj.
  - apply reconstruct_representable.
  - intros args s doc s' H E.
    rewrite getSync_whole in E.
    + exact (load_result_is_json _ _ _ _ _ _ E).
    + destruct H as [H|H]; [now left | right].
      now apply isKeyPath_invalid.
  - intros k rest s doc s' [E|E].
    + rewrite get_ends_omitted in E. apply deliver_success in E.
      rewrite getSync_whole in E by (now right).
      exact (load_result_is_json _ _ _ _ _ _ E).
    + rewrite get_ends in E by constructor. apply deliver_success in E.
      rewrite getSync_whole in E by (now left).
      exact (load_result_is_json _ _ _ _ _ _ E).
Qed.

Lemma a_decoded_array_is_json :
  _reconstructSettingsData Envelope.decrypt defaults "[1,2]"
  = inr (VArr [VNum 1; VNum 2])
  /\ json_representable (VArr [VNum 1; VNum 2]) = true.
Proof.
  split; [reflexivity|].
  exact (proj1 (the_document_read_is_json Envelope.encrypt Envelope.decrypt
                  defaults) "[1,2]" (VArr [VNum 1; VNum 2]) eq_refl).
Defined.

(** The blocking methods under two ciphers, for a configuration without a
    key. *)
Section NoKey.

Variable e1 d1 e2 d2 : string -> string -> string -> option string.
Variable cfg : config.
Hypothesis Hk : has_key cfg = false.

Lemma prepare_no_key (obj : value) :
  _prepareSettingsData e1 cfg obj = _prepareSettingsData e2 cfg obj.
Proof. unfold _prepareSettingsData. now rewrite Hk. Qed.

Lemma reconstruct_no_key (data : string) :
  _reconstructSettingsData d1 cfg data = _reconstructSettingsData d2 cfg data.
Proof. unfold _reconstructSettingsData. now rewrite Hk. Qed.

Lemma save_no_key (obj : value) (s : fsstate) :
  _saveSettingsSync e1 cfg obj s = _saveSettingsSync e2 cfg obj s.
Proof. unfold _saveSettingsSync, bind, lift. now rewrite prepare_no_key. Qed.

Lemma load_no_key (s : fsstate) :
  _loadSettingsSync e1 d1 cfg s = _loadSettingsSync e2 d2 cfg s.
Proof.
  unfold _loadSettingsSync, _ensureSettingsFileSync, _readSettingsFileSync,
    bind, try_catch, lift.
  destruct (sys_stat File s) as [[e|[]] s1].
  - destruct (is_ENOENT e); [|reflexivity].
    rewrite save_no_key.
    destruct (_saveSettingsSync e2 cfg (VObj []) s1) as [[e'|[]] s2];
      [reflexivity|].
    destruct (sys_read s2) as [[e'|data] s3]; [reflexivity|].
    now rewrite reconstruct_no_key.
  - destruct (sys_read s1) as [[e'|data] s3]; [reflexivity|].
    now rewrite reconstruct_no_key.
Qed.

Lemma save_undefined_no_key (obj : value) (s : fsstate) :
  bind (_saveSettingsSync e1 cfg obj) (fun _ => ret VUndef) s
  = bind (_saveSettingsSync e2 cfg obj) (fun _ => ret VUndef) s.
Proof. unfold bind. now rewrite save_no_key. Qed.

Lemma getSync_no_key (args : list value) (s : fsstate) :
  getSync e1 d1 cfg args s = getSync e2 d2 cfg args s.
Proof.
  unfold getSync, _getValueAtKeyPathSync, bind. now rewrite load_no_key.
Qed.

Lemma hasSync_no_key (args : list value) (s : fsstate) :
  hasSync e1 d1 cfg args s = hasSync e2 d2 cfg args s.
Proof.
  unfold hasSync, _hasKeyPathSync, bind.
  destruct (truthy (isKeyPath (arg 0 args))); [|reflexivity].
  now rewrite load_no_key.
Qed.

Lemma setSync_no_key (args : list value) (s : fsstate) :
  setSync e1 d1 cfg args s = setSync e2 d2 cfg args s.
Proof.
  unfold setSync, _setValueAtKeyPathSync.
  destruct (truthy (arg 0 _)); [|apply save_undefined_no_key].
  unfold bind at 1 3. rewrite load_no_key.
  destruct (_loadSettingsSync e2 d2 cfg s) as [[e|obj] s1]; [reflexivity|].
  apply save_undefined_no_key.
Qed.

Lemma deleteSync_no_key (args : list value) (s : fsstate) :
  deleteSync e1 d1 cfg args s = deleteSync e2 d2 cfg args s.
Proof.
  unfold deleteSync, _deleteValueAtKeyPathSync.
  destruct (truthy (isKeyPath (arg 0 args))); [|reflexivity].
  unfold bind at 1 3. rewrite load_no_key.
  destruct (_loadSettingsSync e2 d2 cfg s) as [[e|obj] s1]; [reflexivity|].
  apply save_undefined_no_key.
Qed.

End NoKey.

(** X5: a configuration whose [encryptionKey] is missing or is the empty
    string makes no use of the cipher.  What [_prepareSettingsData] hands to
    the file system is the JSON text itself, and [_reconstructSettingsData]
    parses the bytes as they are; the blocking methods do under any two
    ciphers the same, and so do the callback methods given a key path and a
    callback. *)
Theorem without_a_key_the_cipher_is_idle :
  forall (cfg : config),
    has_key cfg = false ->
    forall e1 d1 e2 d2,
      (forall obj,
          _prepareSettingsData e1 cfg obj
          = inr (JSON.stringify obj
                   (if prettify cfg then numSpaces cfg else 0)))
      /\ (forall data,
             _reconstructSettingsData d1 cfg data
             = match JSON.parse data with
               | Some obj => inr obj
               | None => inl SyntaxError
               end)
      /\ (forall args s,
             getSync e1 d1 cfg args s = getSync e2 d2 cfg args s
             /\ hasSync e1 d1 cfg args s = hasSync e2 d2 cfg args s
             /\ setSync e1 d1 cfg args s = setSync e2 d2 cfg args s
             /\ deleteSync e1 d1 cfg args s = deleteSync e2 d2 cfg args s)
      /\ (forall p v k s,
             valid_key_path p ->
             get e1 d1 cfg [p; VFun k] s = get e2 d2 cfg [p; VFun k] s
             /\ has e1 d1 cfg [p; VFun k] s = has e2 d2 cfg [p; VFun k] s
             /\ set e1 d1 cfg [p; v; VFun k] s
                = set e2 d2 cfg [p; v; VFun k] s
             /\ delete e1 d1 cfg [p; VFun k] s
                = delete e2 d2 cfg [p; VFun k] s).
Proof.
  intros cfg Hk e1 d1 e2 d2. repeat apply conj.
  - intros obj. unfold _prepareSettingsData. now rewrite Hk.
  - intros data. unfold _reconstructSettingsData. now rewrite Hk.
  - intros args s. repeat apply conj.
    + now apply getSync_no_key.
    + now apply hasSync_no_key.
    + now apply setSync_no_key.
    + now apply deleteSync_no_key.
  - intros p v k s Hp. repeat apply conj.
    + rewrite !get_ends by exact Hp. f_equal. now apply getSync_no_key.
    + rewrite !has_ends by exact Hp. f_equal. now apply hasSync_no_key.
    + rewrite !set_ends by exact Hp. f_equal. now apply setSync_no_key.
    + rewrite !delete_ends by exact Hp. f_equal. now apply deleteSync_no_key.
Qed.

Lemma empty_key_stores_plain_text :
  has_key keyless = false
  /\ setSync Envelope.encrypt Envelope.decrypt keyless
       [VStr "a"; VNum 1] (fresh NoDir)
     = setSync broken_cipher broken_cipher keyless
         [VStr "a"; VNum 1] (fresh NoDir).
Proof.
  split; [reflexivity|].
  destruct (without_a_key_the_cipher_is_idle keyless eq_refl
              Envelope.encrypt Envelope.decrypt broken_cipher broken_cipher)
    as (_ & _ & H & _).
  exact (proj1 (proj2 (proj2 (H [VStr "a"; VNum 1] (fresh NoDir))))).
Defined.

Lemma reconstruct_same_key (decrypt : string -> string -> string -> option string)
    (cfg cfg' : config) (data : string) :
  encryptionAlgorithm cfg' = encryptionAlgorithm cfg ->
  encryptionKey cfg' = encryptionKey cfg ->
  _reconstructSettingsData decrypt cfg' data
  = _reconstructSettingsData decrypt cfg data.
Proof.
  intros Ha Hk.
  unfold _reconstructSettingsData, _decryptData, has_key, key_of.
  now rewrite Ha, Hk.
Qed.

(** X6: the options [prettify], [numSpaces] and [atomicSave] shape what is
    written, not what is read.  A document saved under one configuration is
    read back unchanged under any configuration with the same algorithm and
    key. *)
Theorem reading_does_not_depend_on_the_layout :
  forall encrypt decrypt,
    cipher_law encrypt decrypt ->
    forall (cfg cfg' : config) (doc : value),
      encryptionAlgorithm cfg' = encryptionAlgorithm cfg ->
      encryptionKey cfg' = encryptionKey cfg ->
      json_representable doc = true ->
      (forall bytes,
          _prepareSettingsData encrypt cfg doc = inr (Some bytes) ->
          _reconstructSettingsData decrypt cfg' bytes = inr doc)
      /\ (forall s r s',
             healthy s -> ~ valid_key_path doc ->
             setSync encrypt decrypt cfg [doc] s = (inr r, s') ->
             exists s'',
               getSync encrypt decrypt cfg' [] s' = (inr doc, s'')).
Proof.
  intros encrypt decrypt Hlaw cfg cfg' doc Ha Hk Hj. split.
  - intros bytes Hp. rewrite (reconstruct_same_key _ _ _ _ Ha Hk).
    exact (reconstruct_prepare _ _ _ _ _ Hlaw Hj Hp).
  - intros s r s' Hs Hv E.
    rewrite setSync_whole in E by (now apply isKeyPath_invalid).
    change (arg 0 [doc]) with doc in E.
    destruct (save_replaces _ _ _ _ _ _ _ Hlaw Hs Hj E) as (bytes & -> & _ & Hr).
    rewrite getSync_whole by (now right).
    rewrite (load_reads encrypt decrypt cfg'
               (saved (atomicSave cfg) (Some bytes) s) bytes
               (healthy_saved _ _ _ Hs) eq_refl).
    rewrite (reconstruct_same_key _ _ _ _ Ha Hk), Hr. eauto.
Qed.

Lemma pretty_file_is_read_by_a_plain_store :
  cipher_law Envelope.encrypt Envelope.decrypt
  /\ json_representable foo_bar = true
  /\ exists bytes,
      _prepareSettingsData Envelope.encrypt (pretty 4) foo_bar
      = inr (Some bytes)
      /\ _reconstructSettingsData Envelope.decrypt defaults bytes
         = inr foo_bar.
Proof.
  split; [exact envelope_law|]. split; [reflexivity|].
  eexists. split; [reflexivity|].
  exact (proj1 (reading_does_not_depend_on_the_layout _ _ envelope_law
                  (pretty 4) defaults foo_bar eq_refl eq_refl eq_refl)
           _ eq_refl).
Defined.

(** ** The calls to the file system *)

Section Calls.

Variable P : io_event -> Prop.

Lemma only_ret {A : Type} (a : A) : only_calls P (ret a).
Proof.
  intros s. split; [reflexivity|]. exists []. now rewrite app_nil_r.
Qed.

Lemma only_throw {A : Type} (e : error) : only_calls P (@throw A e).
Proof.
  intros s. split; [reflexivity|]. exists []. now rewrite app_nil_r.
Qed.

Lemma only_lift {A : Type} (r : error + A) : only_calls P (lift r).
Proof.
  intros s. split; [reflexivity|]. exists []. now rewrite app_nil_r.
Qed.

Lemma only_then (s s1 s2 : fsstate) :
  (env s1 = env s
   /\ exists evs, trace s1 = (trace s ++ evs)%list /\ Forall P evs) ->
  (env s2 = env s1
   /\ exists evs, trace s2 = (trace s1 ++ evs)%list /\ Forall P evs) ->
  env s2 = env s
  /\ exists evs, trace s2 = (trace s ++ evs)%list /\ Forall P evs.
Proof.
  intros (He1 & evs1 & Ht1 & H1) (He2 & evs2 & Ht2 & H2).
  split; [congruence|]. exists (evs1 ++ evs2)%list.
  split; [rewrite Ht2, Ht1; now rewrite app_assoc|].
  apply Forall_app. now split.
Qed.

Lemma only_bind {A B : Type} (m : M A) (f : A -> M B) :
  only_calls P m -> (forall a, only_calls P (f a)) ->
  only_calls P (bind m f).
Proof.
  intros Hm Hf s. unfold bind. specialize (Hm s).
  destruct (m s) as [[e|a] s1]; [exact Hm|].
  exact (only_then s s1 _ Hm (Hf a s1)).
Qed.

Lemma only_try {A : Type} (m : M A) (h : error -> M A) :
  only_calls P m -> (forall e, only_calls P (h e)) ->
  only_calls P (try_catch m h).
Proof.
  intros Hm Hh s. unfold try_catch. specialize (Hm s).
  destruct (m s) as [[e|a] s1]; [|exact Hm].
  exact (only_then s s1 _ Hm (Hh e s1)).
Qed.

Ltac one_call :=
  simpl; split;
  [reflexivity | eexists [_]; split; [reflexivity | now repeat constructor]].

Lemma only_stat (n : node) : P (IoStat n) -> only_calls P (sys_stat n).
Proof.
  intros H s. unfold sys_stat, log.
  destruct (fault (env s) (SysStat n)); [one_call|].
  destruct n, (nodes s); one_call.
Qed.

Lemma only_mkdirp : P IoMkdirp -> only_calls P sys_mkdirp.
Proof.
  intros H s. unfold sys_mkdirp, log, with_nodes.
  destruct (fault (env s) SysMkdirp); [one_call|].
  destruct (nodes s); one_call.
Qed.

Lemma only_read : P IoRead -> only_calls P sys_read.
Proof.
  intros H s. unfold sys_read, log.
  destruct (fault (env s) SysRead); [one_call|].
  destruct (nodes s); one_call.
Qed.

Lemma only_write (atomic : bool) (data : option string) :
  P (IoWrite atomic data) -> only_calls P (sys_write atomic data).
Proof.
  intros H s. unfold sys_write, log, with_nodes.
  destruct (fault (env s) SysWrite); [one_call|].
  destruct (nodes s); one_call.
Qed.

Lemma only_idle {R : Type} (r : R) :
  only_calls P (fun s : fsstate => (r, s)).
Proof.
  intros s. split; [reflexivity|]. exists []. now rewrite app_nil_r.
Qed.

Lemma only_callable (fn : value) (err : option error) (val : value) :
  only_calls P (callable fn err val).
Proof. unfold callable. destruct fn; apply only_idle. Qed.

Lemma only_later (t : task) : only_calls P t -> only_calls P (later t).
Proof.
  intros H s. specialize (H s). unfold later.
  destruct (t s) as [[e|k err val|e] s1]; exact H.
Qed.

Lemma only_try_call (body : task) (handler : error -> task) :
  only_calls P body -> (forall e, only_calls P (handler e)) ->
  only_calls P (try_call body handler).
Proof.
  intros Hb Hh s. unfold try_call. specialize (Hb s).
  destruct (body s) as [[e|k err val|e] s1]; try exact Hb.
  exact (only_then s s1 _ Hb (Hh e s1)).
Qed.

Lemma only_after {R : Type} (m : fsstate -> R * fsstate) (k : R -> task) :
  only_calls P m -> (forall r, only_calls P (k r)) ->
  only_calls P (fun s => let (r, s') := m s in later (k r) s').
Proof.
  intros Hm Hk s. specialize (Hm s). destruct (m s) as [r s1].
  exact (only_then s s1 _ Hm (only_later _ (Hk r) s1)).
Qed.

End Calls.

Section StoreCalls.

Variable encrypt decrypt : string -> string -> string -> option string.
Variable cfg : config.
Variable P : io_event -> Prop.

Hypothesis Pstat : forall n, P (IoStat n).
Hypothesis Pmkdirp : P IoMkdirp.
Hypothesis Pread : P IoRead.
Hypothesis Pwrite :
  forall obj data,
    _prepareSettingsData encrypt cfg obj = inr data ->
    P (IoWrite (atomicSave cfg) data).

Lemma only_ensureDirSync : only_calls P _ensureSettingsDirSync.
Proof.
  apply only_try; [now apply only_stat|].
  intros e. destruct (is_ENOENT e); [now apply only_mkdirp | apply only_throw].
Qed.

Lemma only_saveSync (obj : value) :
  only_calls P (_saveSettingsSync encrypt cfg obj).
Proof.
  unfold _saveSettingsSync. intros s. unfold bind, lift.
  destruct (_prepareSettingsData encrypt cfg obj) as [e|data] eqn:E.
  - now apply (only_idle P (inl e : error + unit)).
  - apply only_bind; [apply only_ensureDirSync|].
    intros _. apply only_write. now apply (Pwrite obj).
Qed.

Lemma only_loadSync : only_calls P (_loadSettingsSync encrypt decrypt cfg).
Proof.
  apply only_bind.
  - apply only_try; [now apply only_stat|].
    intros e. destruct (is_ENOENT e); [apply only_saveSync | apply only_throw].
  - intros _. apply only_bind; [now apply only_read|].
    intros data. apply only_lift.
Qed.

Lemma only_save_undefined (obj : value) :
  only_calls P
    (bind (_saveSettingsSync encrypt cfg obj) (fun _ => ret VUndef)).
Proof. apply only_bind; [apply only_saveSync | intros _; apply only_ret]. Qed.

Lemma only_getSync (args : list value) :
  only_calls P (getSync encrypt decrypt cfg args).
Proof.
  apply only_bind; [apply only_loadSync|].
  intros obj. destruct (truthy _); apply only_ret.
Qed.

Lemma only_hasSync (args : list value) :
  only_calls P (hasSync encrypt decrypt cfg args).
Proof.
  unfold hasSync. destruct (truthy _); [|apply only_throw].
  apply only_bind; [apply only_loadSync | intros obj; apply only_ret].
Qed.

Lemma only_setSync (args : list value) :
  only_calls P (setSync encrypt decrypt cfg args).
Proof.
  unfold setSync, _setValueAtKeyPathSync.
  destruct (truthy (arg 0 _)); [|apply only_save_undefined].
  apply only_bind; [apply only_loadSync|].
  intros obj. apply only_save_undefined.
Qed.

Lemma only_deleteSync (args : list value) :
  only_calls P (deleteSync encrypt decrypt cfg args).
Proof.
  unfold deleteSync. destruct (truthy _); [|apply only_throw].
  apply only_bind; [apply only_loadSync|].
  intros obj. apply only_save_undefined.
Qed.

Lemma only_ensureDir (fn : option error -> task) :
  (forall err, only_calls P (fn err)) ->
  only_calls P (_ensureSettingsDir fn).
Proof.
  intros Hfn. unfold _ensureSettingsDir, fs_stat.
  apply only_after; [now apply only_stat|].
  intros [e|[]]; simpl; [|apply Hfn].
  destruct (is_ENOENT e); [|apply Hfn].
  unfold mkdirp. apply only_after; [now apply only_mkdirp|].
  intros r. apply Hfn.
Qed.

Lemma only_save (obj : value) (fn : option error -> task) :
  (forall err, only_calls P (fn err)) ->
  only_calls P (_saveSettings encrypt cfg obj fn).
Proof.
  intros Hfn. unfold _saveSettings.
  destruct (_prepareSettingsData encrypt cfg obj) as [e|data] eqn:E;
    [apply Hfn|].
  unfold _writeSettingsFile. apply only_ensureDir.
  intros [e|]; [apply Hfn|].
  unfold fs_writeFile. apply only_after; [|intros r; apply Hfn].
  apply only_write. now apply (Pwrite obj).
Qed.

Lemma only_load (fn : callback) :
  (forall err val, only_calls P (fn err val)) ->
  only_calls P (_loadSettings encrypt decrypt cfg fn).
Proof.
  intros Hfn. unfold _loadSettings, _ensureSettingsFile, fs_stat.
  assert (Hread : only_calls P (_readSettingsFile decrypt cfg fn)).
  { unfold _readSettingsFile, fs_readFile.
    apply only_after; [now apply only_read|].
    intros [e|data]; simpl; [apply Hfn|].
    apply only_try_call; [|intros e; apply Hfn].
    destruct (_reconstructSettingsData decrypt cfg data);
      [apply only_idle | apply Hfn]. }
  apply only_after; [now apply only_stat|].
  intros [e|[]]; simpl; [|exact Hread].
  destruct (is_ENOENT e); [|apply Hfn].
  apply only_save. intros [e'|]; [apply Hfn | exact Hread].
Qed.

Lemma only_get (args : list value) :
  only_calls P (get encrypt decrypt cfg args).
Proof.
  unfold get, _getValueAtKeyPath. apply only_load.
  intros [e|] obj; [apply only_callable|].
  destruct (truthy _); apply only_callable.
Qed.

Lemma only_has (args : list value) :
  only_calls P (has encrypt decrypt cfg args).
Proof.
  unfold has. destruct (truthy _); [|apply only_idle].
  apply only_load. intros [e|] obj; apply only_callable.
Qed.

Lemma only_set (args : list value) :
  only_calls P (set encrypt decrypt cfg args).
Proof.
  unfold set, _setValueAtKeyPath.
  destruct (truthy (arg 0 _)).
  - apply only_load. intros [e|] obj; [apply only_callable|].
    apply only_save. intros err. apply only_callable.
  - apply only_save. intros err. apply only_callable.
Qed.

Lemma only_delete (args : list value) :
  only_calls P (delete encrypt decrypt cfg args).
Proof.
  unfold delete. destruct (truthy _); [|apply only_idle].
  apply only_load. intros [e|] obj; [apply only_callable|].
  apply only_save. intros err. apply only_callable.
Qed.

End StoreCalls.

(** X7: every write that a public method issues, on any host and for any
    arguments, goes through the configured writer ([writeFileAtomic] if
    [atomicSave] is set, [fs.writeFile] if not) and hands over what
    [_prepareSettingsData] made of some document; the write that creates
    the file is no exception.  No method does anything to the file system
    but append such calls. *)
Theorem writes_go_through_the_configured_writer :
  forall encrypt decrypt (cfg : config) (args : list value),
    only_calls (store_write encrypt cfg) (getSync encrypt decrypt cfg args)
    /\ only_calls (store_write encrypt cfg) (hasSync encrypt decrypt cfg args)
    /\ only_calls (store_write encrypt cfg) (setSync encrypt decrypt cfg args)
    /\ only_calls (store_write encrypt cfg)
         (deleteSync encrypt decrypt cfg args)
    /\ only_calls (store_write encrypt cfg) (get encrypt decrypt cfg args)
    /\ only_calls (store_write encrypt cfg) (has encrypt decrypt cfg args)
    /\ only_calls (store_write encrypt cfg) (set encrypt decrypt cfg args)
    /\ only_calls (store_write encrypt cfg) (delete encrypt decrypt cfg args).
Proof.
  intros encrypt decrypt cfg args.
  assert (Hw : forall obj data,
             _prepareSettingsData encrypt cfg obj = inr data ->
             store_write encrypt cfg (IoWrite (atomicSave cfg) data)).
  { intros obj data E. split; [reflexivity | now exists obj]. }
  repeat apply conj;
    [apply only_getSync | apply only_hasSync | apply only_setSync
     | apply only_deleteSync | apply only_get | apply only_has
     | apply only_set | apply only_delete];
    solve [exact Hw | exact I | intros; exact I].
Qed.

Lemma prepare_sealed
    (encrypt : string -> string -> string -> option string) (cfg : config)
    (obj : value) (data : option string) :
  has_key cfg = true ->
  _prepareSettingsData encrypt cfg obj = inr data ->
  sealed_write encrypt cfg (IoWrite (atomicSave cfg) data).
Proof.
  intros Hk. unfold _prepareSettingsData, _encryptData. rewrite Hk.
  destruct (JSON.stringify obj _) as [text|] eqn:Et; [|discriminate].
  destruct (encrypt _ _ text) as [enc|] eqn:Ee; [|discriminate].
  intros [= <-]. now exists obj, text, enc.
Qed.

(** X8: encryption at rest.  When a key is configured, every write that a
    public method issues, on any host and for any arguments, hands over a
    text that the cipher produced, under the configured algorithm and key,
    from the JSON text of some document; so does the write that creates the
    file. *)
Theorem with_a_key_only_sealed_text_is_written :
  forall encrypt decrypt (cfg : config) (args : list value),
    has_key cfg = true ->
    only_calls (sealed_write encrypt cfg) (getSync encrypt decrypt cfg args)
    /\ only_calls (sealed_write encrypt cfg)
         (hasSync encrypt decrypt cfg args)
    /\ only_calls (sealed_write encrypt cfg)
         (setSync encrypt decrypt cfg args)
    /\ only_calls (sealed_write encrypt cfg)
         (deleteSync encrypt decrypt cfg args)
    /\ only_calls (sealed_write encrypt cfg) (get encrypt decrypt cfg args)
    /\ only_calls (sealed_write encrypt cfg) (has encrypt decrypt cfg args)
    /\ only_calls (sealed_write encrypt cfg) (set encrypt decrypt cfg args)
    /\ only_calls (sealed_write encrypt cfg)
         (delete encrypt decrypt cfg args).
Proof.
  intros encrypt decrypt cfg args Hk.
  pose proof (fun obj data => prepare_sealed encrypt cfg obj data Hk) as Hw.
  repeat apply conj;
    [apply only_getSync | apply only_hasSync | apply only_setSync
     | apply only_deleteSync | apply only_get | apply only_has
     | apply only_set | apply only_delete];
    solve [exact Hw | exact I | intros; exact I].
Qed.

Lemma secret_store_writes_sealed_text :
  has_key secret = true
  /\ only_calls (sealed_write Envelope.encrypt secret)
       (setSync Envelope.encrypt Envelope.decrypt secret
          [VStr "a"; VNum 1]).
Proof.
  split; [reflexivity|].
  destruct (with_a_key_only_sealed_text_is_written Envelope.encrypt
              Envelope.decrypt secret [VStr "a"; VNum 1] eq_refl)
    as (_ & _ & H & _).
  exact H.
Defined.

Section Reads.

Variable encrypt decrypt : string -> string -> string -> option string.
Variable cfg : config.

Lemma load_present (s : fsstate) (data : string) :
  nodes s = HasFile data ->
  exists r evs,
    _loadSettingsSync encrypt decrypt cfg s
    = (r, mkFs (env s) (HasFile data) (trace s ++ evs))
    /\ (evs = [IoStat File] \/ evs = [IoStat File; IoRead]).
Proof.
  intros Hn.
  unfold _loadSettingsSync, _ensureSettingsFileSync, _readSettingsFileSync,
    bind, try_catch, lift, sys_stat, sys_read, log, throw.
  rewrite Hn.
  destruct (fault (env s) (SysStat File)) as [f|]; simpl.
  - eexists _, _. split; [reflexivity | now left].
  - rewrite ?Hn.
    destruct (fault (env s) SysRead) as [f|]; simpl;
      rewrite <- app_assoc; eexists _, _; (split; [reflexivity | now right]).
Qed.

Lemma getSync_present (args : list value) (s : fsstate) (data : string) :
  nodes s = HasFile data ->
  exists r evs,
    getSync encrypt decrypt cfg args s
    = (r, mkFs (env s) (HasFile data) (trace s ++ evs))
    /\ (evs = [IoStat File] \/ evs = [IoStat File; IoRead]).
Proof.
  intros Hn. unfold getSync, _getValueAtKeyPathSync, bind.
  destruct (load_present s data Hn) as (r & evs & -> & H).
  destruct r as [e|obj]; [|destruct (truthy _)];
    eexists _, _; (split; [reflexivity | exact H]).
Qed.

Lemma hasSync_present (args : list value) (s : fsstate) (data : string) :
  nodes s = HasFile data ->
  truthy (isKeyPath (arg 0 args)) = true ->
  exists r evs,
    hasSync encrypt decrypt cfg args s
    = (r, mkFs (env s) (HasFile data) (trace s ++ evs))
    /\ (evs = [IoStat File] \/ evs = [IoStat File; IoRead]).
Proof.
  intros Hn Hv. unfold hasSync, _hasKeyPathSync, bind. rewrite Hv.
  destruct (load_present s data Hn) as (r & evs & -> & H).
  destruct r as [e|obj]; eexists _, _; (split; [reflexivity | exact H]).
Qed.

End Reads.

(** X9: reading a store whose file exists changes nothing.  On any host,
    whether they return or throw, [getSync] and [hasSync] call [stat] on the
    file and, if that went well, read it; they call nothing else, issue no
    write, and the file keeps its bytes.  Given a key path and a callback,
    [get] and [has] leave the same state. *)
Theorem reading_an_existing_file_changes_nothing :
  forall encrypt decrypt (cfg : config) (s : fsstate) (data : string),
    nodes s = HasFile data ->
    (forall args,
        exists r evs,
          getSync encrypt decrypt cfg args s
          = (r, mkFs (env s) (HasFile data) (trace s ++ evs))
          /\ (evs = [IoStat File] \/ evs = [IoStat File; IoRead]))
    /\ (forall p rest,
           valid_key_path p ->
           exists r evs,
             hasSync encrypt decrypt cfg (p :: rest) s
             = (r, mkFs (env s) (HasFile data) (trace s ++ evs))
             /\ (evs = [IoStat File] \/ evs = [IoStat File; IoRead]))
    /\ (forall p k rest,
           valid_key_path p ->
           snd (get encrypt decrypt cfg (p :: VFun k :: rest) s)
           = snd (getSync encrypt decrypt cfg [p] s)
           /\ snd (has encrypt decrypt cfg (p :: VFun k :: rest) s)
              = snd (hasSync encrypt decrypt cfg [p] s)
           /\ snd (get encrypt decrypt cfg (VFun k :: rest) s)
              = snd (getSync encrypt decrypt cfg [] s)).
Proof.
  intros encrypt decrypt cfg s data Hn. repeat apply conj.
  - intros args. now apply getSync_present.
  - intros p rest Hp. apply isKeyPath_valid in Hp.
    now apply hasSync_present.
  - intros p k rest Hp. repeat apply conj.
    + now rewrite get_ends.
    + now rewrite has_ends.
    + now rewrite get_ends_omitted.
Qed.

Lemma getSync_leaves_a_broken_file_alone :
  nodes (fresh (HasFile "{oops")) = HasFile "{oops"
  /\ exists r evs,
      getSync Envelope.encrypt Envelope.decrypt defaults [VStr "a"]
        (fresh (HasFile "{oops"))
      = (r, mkFs (env (fresh (HasFile "{oops"))) (HasFile "{oops")
              (trace (fresh (HasFile "{oops")) ++ evs))
      /\ (evs = [IoStat File] \/ evs = [IoStat File; IoRead]).
Proof.
  split; [reflexivity|].
  exact (proj1 (reading_an_existing_file_changes_nothing Envelope.encrypt
                  Envelope.decrypt defaults (fresh (HasFile "{oops")) "{oops"
                  eq_refl) [VStr "a"]).
Defined.

(** ** Saving *)

Section Saving.

Variable encrypt : string -> string -> string -> option string.
Variable cfg : config.

Lemma save_encode_failure (obj : value) (e : error) (s : fsstate) :
  _prepareSettingsData encrypt cfg obj = inl e ->
  _saveSettingsSync encrypt cfg obj s = (inl e, s).
Proof. intros E. unfold _saveSettingsSync, bind, lift. now rewrite E. Qed.

Lemma save_stat_failure (obj : value) (data : option string) (f : failure)
    (s : fsstate) :
  _prepareSettingsData encrypt cfg obj = inr data ->
  fault (env s) (SysStat Dir) = Some f ->
  _saveSettingsSync encrypt cfg obj s
  = (inl (SystemError (Errno f)), log (IoStat Dir) s).
Proof.
  intros E Hf.
  unfold _saveSettingsSync, _writeSettingsFileSync, _ensureSettingsDirSync,
    bind, lift, try_catch, sys_stat, throw.
  now rewrite E, Hf.
Qed.

Lemma save_mkdirp_failure (obj : value) (data : option string) (f : failure)
    (s : fsstate) :
  _prepareSettingsData encrypt cfg obj = inr data ->
  fault (env s) (SysStat Dir) = None -> nodes s = NoDir ->
  fault (env s) SysMkdirp = Some f ->
  _saveSettingsSync encrypt cfg obj s
  = (inl (SystemError (Errno f)), log IoMkdirp (log (IoStat Dir) s)).
Proof.
  intros E Hs Hn Hf.
  unfold _saveSettingsSync, _writeSettingsFileSync, _ensureSettingsDirSync,
    bind, lift, try_catch, sys_stat, sys_mkdirp, throw.
  rewrite E, Hs, Hn. simpl. now rewrite Hf.
Qed.

Lemma save_in_a_directory (obj : value) (s : fsstate) :
  nodes s <> NoDir ->
  exists evs,
    trace (snd (_saveSettingsSync encrypt cfg obj s)) = (trace s ++ evs)%list
    /\ ~ In IoMkdirp evs.
Proof.
  intros Hn.
  unfold _saveSettingsSync, _writeSettingsFileSync, _ensureSettingsDirSync,
    bind, lift, try_catch, sys_stat, sys_write, throw, log.
  destruct (_prepareSettingsData encrypt cfg obj) as [e|data].
  { exists []. simpl. rewrite app_nil_r. now split. }
  destruct (fault (env s) (SysStat Dir)) as [f|]; simpl.
  { exists [IoStat Dir]. split; [reflexivity|]. intros [H|[]]. discriminate. }
  destruct (nodes s) as [| |bytes] eqn:En; [congruence| |]; simpl;
    destruct (fault (env s) SysWrite); simpl; rewrite ?En; simpl;
    rewrite <- app_assoc;
    (eexists; split; [reflexivity|]);
    intros [H|[H|[]]]; discriminate.
Qed.

End Saving.

(** X10: a save gives up before it writes.  When the encoding throws, no
    call to the file system is made; when [stat] on the directory fails for
    a reason other than its absence, that error is thrown after this one
    call; when the directory is missing and [mkdirp] fails, that error is
    thrown and no write is tried.  When the directory is there, [mkdirp] is
    not called.  [_saveSettings] hands the caller's callback the error that
    [_saveSettingsSync] throws, or none. *)
Theorem a_save_gives_up_before_it_writes :
  forall encrypt (cfg : config) (obj : value) (s : fsstate),
    (forall e,
        _prepareSettingsData encrypt cfg obj = inl e ->
        _saveSettingsSync encrypt cfg obj s = (inl e, s))
    /\ (forall data f,
           _prepareSettingsData encrypt cfg obj = inr data ->
           fault (env s) (SysStat Dir) = Some f ->
           _saveSettingsSync encrypt cfg obj s
           = (inl (SystemError (Errno f)), log (IoStat Dir) s))
    /\ (forall data f,
           _prepareSettingsData encrypt cfg obj = inr data ->
           fault (env s) (SysStat Dir) = None -> nodes s = NoDir ->
           fault (env s) SysMkdirp = Some f ->
           _saveSettingsSync encrypt cfg obj s
           = (inl (SystemError (Errno f)),
              log IoMkdirp (log (IoStat Dir) s)))
    /\ (nodes s <> NoDir ->
        exists evs,
          trace (snd (_saveSettingsSync encrypt cfg obj s))
          = (trace s ++ evs)%list
          /\ ~ In IoMkdirp evs)
    /\ (forall k,
           _saveSettings encrypt cfg obj (err_only (callable (VFun k))) s
           = let (r, s') := _saveSettingsSync encrypt cfg obj s in
             (Called k (error_of r) VUndef, s')).
Proof.
  intros encrypt cfg obj s. repeat apply conj.
  - intros e. apply save_encode_failure.
  - intros data f. apply save_stat_failure.
  - intros data f. apply save_mkdirp_failure.
  - apply save_in_a_directory.
  - intros k. rewrite save_ends; [reflexivity|].
    intros err. apply quiet_caller.
Qed.

Lemma a_locked_directory_stops_the_save :
  _prepareSettingsData Envelope.encrypt defaults foo_bar
  = inr (JSON.stringify foo_bar 0)
  /\ fault locked_host (SysStat Dir) = Some EACCES
  /\ _saveSettingsSync Envelope.encrypt defaults foo_bar
       (mkFs locked_host EmptyDir [])
     = (inl (SystemError (Errno EACCES)),
        log (IoStat Dir) (mkFs locked_host EmptyDir [])).
Proof.
  split; [reflexivity|]. split; [reflexivity|].
  destruct (a_save_gives_up_before_it_writes Envelope.encrypt defaults
              foo_bar (mkFs locked_host EmptyDir [])) as (_ & H & _).
  exact (H _ EACCES eq_refl eq_refl).
Defined.

(** ** The whole document *)

(** X11: setting the whole document needs no old one.  On a healthy host,
    [setSync] given a document that JSON represents and that is no key path,
    or given the empty key path and such a document, neither looks at the
    file nor reads it, whatever the file holds: it fails only when the
    cipher throws, and then it has called nothing; otherwise it leaves the
    encoding of the document in the file, and [getSync] without key path
    then returns the document. *)
Theorem setting_the_whole_document_needs_no_old_one :
  forall encrypt decrypt,
    cipher_law encrypt decrypt ->
    forall (cfg : config) (s : fsstate) (doc : value),
      healthy s -> json_representable doc = true ->
      (~ valid_key_path doc ->
       setSync encrypt decrypt cfg [doc] s
       = setSync encrypt decrypt cfg [VStr ""; doc] s)
      /\ (forall e,
             _prepareSettingsData encrypt cfg doc = inl e ->
             setSync encrypt decrypt cfg [VStr ""; doc] s = (inl e, s))
      /\ (forall data,
             _prepareSettingsData encrypt cfg doc = inr data ->
             setSync encrypt decrypt cfg [VStr ""; doc] s
             = (inr VUndef, saved (atomicSave cfg) data s)
             /\ fst (getSync encrypt decrypt cfg []
                       (saved (atomicSave cfg) data s))
                = inr doc).
Proof.
  intros encrypt decrypt Hlaw cfg s doc Hs Hj.
  assert (E0 : setSync encrypt decrypt cfg [VStr ""; doc] s
               = bind (_saveSettingsSync encrypt cfg doc)
                   (fun _ => ret VUndef) s) by reflexivity.
  repeat apply conj.
  - intros Hv. rewrite E0.
    now rewrite setSync_whole by (now apply isKeyPath_invalid).
  - intros e E. rewrite E0. unfold bind.
    now rewrite (save_encode_failure _ _ _ _ _ E).
  - intros data H. split.
    + rewrite E0. unfold bind. rewrite (save_healthy _ _ _ _ Hs), H.
      reflexivity.
    + destruct (prepare_payload _ _ _ _ Hj H) as [bytes ->].
      rewrite getSync_whole by (now right).
      rewrite (load_reads encrypt decrypt cfg
                 (saved (atomicSave cfg) (Some bytes) s) bytes
                 (healthy_saved _ _ _ Hs) eq_refl).
      exact (reconstruct_prepare _ _ _ _ _ Hlaw Hj H).
Qed.

Lemma a_broken_file_is_replaced :
  cipher_law Envelope.encrypt Envelope.decrypt
  /\ healthy (fresh (HasFile "{oops"))
  /\ json_representable foo_bar = true
  /\ exists data,
      _prepareSettingsData Envelope.encrypt defaults foo_bar = inr data
      /\ setSync Envelope.encrypt Envelope.decrypt defaults
           [VStr ""; foo_bar] (fresh (HasFile "{oops"))
         = (inr VUndef,
            saved (atomicSave defaults) data (fresh (HasFile "{oops")))
      /\ fst (getSync Envelope.encrypt Envelope.decrypt defaults []
                (saved (atomicSave defaults) data
                   (fresh (HasFile "{oops"))))
         = inr foo_bar.
Proof.
  split; [exact envelope_law|]. split; [apply fresh_is_healthy|].
  split; [reflexivity|].
  eexists. split; [reflexivity|].
  exact (proj2 (proj2 (setting_the_whole_document_needs_no_old_one _ _
                         envelope_law defaults (fresh (HasFile "{oops"))
                         foo_bar (fresh_is_healthy _) eq_refl))
           _ eq_refl).
Defined.

(** X12: a store without file reads as the empty object.  On a healthy
    host, when the file is missing, [getSync] and [get] without key path
    return the empty object, having saved it; when the cipher refuses to
    seal the empty object they end with its error after the one [stat] on
    the file. *)
Theorem a_store_without_file_reads_as_the_empty_object :
  forall encrypt decrypt,
    cipher_law encrypt decrypt ->
    forall (cfg : config) (s : fsstate),
      healthy s -> missing (nodes s) = true ->
      (forall e,
          _prepareSettingsData encrypt cfg (VObj []) = inl e ->
          getSync encrypt decrypt cfg [] s = (inl e, log (IoStat File) s))
      /\ (forall data,
             _prepareSettingsData encrypt cfg (VObj []) = inr data ->
             getSync encrypt decrypt cfg [] s
             = (inr (VObj []),
                log IoRead
                  (saved (atomicSave cfg) data (log (IoStat File) s))))
      /\ (forall k rest,
             get encrypt decrypt cfg (VFun k :: rest) s
             = deliver k (getSync encrypt decrypt cfg [] s)).
Proof.
  intros encrypt decrypt Hlaw cfg s Hs Hm.
  assert (E0 : getSync encrypt decrypt cfg [] s
               = _loadSettingsSync encrypt decrypt cfg s).
  { apply getSync_whole. now right. }
  rewrite E0, (load_healthy _ _ _ _ Hs).
  repeat apply conj.
  - intros e E. destruct (nodes s); [| |discriminate]; now rewrite E.
  - intros data E.
    destruct (prepare_payload encrypt cfg (VObj []) data eq_refl E)
      as [bytes ->].
    pose proof (reconstruct_prepare encrypt decrypt cfg (VObj []) bytes
                  Hlaw eq_refl E) as Hr.
    destruct (nodes s); [| |discriminate]; rewrite E; simpl payload;
      now rewrite Hr.
  - intros k rest. rewrite get_ends_omitted, E0.
    now rewrite (load_healthy _ _ _ _ Hs).
Qed.

Lemma the_first_read_returns_the_empty_object :
  cipher_law Envelope.encrypt Envelope.decrypt
  /\ healthy (fresh NoDir)
  /\ missing (nodes (fresh NoDir)) = true
  /\ exists data,
      _prepareSettingsData Envelope.encrypt secret (VObj []) = inr data
      /\ getSync Envelope.encrypt Envelope.decrypt secret [] (fresh NoDir)
         = (inr (VObj []),
            log IoRead
              (saved (atomicSave secret) data
                 (log (IoStat File) (fresh NoDir)))).
Proof.
  split; [exact envelope_law|]. split; [apply fresh_is_healthy|].
  split; [reflexivity|].
  eexists. split; [reflexivity|].
  destruct (a_store_without_file_reads_as_the_empty_object _ _ envelope_law
              secret (fresh NoDir) (fresh_is_healthy _) eq_refl)
    as (_ & H & _).
  exact (H _ eq_refl).
Defined.

(** ** The methods on a file that decodes *)

Section Decoded.

Variable encrypt decrypt : string -> string -> string -> option string.
Variable cfg : config.





End Decoded.





(** ** Calls that name no callback *)

Section NoCallback.

Variable encrypt decrypt : string -> string -> string -> option string.
Variable cfg : config.

Lemma callable_no_function (x : value) (err : option error) (val : value)
    (s : fsstate) :
  no_function x -> callable x err val s = (Threw not_a_function, s).
Proof.
  intros H. destruct x; try reflexivity. now contradiction (H k).
Qed.

Lemma save_later (obj : value) (fn : option error -> task) (s : fsstate) :
  later (_saveSettings encrypt cfg obj fn) s
  = let (r, s') := _saveSettingsSync encrypt cfg obj s in
    later (fn (error_of r)) s'.
Proof.
  unfold _saveSettings, _saveSettingsSync, bind, lift.
  destruct (_prepareSettingsData encrypt cfg obj) as [e|data];
    [reflexivity|].
  unfold later at 1. rewrite writeFile_ends.
  destruct (_writeSettingsFileSync cfg data s) as [r s1].
  exact (later_later (fn (error_of r)) s1).
Qed.

Lemma ensureFile_later (fn : option error -> task) (s : fsstate) :
  _ensureSettingsFile encrypt cfg fn s
  = let (r, s') := _ensureSettingsFileSync encrypt cfg s in
    later (fn (error_of r)) s'.
Proof.
  unfold _ensureSettingsFile, _ensureSettingsFileSync, fs_stat, try_catch.
  destruct (sys_stat File s) as [[e|[]] s1]; cbv beta iota; [|reflexivity].
  unfold error_of at 1. cbv beta iota.
  destruct (is_ENOENT e); [|reflexivity].
  apply save_later.
Qed.

(** A callback that throws whatever it is called with: the load runs as the
    blocking load does, and the error escapes in a later turn. *)
Lemma load_crash (cb : callback) (s : fsstate) :
  (forall err v s0, cb err v s0 = (Threw not_a_function, s0)) ->
  _loadSettings encrypt decrypt cfg cb s
  = (Uncaught not_a_function,
     snd (_loadSettingsSync encrypt decrypt cfg s)).
Proof.
  intros H. unfold _loadSettings. rewrite ensureFile_later.
  unfold _loadSettingsSync, bind.
  destruct (_ensureSettingsFileSync encrypt cfg s) as [[e|[]] s1]; simpl.
  { unfold later. now rewrite H. }
  unfold _readSettingsFile, fs_readFile, _readSettingsFileSync, bind, lift.
  unfold later at 1.
  destruct (sys_read s1) as [[e|data] s2]; simpl.
  { unfold later. now rewrite H. }
  unfold try_call, throw_now.
  destruct (_reconstructSettingsData decrypt cfg data) as [e|obj]; simpl;
    unfold later; rewrite !H; reflexivity.
Qed.

Lemma getValue_crash (keyPath x : value) (s : fsstate) :
  no_function x ->
  _getValueAtKeyPath encrypt decrypt cfg keyPath (callable x) s
  = (Uncaught not_a_function,
     snd (_getValueAtKeyPathSync encrypt decrypt cfg keyPath s)).
Proof.
  intros Hx. unfold _getValueAtKeyPath, _getValueAtKeyPathSync, bind.
  rewrite load_crash.
  - destruct (_loadSettingsSync encrypt decrypt cfg s) as [[e|obj] s1];
      [reflexivity|].
    destruct (truthy keyPath); reflexivity.
  - intros [e|] v s0; [now apply callable_no_function|].
    destruct (truthy keyPath); now apply callable_no_function.
Qed.

Lemma hasKeyPath_crash (keyPath x : value) (s : fsstate) :
  no_function x ->
  _hasKeyPath encrypt decrypt cfg keyPath (callable x) s
  = (Uncaught not_a_function,
     snd (_hasKeyPathSync encrypt decrypt cfg keyPath s)).
Proof.
  intros Hx. unfold _hasKeyPath, _hasKeyPathSync, bind.
  rewrite load_crash.
  - destruct (_loadSettingsSync encrypt decrypt cfg s) as [[e|obj] s1];
      reflexivity.
  - intros [e|] v s0; now apply callable_no_function.
Qed.

End NoCallback.

(** X15: [get] and [has] called with something that is no function where
    the callback goes do to the file system what [getSync] and [hasSync]
    do, and then end in a [TypeError]: the store calls the callback where no
    function is, in a later turn of the event loop, so that the caller
    cannot catch the error.  So it is with [get] given a first argument that
    is neither a key path nor a function: that argument is taken for the
    callback. *)
Theorem without_a_callback_a_read_ends_in_a_type_error :
  forall encrypt decrypt (cfg : config) (s : fsstate) (x : value),
    no_function x ->
    (forall p rest,
        valid_key_path p ->
        get encrypt decrypt cfg (p :: x :: rest) s
        = (Uncaught not_a_function,
           snd (getSync encrypt decrypt cfg [p] s))
        /\ has encrypt decrypt cfg (p :: x :: rest) s
           = (Uncaught not_a_function,
              snd (hasSync encrypt decrypt cfg [p] s)))
    /\ (forall rest,
           ~ valid_key_path x ->
           get encrypt decrypt cfg (x :: rest) s
           = (Uncaught not_a_function,
              snd (getSync encrypt decrypt cfg [] s))).
Proof.
  intros encrypt decrypt cfg s x Hx. split.
  - intros p rest Hp. apply isKeyPath_valid in Hp. split.
    + unfold get, getSync.
      change (arg 0 (p :: x :: rest)) with p. change (arg 0 [p]) with p.
      rewrite Hp. unfold splice_flat. simpl.
      now apply getValue_crash.
    + unfold has, hasSync.
      change (arg 0 (p :: x :: rest)) with p. change (arg 0 [p]) with p.
      rewrite Hp. unfold splice_flat. simpl.
      now apply hasKeyPath_crash.
  - intros rest Hv. apply isKeyPath_invalid in Hv.
    unfold get, getSync.
    change (arg 0 (x :: rest)) with x. change (arg 0 []) with VUndef.
    rewrite Hv. simpl.
    now apply getValue_crash.
Qed.

Lemma undefined_is_no_function : no_function VUndef.
Proof. intros k. discriminate. Qed.

Lemma get_without_callback_reads_and_fails :
  no_function VUndef
  /\ valid_key_path (VStr "a")
  /\ get Envelope.encrypt Envelope.decrypt defaults [VStr "a"]
       (fresh (HasFile "{}"))
     = (Uncaught not_a_function,
        snd (getSync Envelope.encrypt Envelope.decrypt defaults [VStr "a"]
               (fresh (HasFile "{}")))).
Proof.
  split; [exact undefined_is_no_function|]. split; [constructor|].
  destruct (without_a_callback_a_read_ends_in_a_type_error
              Envelope.encrypt Envelope.decrypt defaults
              (fresh (HasFile "{}")) VUndef undefined_is_no_function)
    as (H & _).
  exact (proj1 (H (VStr "a") [] (valid_string "a"))).
Defined.

(** ** The callback helpers *)

(** X16: each callback helper ends as its blocking twin.  On any host,
    [_ensureSettingsDir], [_writeSettingsFile], [_saveSettings] and
    [_ensureSettingsFile] make the calls of their twin and then call their
    callback with the error that the twin throws, or with none; what the
    callback throws escapes in a later turn, except where [_saveSettings]
    calls it at once because the encoding threw.  [_readSettingsFile] and
    [_loadSettings] hand a callback that throws nothing to its caller the
    error that the twin throws, or the document that it returns. *)
Theorem callback_helpers_end_as_their_blocking_twins :
  forall encrypt decrypt (cfg : config) (s : fsstate),
    (forall fn,
        _ensureSettingsDir fn s
        = let (r, s') := _ensureSettingsDirSync s in
          later (fn (error_of r)) s')
    /\ (forall data fn,
           _writeSettingsFile cfg data fn s
           = let (r, s') := _writeSettingsFileSync cfg data s in
             later (fn (error_of r)) s')
    /\ (forall obj fn,
           _saveSettings encrypt cfg obj fn s
           = match _prepareSettingsData encrypt cfg obj with
             | inl e => fn (Some e) s
             | inr data =>
                 let (r, s') := _writeSettingsFileSync cfg data s in
                 later (fn (error_of r)) s'
             end)
    /\ (forall fn,
           _ensureSettingsFile encrypt cfg fn s
           = let (r, s') := _ensureSettingsFileSync encrypt cfg s in
             later (fn (error_of r)) s')
    /\ (forall fn,
           (forall err val, quiet (fn err val)) ->
           _readSettingsFile decrypt cfg fn s
           = let (r, s') := _readSettingsFileSync decrypt cfg s in
             fn (error_of r) (value_of r) s')
    /\ (forall fn,
           (forall err val, quiet (fn err val)) ->
           _loadSettings encrypt decrypt cfg fn s
           = let (r, s') := _loadSettingsSync encrypt decrypt cfg s in
             fn (error_of r) (value_of r) s').
Proof.
  intros encrypt decrypt cfg s. repeat apply conj.
  - intros fn. apply ensureDir_ends.
  - intros data fn. apply writeFile_ends.
  - intros obj fn. unfold _saveSettings.
    destruct (_prepareSettingsData encrypt cfg obj) as [e|data];
      [reflexivity | apply writeFile_ends].
  - intros fn. apply ensureFile_later.
  - intros fn. apply readFile_ends.
  - intros fn. apply load_ends.
Qed.

Lemma a_load_hands_the_document_to_its_callback :
  (forall err val, quiet (callable (VFun 3) err val))
  /\ _loadSettings Envelope.encrypt Envelope.decrypt defaults
       (callable (VFun 3)) (fresh NoDir)
     = let (r, s') :=
         _loadSettingsSync Envelope.encrypt Envelope.decrypt defaults
           (fresh NoDir) in
       callable (VFun 3) (error_of r) (value_of r) s'.
Proof.
  split; [apply quiet_caller|].
  destruct (callback_helpers_end_as_their_blocking_twins Envelope.encrypt
              Envelope.decrypt defaults (fresh NoDir))
    as (_ & _ & _ & _ & _ & H).
  exact (H (callable (VFun 3)) (quiet_caller 3)).
Defined.

(** ** A callback that throws *)

Section Thrown.

Variable encrypt decrypt : string -> string -> string -> option string.
Variable cfg : config.

Lemma load_rethrows (cb : callback) (s s2 : fsstate) (bytes : string)
    (doc : value) (e : error) :
  healthy s -> nodes s = HasFile bytes ->
  _reconstructSettingsData decrypt cfg bytes = inr doc ->
  cb None doc (log IoRead (log (IoStat File) s)) = (Threw e, s2) ->
  _loadSettings encrypt decrypt cfg cb s = later (cb (Some e) VUndef) s2.
Proof.
  intros Hs Hn Hr Hcb. unfold _loadSettings. rewrite ensureFile_later.
  rewrite ensureFile_present by (rewrite ?Hn; auto).
  cbn [error_of].
  unfold _readSettingsFile, fs_readFile, sys_read, later at 1.
  cbn [env nodes log]. rewrite Hs, Hn. cbn [error_of].
  rewrite Hr. unfold later, try_call. rewrite Hcb.
  destruct (cb (Some e) VUndef s2) as [[e'|k err val|e'] s3]; reflexivity.
Qed.

End Thrown.

(** X17: a callback that throws is called again.  [_readSettingsFile] calls
    its callback inside the [try] block that guards the decoding.  So when,
    on a healthy host with a file that decodes, the callback given to
    [_getValueAtKeyPath] or to [_hasKeyPath] throws on being handed the
    result, it is called a second time, with what it threw as its error;
    what the second call throws escapes in a later turn. *)
Theorem a_callback_that_throws_is_called_again :
  forall encrypt decrypt (cfg : config) (s s2 : fsstate) (bytes : string)
         (doc keyPath : value) (fn : callback) (e : error),
    healthy s -> nodes s = HasFile bytes ->
    _reconstructSettingsData decrypt cfg bytes = inr doc ->
    (fn None
       (if truthy keyPath
        then keyPathHelpers.getValueAtKeyPath doc keyPath else doc)
       (log IoRead (log (IoStat File) s)) = (Threw e, s2) ->
     _getValueAtKeyPath encrypt decrypt cfg keyPath fn s
     = later (fn (Some e) VUndef) s2)
    /\ (fn None (VBool (keyPathHelpers.hasKeyPath doc keyPath))
          (log IoRead (log (IoStat File) s)) = (Threw e, s2) ->
        _hasKeyPath encrypt decrypt cfg keyPath fn s
        = later (fn (Some e) VUndef) s2).
Proof.
  intros encrypt decrypt cfg s s2 bytes doc keyPath fn e Hs Hn Hr. split.
  - intros Hfn. unfold _getValueAtKeyPath.
    rewrite (load_rethrows encrypt decrypt cfg _ s s2 bytes doc e Hs Hn Hr);
      [reflexivity|].
    destruct (truthy keyPath); exact Hfn.
  - intros Hfn. unfold _hasKeyPath.
    now rewrite (load_rethrows encrypt decrypt cfg _ s s2 bytes doc e
                   Hs Hn Hr).
Qed.

Lemma a_picky_callback_hears_of_its_own_error :
  healthy (fresh (HasFile "{}"))
  /\ nodes (fresh (HasFile "{}")) = HasFile "{}"
  /\ _reconstructSettingsData Envelope.decrypt defaults "{}" = inr (VObj [])
  /\ _getValueAtKeyPath Envelope.encrypt Envelope.decrypt defaults VNull
       (picky 7) (fresh (HasFile "{}"))
     = (Called 7 (Some (TypeError "unexpected")) VUndef,
        log IoRead (log (IoStat File) (fresh (HasFile "{}")))).
Proof.
  split; [apply fresh_is_healthy|]. split; [reflexivity|].
  split; [reflexivity|].
  exact (proj1 (a_callback_that_throws_is_called_again Envelope.encrypt
                  Envelope.decrypt defaults (fresh (HasFile "{}"))
                  (log IoRead (log (IoStat File) (fresh (HasFile "{}"))))
                  "{}" (VObj []) VNull (picky 7) (TypeError "unexpected")
                  (fresh_is_healthy _) eq_refl eq_refl) eq_refl).
Defined.

(** ** Values that JSON does not represent *)

Lemma serialize_sanitize (v : value) :
  forall gap ind,
    JSON.serialize gap ind (sanitize v) = JSON.serialize gap ind v.
Proof.
  induction v as [| |b|n|s|items IH|props IH|k] using value_rect';
    intros gap ind; try reflexivity.
  - cbn [sanitize JSON.serialize]. do 2 f_equal. rewrite map_map.
    apply map_ext_Forall. revert IH. apply Forall_impl.
    intros x IH. destruct x; try reflexivity; now rewrite IH.
  - cbn [sanitize JSON.serialize]. do 2 f_equal.
    induction IH as [|[k x] props Hx _ IHprops]; [reflexivity|].
    cbn [flat_map snd fst]. rewrite <- IHprops.
    destruct x; try reflexivity; cbn [flat_map app snd fst];
      rewrite Hx; cbn [JSON.serialize]; reflexivity.
Qed.

Lemma existsb_sanitized (k : string) (props : list (string * value)) :
  existsb (String.eqb k) (map fst props) = false ->
  existsb (String.eqb k)
    (map fst
       (flat_map (fun kv =>
                    match snd kv with
                    | VUndef | VFun _ => []
                    | _ => [(fst kv, sanitize (snd kv))]
                    end) props)) = false.
Proof.
  induction props as [|[k' x] props IH]; [reflexivity|].
  cbn [map fst existsb flat_map snd]. intros H.
  apply Bool.orb_false_iff in H as [H1 H2].
  destruct x; cbn [app map fst existsb]; rewrite ?H1; now apply IH.
Qed.

Lemma serialize_total (x : value) :
  match x with
  | VUndef | VFun _ => False
  | _ => True
  end ->
  forall gap ind, JSON.serialize gap ind x <> None.
Proof.
  destruct x as [| |[]| | | | |]; intros H gap ind;
    try discriminate; contradiction.
Qed.

Lemma json_sanitize (v : value) :
  distinct_keys v = true ->
  (forall gap ind, JSON.serialize gap ind v <> None) ->
  json_representable (sanitize v) = true.
Proof.
  induction v as [| |b|n|s|items IH|props IH|k] using value_rect';
    intros Hd Hs; try reflexivity;
    try (now contradiction (Hs 0 0)).
  - cbn [sanitize json_representable]. cbn [distinct_keys] in Hd.
    rewrite forallb_forall in Hd. apply forallb_forall.
    intros y Hy. apply in_map_iff in Hy as (x & <- & Hx).
    rewrite Forall_forall in IH. specialize (IH x Hx (Hd x Hx)).
    destruct x; try reflexivity; apply IH; now apply serialize_total.
  - cbn [sanitize json_representable]. cbn [distinct_keys] in Hd.
    apply Bool.andb_true_iff in Hd as [Hn Hd].
    clear Hs. apply Bool.andb_true_iff.
    induction IH as [|[k x] props Hx _ IHprops]; [now split|].
    cbn [map fst nodupb] in Hn. apply Bool.andb_true_iff in Hn as [Hk Hn].
    apply Bool.negb_true_iff in Hk.
    cbn [forallb snd] in Hd. apply Bool.andb_true_iff in Hd as [Hdx Hd].
    destruct (IHprops Hn Hd) as [I1 I2].
    cbn [flat_map snd fst].
    assert (Hx' : (forall gap ind, JSON.serialize gap ind x <> None) ->
                  json_representable (sanitize x) = true)
      by (intros H; now apply Hx).
    destruct x; try (now split); cbn [app map fst nodupb forallb snd];
      rewrite (existsb_sanitized _ _ Hk), I1, I2;
      (split; [reflexivity|]);
      rewrite Hx' by (now apply serialize_total); reflexivity.
Qed.

Lemma sanitize_json (v : value) :
  json_representable v = true -> sanitize v = v.
Proof.
  induction v as [| |b|n|s|items IH|props IH|k] using value_rect';
    intros Hj; try reflexivity.
  - cbn [sanitize]. f_equal. cbn [json_representable] in Hj.
    rewrite forallb_forall in Hj. rewrite Forall_forall in IH.
    rewrite <- (map_id items) at 2. apply map_ext_in.
    intros x Hx. specialize (IH x Hx (Hj x Hx)). specialize (Hj x Hx).
    destruct x; try discriminate; exact IH.
  - cbn [sanitize]. f_equal. cbn [json_representable] in Hj.
    apply Bool.andb_true_iff in Hj as [_ Hj].
    induction IH as [|[k x] props Hx _ IHprops]; [reflexivity|].
    cbn [forallb snd] in Hj. apply Bool.andb_true_iff in Hj as [Hjx Hj].
    cbn [flat_map snd fst]. rewrite (IHprops Hj).
    specialize (Hx Hjx). cbn [snd] in Hx.
    destruct x; try discriminate; cbn [app]; now rewrite Hx.
Qed.

Lemma prepare_sanitize
    (encrypt : string -> string -> string -> option string) (cfg : config)
    (doc : value) :
  _prepareSettingsData encrypt cfg (sanitize doc)
  = _prepareSettingsData encrypt cfg doc.
Proof.
  unfold _prepareSettingsData, JSON.stringify, JSON.indented.
  now rewrite serialize_sanitize.
Qed.

Lemma serialize_defined (v : value) (gap ind : nat) (data : string) :
  JSON.serialize gap ind v = Some data ->
  forall gap' ind', JSON.serialize gap' ind' v <> None.
Proof. destruct v as [| |[]| | | | |]; try discriminate; discriminate. Qed.

Lemma prepare_defined
    (encrypt : string -> string -> string -> option string) (cfg : config)
    (doc : value) (bytes : string) :
  _prepareSettingsData encrypt cfg doc = inr (Some bytes) ->
  forall gap ind, JSON.serialize gap ind doc <> None.
Proof.
  unfold _prepareSettingsData, JSON.stringify, JSON.indented.
  destruct (JSON.serialize _ 0 doc) as [text|] eqn:E.
  - intros _. exact (serialize_defined _ _ _ _ E).
  - destruct (has_key cfg); discriminate.
Qed.

(** X18: what JSON does not represent is dropped on the way to the file.
    For a document whose objects have distinct property names, decoding
    what encoding produced gives the document without the members whose
    value is [undefined] or a function, and with [null] for the array
    elements that are so; a document that JSON represents comes back as it
    is.  So on a healthy host [getSync] after [setSync] of the whole
    document returns the document so stripped. *)
Theorem what_json_cannot_hold_is_dropped :
  forall encrypt decrypt,
    cipher_law encrypt decrypt ->
    forall (cfg : config) (doc : value),
      distinct_keys doc = true ->
      (forall bytes,
          _prepareSettingsData encrypt cfg doc = inr (Some bytes) ->
          _reconstructSettingsData decrypt cfg bytes = inr (sanitize doc))
      /\ (json_representable doc = true -> sanitize doc = doc)
      /\ (forall s bytes,
             healthy s ->
             _prepareSettingsData encrypt cfg doc = inr (Some bytes) ->
             setSync encrypt decrypt cfg [VStr ""; doc] s
             = (inr VUndef, saved (atomicSave cfg) (Some bytes) s)
             /\ fst (getSync encrypt decrypt cfg []
                       (saved (atomicSave cfg) (Some bytes) s))
                = inr (sanitize doc)).
Proof.
  intros encrypt decrypt Hlaw cfg doc Hd.
  assert (Hr : forall bytes,
             _prepareSettingsData encrypt cfg doc = inr (Some bytes) ->
             _reconstructSettingsData decrypt cfg bytes
             = inr (sanitize doc)).
  { intros bytes E.
    apply (reconstruct_prepare encrypt decrypt cfg _ _ Hlaw).
    - apply json_sanitize; [exact Hd|].
      exact (prepare_defined _ _ _ _ E).
    - now rewrite prepare_sanitize. }
  repeat apply conj.
  - exact Hr.
  - apply sanitize_json.
  - intros s bytes Hs E. split.
    + change (setSync encrypt decrypt cfg [VStr ""; doc] s)
        with (bind (_saveSettingsSync encrypt cfg doc)
                (fun _ => ret VUndef) s).
      unfold bind. now rewrite (save_healthy _ _ _ _ Hs), E.
    + rewrite getSync_whole by (now right).
      rewrite (load_reads encrypt decrypt cfg
                 (saved (atomicSave cfg) (Some bytes) s) bytes
                 (healthy_saved _ _ _ Hs) eq_refl).
      now apply Hr.
Qed.

Lemma a_function_in_an_array_reads_null :
  cipher_law Envelope.encrypt Envelope.decrypt
  /\ distinct_keys leaky = true
  /\ sanitize leaky = VObj [("b", VArr [VNull; VNum 1])]
  /\ exists bytes,
      _prepareSettingsData Envelope.encrypt secret leaky = inr (Some bytes)
      /\ _reconstructSettingsData Envelope.decrypt secret bytes
         = inr (sanitize leaky).
Proof.
  split; [exact envelope_law|]. split; [reflexivity|].
  split; [reflexivity|].
  eexists. split; [reflexivity|].
  exact (proj1 (what_json_cannot_hold_is_dropped _ _ envelope_law secret
                  leaky eq_refl) _ eq_refl).
Defined.

(** ** Reading twice *)

Section Again.

Variable encrypt decrypt : string -> string -> string -> option string.
Variable cfg : config.

Lemma load_again (obj : value) (s s' : fsstate) :
  healthy s ->
  _loadSettingsSync encrypt decrypt cfg s = (inr obj, s') ->
  healthy s'
  /\ _loadSettingsSync encrypt decrypt cfg s'
     = (inr obj, log IoRead (log (IoStat File) s')).
Proof.
  intros Hs. rewrite (load_healthy _ _ _ _ Hs).
  destruct (nodes s) as [| |data] eqn:En.
  - destruct (_prepareSettingsData encrypt cfg (VObj [])) as [e|d0];
      [discriminate|].
    intros [= Hr <-]. split; [exact Hs|].
    now rewrite (load_reads encrypt decrypt cfg _ (payload (env s) d0)
                   (healthy_log _ _ (healthy_saved _ _ _ (healthy_log _ _ Hs)))
                   eq_refl), Hr.
  - destruct (_prepareSettingsData encrypt cfg (VObj [])) as [e|d0];
      [discriminate|].
    intros [= Hr <-]. split; [exact Hs|].
    now rewrite (load_reads encrypt decrypt cfg _ (payload (env s) d0)
                   (healthy_log _ _ (healthy_saved _ _ _ (healthy_log _ _ Hs)))
                   eq_refl), Hr.
  - intros [= Hr <-]. split; [exact Hs|].
    now rewrite (load_reads encrypt decrypt cfg _ data
                   (healthy_log _ _ (healthy_log _ _ Hs)) En), Hr.
Qed.

Lemma getSync_again (args : list value) (v : value) (s s' : fsstate) :
  healthy s ->
  getSync encrypt decrypt cfg args s = (inr v, s') ->
  getSync encrypt decrypt cfg args s'
  = (inr v, log IoRead (log (IoStat File) s')).
Proof.
  intros Hs. unfold getSync, _getValueAtKeyPathSync, bind.
  destruct (_loadSettingsSync encrypt decrypt cfg s) as [[e|obj] s1] eqn:E;
    [discriminate|].
  destruct (load_again _ _ _ Hs E) as [_ E1].
  destruct (truthy _); intros [= <- <-]; now rewrite E1.
Qed.

Lemma hasSync_again (args : list value) (v : value) (s s' : fsstate) :
  healthy s ->
  hasSync encrypt decrypt cfg args s = (inr v, s') ->
  hasSync encrypt decrypt cfg args s'
  = (inr v, log IoRead (log (IoStat File) s')).
Proof.
  intros Hs. unfold hasSync, _hasKeyPathSync, bind.
  destruct (truthy _); [|discriminate].
  destruct (_loadSettingsSync encrypt decrypt cfg s) as [[e|obj] s1] eqn:E;
    [discriminate|].
  destruct (load_again _ _ _ Hs E) as [_ E1].
  intros [= <- <-]. now rewrite E1.
Qed.

End Again.

(** X19: reads can be repeated.  On a healthy host, when [getSync] or
    [hasSync] has returned a value, the same call made again returns the
    same value, after a [stat] on the file and a read and nothing else; this
    holds also when the first call was the one that created the file, and
    under any cipher. *)
Theorem a_read_can_be_repeated :
  forall encrypt decrypt (cfg : config) (args : list value) (v : value)
         (s s' : fsstate),
    healthy s ->
    (getSync encrypt decrypt cfg args s = (inr v, s') ->
     getSync encrypt decrypt cfg args s'
     = (inr v, log IoRead (log (IoStat File) s')))
    /\ (hasSync encrypt decrypt cfg args s = (inr v, s') ->
        hasSync encrypt decrypt cfg args s'
        = (inr v, log IoRead (log (IoStat File) s'))).
Proof.
  intros encrypt decrypt cfg args v s s' Hs. split.
  - now apply getSync_again.
  - now apply hasSync_again.
Qed.

Lemma the_second_read_creates_nothing :
  healthy (fresh NoDir)
  /\ exists s',
      getSync Envelope.encrypt Envelope.decrypt secret [] (fresh NoDir)
      = (inr (VObj []), s')
      /\ getSync Envelope.encrypt Envelope.decrypt secret [] s'
         = (inr (VObj []), log IoRead (log (IoStat File) s')).
Proof.
  split; [apply fresh_is_healthy|].
  eexists. split; [reflexivity|].
  exact (proj1 (a_read_can_be_repeated Envelope.encrypt Envelope.decrypt
                  secret [] (VObj []) (fresh NoDir) _ (fresh_is_healthy _))
           eq_refl).
Defined.

(** ** The order of the calls *)

Section SaveProtocol.

Variable encrypt : string -> string -> string -> option string.
Variable cfg : config.

(** A save that returns has ended with the write. *)
Lemma save_shape (obj : value) (s : fsstate) :
  exists evs,
    trace (snd (_saveSettingsSync encrypt cfg obj s)) = (trace s ++ evs)%list
    /\ env (snd (_saveSettingsSync encrypt cfg obj s)) = env s
    /\ In (map call_of evs) save_calls
    /\ (forall a,
           fst (_saveSettingsSync encrypt cfg obj s) = inr a ->
           map call_of evs = [SysStat Dir; SysWrite]
           \/ map call_of evs = [SysStat Dir; SysMkdirp; SysWrite]).
Proof.
  unfold _saveSettingsSync, _writeSettingsFileSync, _ensureSettingsDirSync,
    bind, lift, try_catch, sys_stat, sys_mkdirp, sys_write, throw, log,
    with_nodes, save_calls.
  destruct s as [h d t]. cbn [env nodes trace].
  destruct (_prepareSettingsData encrypt cfg obj) as [e|data].
  { exists []. cbn. rewrite app_nil_r. repeat split; [tauto | discriminate]. }
  destruct (fault h (SysStat Dir)) as [f|] eqn:E1.
  { exists [IoStat Dir]. cbn. repeat split; [tauto | discriminate]. }
  destruct d as [| |bytes]; cbn.
  - destruct (fault h SysMkdirp) as [f|] eqn:E2; cbn.
    { exists [IoStat Dir; IoMkdirp]. cbn. rewrite <- app_assoc.
      repeat split; [tauto | discriminate]. }
    destruct (fault h SysWrite) as [f|] eqn:E3; cbn;
      exists [IoStat Dir; IoMkdirp; IoWrite (atomicSave cfg) data]; cbn;
      rewrite <- !app_assoc; repeat split; tauto || discriminate.
  - destruct (fault h SysWrite) as [f|] eqn:E3; cbn;
      exists [IoStat Dir; IoWrite (atomicSave cfg) data]; cbn;
      rewrite <- !app_assoc; repeat split; tauto || discriminate.
  - destruct (fault h SysWrite) as [f|] eqn:E3; cbn;
      exists [IoStat Dir; IoWrite (atomicSave cfg) data]; cbn;
      rewrite <- !app_assoc; repeat split; tauto || discriminate.
Qed.

Lemma follows_saveSync (obj : value) :
  follows save_calls (_saveSettingsSync encrypt cfg obj).
Proof.
  intros s. destruct (save_shape obj s) as (evs & Ht & _ & Hin & _).
  now exists evs.
Qed.

End SaveProtocol.

Section Protocol.

Variable encrypt decrypt : string -> string -> string -> option string.
Variable cfg : config.

Lemma load_shape (s : fsstate) :
  exists evs,
    trace (snd (_loadSettingsSync encrypt decrypt cfg s))
    = (trace s ++ evs)%list
    /\ In (map call_of evs) load_calls
    /\ (forall a,
           fst (_loadSettingsSync encrypt decrypt cfg s) = inr a ->
           In (map call_of evs) loaded_calls).
Proof.
  unfold _loadSettingsSync, _ensureSettingsFileSync, _readSettingsFileSync,
    bind, try_catch, lift, throw.
  assert (Hread : forall s1 evs,
             trace s1 = (trace s ++ evs)%list ->
             exists evs',
               trace (snd (match sys_read s1 with
                           | (inr data, s2) =>
                               (_reconstructSettingsData decrypt cfg data, s2)
                           | (inl e, s2) => (inl e, s2)
                           end))
               = (trace s ++ evs')%list
               /\ map call_of evs' = (map call_of evs ++ [SysRead])%list).
  { intros s1 evs Ht. exists (evs ++ [IoRead])%list.
    rewrite map_app. split; [|reflexivity].
    unfold sys_read, log.
    destruct (fault (env s1) SysRead); [|destruct (nodes s1)]; cbn;
      rewrite Ht; now rewrite app_assoc. }
  unfold sys_stat.
  destruct (fault (env s) (SysStat File)) as [f|].
  { exists [IoStat File]. cbn. repeat split; [tauto | discriminate]. }
  assert (Hmissing :
            exists evs,
              trace (snd (match
                             _saveSettingsSync encrypt cfg (VObj [])
                               (log (IoStat File) s)
                           with
                           | (inr a, s') =>
                               match sys_read s' with
                               | (inr data, s2) =>
                                   (_reconstructSettingsData decrypt cfg data,
                                    s2)
                               | (inl e, s2) => (inl e, s2)
                               end
                           | (inl e, s') => (inl e, s')
                           end))
              = (trace s ++ evs)%list
              /\ In (map call_of evs) load_calls
              /\ (forall a,
                     fst (match
                            _saveSettingsSync encrypt cfg (VObj [])
                              (log (IoStat File) s)
                          with
                          | (inr a, s') =>
                              match sys_read s' with
                              | (inr data, s2) =>
                                  (_reconstructSettingsData decrypt cfg data,
                                   s2)
                              | (inl e, s2) => (inl e, s2)
                              end
                          | (inl e, s') => (inl e, s')
                          end) = inr a ->
                     In (map call_of evs) loaded_calls)).
  { destruct (save_shape encrypt cfg (VObj []) (log (IoStat File) s))
      as (evs & Ht & _ & Hin & Hok).
    destruct (_saveSettingsSync encrypt cfg (VObj []) (log (IoStat File) s))
      as [[e|[]] s1]; cbn [fst snd] in *.
    - exists (IoStat File :: evs). split; [|split; [|discriminate]].
      + rewrite Ht. cbn. now rewrite <- app_assoc.
      + cbn [map call_of]. unfold save_calls, load_calls in *.
        cbn in Hin. cbn.
        destruct Hin as [<-|[<-|[<-|[<-|[<-|[]]]]]]; tauto.
    - destruct (Hread s1 (IoStat File :: evs)) as (evs' & Ht' & Hm).
      { rewrite Ht. cbn. now rewrite <- app_assoc. }
      exists evs'. split; [exact Ht'|]. rewrite Hm. cbn [map call_of].
      unfold load_calls, loaded_calls.
      destruct (Hok tt eq_refl) as [-> | ->]; cbn; tauto. }
  assert (Hpresent :
            exists evs,
              trace (snd (match sys_read (log (IoStat File) s) with
                          | (inr data, s2) =>
                              (_reconstructSettingsData decrypt cfg data, s2)
                          | (inl e, s2) => (inl e, s2)
                          end))
              = (trace s ++ evs)%list
              /\ In (map call_of evs) load_calls
              /\ (forall a : value,
                     fst (match sys_read (log (IoStat File) s) with
                          | (inr data, s2) =>
                              (_reconstructSettingsData decrypt cfg data, s2)
                          | (inl e, s2) => (inl e, s2)
                          end) = inr a ->
                     In (map call_of evs) loaded_calls)).
  { destruct (Hread (log (IoStat File) s) [IoStat File] eq_refl)
      as (evs' & Ht' & Hm).
    exists evs'. split; [exact Ht'|]. rewrite Hm. cbn. tauto. }
  destruct (nodes s); cbn [is_ENOENT]; assumption.
Qed.

Lemma follows_loadSync :
  follows load_calls (_loadSettingsSync encrypt decrypt cfg).
Proof.
  intros s. destruct (load_shape s) as (evs & Ht & Hin & _). now exists evs.
Qed.

Lemma follows_idle {R : Type} (r : R) (shapes : list (list syscall)) :
  In [] shapes -> follows shapes (fun s : fsstate => (r, s)).
Proof. intros H s. exists []. cbn. now rewrite app_nil_r. Qed.

Lemma follows_more {R : Type} (shapes shapes' : list (list syscall))
    (m : fsstate -> R * fsstate) :
  incl shapes shapes' -> follows shapes m -> follows shapes' m.
Proof.
  intros Hi Hm s. destruct (Hm s) as (evs & Ht & Hin).
  exists evs. split; [exact Ht | now apply Hi].
Qed.

Lemma follows_ret {A : Type} (shapes : list (list syscall)) (m : M A)
    (f : A -> value) :
  follows shapes m -> follows shapes (bind m (fun a => ret (f a))).
Proof.
  intros Hm s. unfold bind, ret. destruct (Hm s) as (evs & Ht & Hin).
  destruct (m s) as [[e|a] s1]; now exists evs.
Qed.

Lemma follows_save_undefined (obj : value) :
  follows save_calls
    (bind (_saveSettingsSync encrypt cfg obj) (fun _ => ret VUndef)).
Proof. apply (follows_ret _ _ (fun _ => VUndef)), follows_saveSync. Qed.

Lemma follows_getSync (args : list value) :
  follows load_calls (getSync encrypt decrypt cfg args).
Proof.
  unfold getSync, _getValueAtKeyPathSync.
  destruct (truthy (arg 0 _)).
  - apply (follows_ret _ _ (fun obj => keyPathHelpers.getValueAtKeyPath obj _)),
      follows_loadSync.
  - apply (follows_ret _ _ (fun obj => obj)), follows_loadSync.
Qed.

Lemma follows_hasSync (args : list value) :
  follows ([] :: load_calls) (hasSync encrypt decrypt cfg args).
Proof.
  unfold hasSync, _hasKeyPathSync.
  destruct (truthy _); [|apply follows_idle; now left].
  apply (follows_more load_calls); [now apply incl_tl, incl_refl|].
  apply (follows_ret _ _ (fun obj => VBool (keyPathHelpers.hasKeyPath obj _))),
    follows_loadSync.
Qed.

Lemma follows_update (obj' : value -> value) :
  follows update_calls
    (bind (_loadSettingsSync encrypt decrypt cfg)
       (fun obj =>
          bind (_saveSettingsSync encrypt cfg (obj' obj))
            (fun _ => ret VUndef))).
Proof.
  intros s. unfold bind at 1.
  destruct (load_shape s) as (evs & Ht & Hin & Hok).
  destruct (_loadSettingsSync encrypt decrypt cfg s) as [[e|obj] s1];
    cbn [fst snd] in *.
  - exists evs. split; [exact Ht|]. unfold update_calls.
    apply in_or_app. now left.
  - destruct (follows_save_undefined (obj' obj) s1) as (evs' & Ht' & Hin').
    exists (evs ++ evs')%list. split.
    + rewrite Ht', Ht. now rewrite app_assoc.
    + unfold update_calls. apply in_or_app. right.
      rewrite map_app. unfold one_after_another. apply in_flat_map.
      exists (map call_of evs). split; [now apply (Hok obj)|].
      apply in_map_iff. now exists (map call_of evs').
Qed.

Lemma follows_setSync (args : list value) :
  follows (save_calls ++ update_calls) (setSync encrypt decrypt cfg args).
Proof.
  unfold setSync, _setValueAtKeyPathSync.
  destruct (truthy (arg 0 _)).
  - apply (follows_more update_calls); [apply incl_appr, incl_refl|].
    apply (follows_update (fun obj => keyPathHelpers.setValueAtKeyPath obj _ _)).
  - apply (follows_more save_calls); [apply incl_appl, incl_refl|].
    apply follows_save_undefined.
Qed.

Lemma follows_deleteSync (args : list value) :
  follows ([] :: update_calls) (deleteSync encrypt decrypt cfg args).
Proof.
  unfold deleteSync, _deleteValueAtKeyPathSync.
  destruct (truthy _); [|apply follows_idle; now left].
  apply (follows_more update_calls); [now apply incl_tl, incl_refl|].
  apply (follows_update (fun obj => keyPathHelpers.deleteValueAtKeyPath obj _)).
Qed.

End Protocol.

(** X20: the calls to the file system come in a fixed order.  On any host
    and for any arguments, a save makes, in this order, a [stat] on the
    directory, [mkdirp], the write, and stops at the call that fails; a load
    makes a [stat] on the file and then the read or, when the file is
    missing, the calls of a save and then the read.  [getSync] and [hasSync]
    make the calls of a load; [setSync] makes those of a save or, as
    [deleteSync] does, those of a load and, if it returned, those of a save;
    [hasSync] and [deleteSync] make none when they refuse their argument.
    So a read method makes at most five calls and an update at most
    eight. *)
Theorem the_calls_come_in_a_fixed_order :
  forall encrypt decrypt (cfg : config) (args : list value),
    (forall obj, follows save_calls (_saveSettingsSync encrypt cfg obj))
    /\ follows load_calls (_loadSettingsSync encrypt decrypt cfg)
    /\ follows load_calls (getSync encrypt decrypt cfg args)
    /\ follows ([] :: load_calls) (hasSync encrypt decrypt cfg args)
    /\ follows (save_calls ++ update_calls)
         (setSync encrypt decrypt cfg args)
    /\ follows ([] :: update_calls) (deleteSync encrypt decrypt cfg args)
    /\ forallb (fun l => (List.length l <=? 5)%nat) load_calls = true
    /\ forallb (fun l => (List.length l <=? 8)%nat) update_calls = true.
Proof.
  intros encrypt decrypt cfg args. repeat apply conj.
  - intros obj. apply follows_saveSync.
  - apply follows_loadSync.
  - apply follows_getSync.
  - apply follows_hasSync.
  - apply follows_setSync.
  - apply follows_deleteSync.
  - reflexivity.
  - reflexivity.
Qed.

(** ** Errors of the file system *)

Section Surfacing.

Lemma surfaces_idle {A : Type} (r : error + A) : surfaces (lift r).
Proof.
  intros s. split; [reflexivity|]. exists [].
  split; [now rewrite app_nil_r | constructor].
Qed.

Lemma surfaces_bind {A B : Type} (m : M A) (f : A -> M B) :
  surfaces m -> (forall a, surfaces (f a)) -> surfaces (bind m f).
Proof.
  intros Hm Hf s. unfold bind.
  destruct (Hm s) as (He & evs & Ht & H).
  destruct (m s) as [[e|a] s1]; simpl in *.
  - split; [exact He|]. exists evs. split; [exact Ht | discriminate].
  - destruct (Hf a s1) as (He' & evs' & Ht' & H').
    split; [congruence|]. exists (evs ++ evs')%list.
    split; [rewrite Ht', Ht; now rewrite app_assoc|].
    intros b Hb. apply Forall_app. split; [now apply (H a)|].
    rewrite <- He. now apply (H' b).
Qed.

Ltac surfacing :=
  simpl; split;
  [reflexivity
  | eexists [_]; split;
    [reflexivity | intros a0 Ha0; try discriminate; now repeat constructor]].

Lemma surfaces_stat (n : node) : surfaces (sys_stat n).
Proof.
  intros s. unfold sys_stat, log.
  destruct (fault (env s) (SysStat n)) eqn:E; [surfacing|].
  destruct n, (nodes s); surfacing.
Qed.

Lemma surfaces_mkdirp : surfaces sys_mkdirp.
Proof.
  intros s. unfold sys_mkdirp, log, with_nodes.
  destruct (fault (env s) SysMkdirp) eqn:E; [surfacing|].
  destruct (nodes s); surfacing.
Qed.

Lemma surfaces_read : surfaces sys_read.
Proof.
  intros s. unfold sys_read, log.
  destruct (fault (env s) SysRead) eqn:E; [surfacing|].
  destruct (nodes s); surfacing.
Qed.

Lemma surfaces_write (atomic : bool) (data : option string) :
  surfaces (sys_write atomic data).
Proof.
  intros s. unfold sys_write, log, with_nodes.
  destruct (fault (env s) SysWrite) eqn:E; [surfacing|].
  destruct (nodes s); surfacing.
Qed.

(** [try { stat } catch (err) { if (err.code === 'ENOENT') h else throw }] *)
Lemma surfaces_unless_missing (n : node) (h : M unit) :
  surfaces h ->
  surfaces
    (try_catch (sys_stat n)
       (fun err => if is_ENOENT err then h else throw err)).
Proof.
  intros Hh s. unfold try_catch, sys_stat.
  destruct (fault (env s) (SysStat n)) as [f|] eqn:E.
  { simpl. split; [reflexivity|]. exists [IoStat n].
    split; [reflexivity | discriminate]. }
  assert (Hgo : env (snd (h (log (IoStat n) s))) = env s
                /\ exists evs,
                    trace (snd (h (log (IoStat n) s)))
                    = (trace s ++ evs)%list
                    /\ (forall a,
                           fst (h (log (IoStat n) s)) = inr a ->
                           Forall
                             (fun ev => fault (env s) (call_of ev) = None)
                             evs)).
  { destruct (Hh (log (IoStat n) s)) as (He & evs & Ht & H).
    split; [exact He|]. exists (IoStat n :: evs). split.
    - rewrite Ht. simpl. now rewrite <- app_assoc.
    - intros a Ha. constructor; [exact E | now apply (H a)]. }
  assert (Hok : env (snd (@inr error unit tt, log (IoStat n) s)) = env s
                /\ exists evs,
                    trace (snd (@inr error unit tt, log (IoStat n) s))
                    = (trace s ++ evs)%list
                    /\ (forall a : unit,
                           fst (@inr error unit tt, log (IoStat n) s)
                           = inr a ->
                           Forall
                             (fun ev => fault (env s) (call_of ev) = None)
                             evs)).
  { split; [reflexivity|]. exists [IoStat n].
    split; [reflexivity|]. intros a _. now repeat constructor. }
  destruct n, (nodes s); simpl;
    first [exact Hok
          | destruct (h (log (IoStat _) s)) as [[e|[]] s1]; exact Hgo].
Qed.

Variable encrypt decrypt : string -> string -> string -> option string.
Variable cfg : config.

Lemma surfaces_saveSync (obj : value) :
  surfaces (_saveSettingsSync encrypt cfg obj).
Proof.
  apply surfaces_bind; [apply surfaces_idle|].
  intros data. apply surfaces_bind; [|intros _; apply surfaces_write].
  apply surfaces_unless_missing, surfaces_mkdirp.
Qed.

Lemma surfaces_loadSync : surfaces (_loadSettingsSync encrypt decrypt cfg).
Proof.
  apply surfaces_bind.
  - apply surfaces_unless_missing, surfaces_saveSync.
  - intros _. apply surfaces_bind; [apply surfaces_read|].
    intros data. apply surfaces_idle.
Qed.

Lemma surfaces_save_undefined (obj : value) :
  surfaces (bind (_saveSettingsSync encrypt cfg obj) (fun _ => ret VUndef)).
Proof.
  apply surfaces_bind; [apply surfaces_saveSync|].
  intros _. apply (surfaces_idle (inr VUndef)).
Qed.

Lemma surfaces_getSync (args : list value) :
  surfaces (getSync encrypt decrypt cfg args).
Proof.
  apply surfaces_bind; [apply surfaces_loadSync|].
  intros obj. destruct (truthy _); apply (surfaces_idle (inr _)).
Qed.

Lemma surfaces_hasSync (args : list value) :
  surfaces (hasSync encrypt decrypt cfg args).
Proof.
  unfold hasSync. destruct (truthy _); [|apply (surfaces_idle (inl _))].
  apply surfaces_bind; [apply surfaces_loadSync|].
  intros obj. apply (surfaces_idle (inr _)).
Qed.

Lemma surfaces_setSync (args : list value) :
  surfaces (setSync encrypt decrypt cfg args).
Proof.
  unfold setSync, _setValueAtKeyPathSync.
  destruct (truthy (arg 0 _)); [|apply surfaces_save_undefined].
  apply surfaces_bind; [apply surfaces_loadSync|].
  intros obj. apply surfaces_save_undefined.
Qed.

Lemma surfaces_deleteSync (args : list value) :
  surfaces (deleteSync encrypt decrypt cfg args).
Proof.
  unfold deleteSync. destruct (truthy _); [|apply (surfaces_idle (inl _))].
  apply surfaces_bind; [apply surfaces_loadSync|].
  intros obj. apply surfaces_save_undefined.
Qed.

End Surfacing.

(** X21: no error of the file system is swallowed.  When a blocking method
    returns, on any host and for any arguments, every call it made to the
    file system was one that the host does not fail: the only failure a
    method recovers from is that the directory or the file is not there.
    A callback method that hands its callback no error has run as the
    blocking method that returned. *)
Theorem no_file_system_error_is_swallowed :
  forall encrypt decrypt (cfg : config) (args : list value),
    surfaces (getSync encrypt decrypt cfg args)
    /\ surfaces (hasSync encrypt decrypt cfg args)
    /\ surfaces (setSync encrypt decrypt cfg args)
    /\ surfaces (deleteSync encrypt decrypt cfg args)
    /\ (forall p v k s r s',
           valid_key_path p ->
           (get encrypt decrypt cfg [p; VFun k] s = (Called k None r, s') ->
            getSync encrypt decrypt cfg [p] s = (inr r, s'))
           /\ (has encrypt decrypt cfg [p; VFun k] s = (Called k None r, s') ->
               hasSync encrypt decrypt cfg [p] s = (inr r, s'))
           /\ (set encrypt decrypt cfg [p; v; VFun k] s
               = (Called k None r, s') ->
               setSync encrypt decrypt cfg [p; v] s = (inr r, s'))
           /\ (delete encrypt decrypt cfg [p; VFun k] s
               = (Called k None r, s') ->
               deleteSync encrypt decrypt cfg [p] s = (inr r, s'))).
Proof.
  intros encrypt decrypt cfg args. repeat apply conj.
  - apply surfaces_getSync.
  - apply surfaces_hasSync.
  - apply surfaces_setSync.
  - apply surfaces_deleteSync.
  - intros p v k s r s' Hp. repeat apply conj; intros E.
    + rewrite (get_ends _ _ _ _ _ _ _ Hp) in E. now apply deliver_success in E.
    + rewrite (has_ends _ _ _ _ _ _ _ Hp) in E. now apply deliver_success in E.
    + rewrite (set_ends _ _ _ _ _ _ _ _ Hp) in E.
      now apply deliver_success in E.
    + rewrite (delete_ends _ _ _ _ _ _ _ Hp) in E.
      now apply deliver_success in E.
Qed.

Lemma a_returned_get_met_no_fault :
  valid_key_path (VStr "a")
  /\ exists s',
      get Envelope.encrypt Envelope.decrypt defaults [VStr "a"; VFun 0]
        (fresh (HasFile "{}"))
      = (Called 0 None VUndef, s')
      /\ getSync Envelope.encrypt Envelope.decrypt defaults [VStr "a"]
           (fresh (HasFile "{}"))
         = (inr VUndef, s').
Proof.
  split; [constructor|].
  eexists. split; [reflexivity|].
  destruct (no_file_system_error_is_swallowed Envelope.encrypt
              Envelope.decrypt defaults []) as (_ & _ & _ & _ & H).
  exact (proj1 (H (VStr "a") VUndef 0 (fresh (HasFile "{}")) VUndef _
                  (valid_string "a")) eq_refl).
Defined.

(** ** The path of the file *)

(** X22: where the file is.  With a [dir] that is not empty, [file()] is
    [path.join(dir, fileName)] and Electron is not asked, so that the call
    cannot fail.  Without it the directory is the [userData] path of the
    app of the module given as option [electron] or, if none is given, of
    the module [electron]; the app is [app] or else [remote.app], and the
    call throws a [TypeError] when the module has neither.  No other option
    bears on the path. *)
Theorem the_file_lies_in_the_directory_of_the_store :
  forall (path_join : string -> string -> string)
         (electron : Electron.module) (own : option Electron.module)
         (cfg : config),
    (forall d,
        dir cfg = Some d -> d <> "" ->
        file path_join electron own cfg = inr (path_join d (fileName cfg)))
    /\ (dir cfg = None \/ dir cfg = Some "" ->
        forall e,
          e = match own with
              | Some given => given
              | None => electron
              end ->
          file path_join electron own cfg
          = match Electron.app e, Electron.remote e with
            | Some a, _ =>
                inr (path_join (Electron.userData a) (fileName cfg))
            | None, Some r =>
                match Electron.remote_app r with
                | Some a =>
                    inr (path_join (Electron.userData a) (fileName cfg))
                | None => inl (cannot_read "getPath")
                end
            | None, None => inl (cannot_read "app")
            end)
    /\ (forall cfg',
           dir cfg' = dir cfg -> fileName cfg' = fileName cfg ->
           file path_join electron own cfg'
           = file path_join electron own cfg).
Proof.
  intros path_join electron own cfg. repeat apply conj.
  - intros d Hd Hne.
    unfold file, _getSettingsFilePath, _getSettingsDirPath. rewrite Hd.
    apply String.eqb_neq in Hne. now rewrite Hne.
  - intros Hd e ->.
    unfold file, _getSettingsFilePath, _getSettingsDirPath,
      _getElectronApp, _getElectron.
    destruct Hd as [-> | ->]; cbn [String.eqb];
      (destruct (Electron.app _) as [a|]; [reflexivity|]);
      (destruct (Electron.remote _) as [r|]; [|reflexivity]);
      destruct (Electron.remote_app r); reflexivity.
  - intros cfg' Hd Hf.
    unfold file, _getSettingsFilePath, _getSettingsDirPath.
    now rewrite Hd, Hf.
Qed.

Lemma a_custom_directory_needs_no_electron :
  dir (in_directory "/tmp/app") = Some "/tmp/app"
  /\ "/tmp/app" <> ""
  /\ file (fun d f => d ++ "/" ++ f) no_electron None (in_directory "/tmp/app")
     = inr ((fun d f => d ++ "/" ++ f) "/tmp/app"
              (fileName (in_directory "/tmp/app"))).
Proof.
  split; [reflexivity|]. split; [discriminate|].
  exact (proj1 (the_file_lies_in_the_directory_of_the_store
                  (fun d f => d ++ "/" ++ f) no_electron None
                  (in_directory "/tmp/app")) "/tmp/app" eq_refl
           ltac:(discriminate)).
Defined.

(** The renderer process reaches the app through [remote]; outside of
    Electron, without a directory of its own, [file()] throws. *)
Example file_in_a_renderer :
  file (fun d f => d ++ "/" ++ f) (renderer "/home/u/.config/app") None
    defaults
  = inr "/home/u/.config/app/settings.json"
  /\ file (fun d f => d ++ "/" ++ f) no_electron None defaults
     = inl (cannot_read "app").
Proof. split; reflexivity. Qed.
